(** * Resizable segment tree: a shallow embedding and its verification

    The Python class [ResizableSegmentTree] keeps one list [self.tree] of
    optional aggregates.  Values sit at odd coordinates, each internal
    node sits between its two children:
<<
    G               -      10000
    8       -              x1000
    4   -   C   -          xx100
    2 - 6 - A - E - I -    xxx10
    1 3 5 7 9 B D F H J    xxxx1
>>
    The methods are embedded as computations in a state-and-exception
    monad over that list.  Python integers are unbounded, so they are [Z]
    and [&], [|], [~], [<<], [>>] are [Z.land], [Z.lor], [Z.lnot],
    [Z.shiftl], [Z.shiftr] (two's complement on negative numbers, as in
    Python).  List subscripts follow Python: a negative subscript counts
    from the end, anything outside [-len, len) raises. *)

From Stdlib Require Import ZArith Lia.
From stdpp Require Import base option list.

Local Open Scope Z_scope.

(** ** Exceptions and outcomes *)

(** The exceptions the methods can raise.  [OutOfRange] is the
    [IndexError] of a list subscript; [InvalidRange] is the
    [AssertionError] of the three argument assertions at the head of
    [query]; [InvariantViolation] is the [AssertionError] of the assertion
    on the two accumulators at its end; [AbsentOperand] is the exception
    of [func] applied to a slot that holds [None], where it raises one
    (a [TypeError] for [lambda a, b: a + b]).  [Diverged] is not a Python exception: it marks
    a [while] loop that used up the iteration budget of the model, and is
    shown never to happen (see [setitem_terminates] and its siblings). *)
Inductive error : Set :=
  | OutOfRange
  | InvalidRange
  | InvariantViolation
  | AbsentOperand
  | Diverged.

Inductive outcome (A : Type) : Type :=
  | Ok (a : A)
  | Raise (e : error).
Arguments Ok {A} a.
Arguments Raise {A} e.

(** ** The operator on [None]

    [self.func] is a Python callable.  On two values it is a function
    [func : T -> T -> T].  The class also applies it to slots that hold
    [None] (see [setitem_body]), and what happens then depends on the
    callable: [lambda a, b: a + b] raises a [TypeError], while
    [lambda a, b: (a or 0) + (b or 0)] returns a value.  [on_None a b]
    is that behaviour for operands [a] and [b] of which one at least is
    [None]: [None] when the call raises, [Some v] when it returns the
    value [v].  A callable that returns [None] itself is outside the
    model: the class could not tell such a result from an empty slot. *)
Class OnNone {T : Type} (func : T -> T -> T) : Type :=
  on_None : option T -> option T -> option T.

Section ResizableSegmentTree.

Context {T : Type}.

(** [self.func] *)
Variable func : T -> T -> T.
Context `{!OnNone func}.

(** [self.tree]: the slot buffer. *)
Abbreviation slots := (list (option T)).

(** A method body: it reads and writes [self.tree], and either returns a
    value or raises.  The buffer that comes back is the one the caller
    sees afterwards, also when an exception was raised half way. *)
Definition M (A : Type) : Type := slots -> outcome A * slots.

Definition ret {A} (a : A) : M A := fun t => (Ok a, t).

Definition raise {A} (e : error) : M A := fun t => (Raise e, t).

Definition bind {A B} (m : M A) (f : A -> M B) : M B :=
  fun t =>
    match m t with
    | (Ok a, t') => f a t'
    | (Raise e, t') => (Raise e, t')
    end.

Notation "x <- m ;; f" := (bind m (fun x => f))
  (at level 100, m at next level, right associativity).
Notation "m ;;; f" := (bind m (fun _ => f))
  (at level 100, right associativity).

(** *** Python list primitives *)

(** [len(tree)] *)
Definition list_len : M Z := fun t => (Ok (Z.of_nat (length t)), t).

(** Where subscript [x] lands in a list of length [n], if anywhere. *)
Definition subscript (n x : Z) : option nat :=
  if (0 <=? x) && (x <? n) then Some (Z.to_nat x)
  else if (- n <=? x) && (x <? 0) then Some (Z.to_nat (n + x))
  else None.

(** [tree[x]] *)
Definition list_getitem (x : Z) : M (option T) :=
  fun t =>
    match subscript (Z.of_nat (length t)) x with
    | Some i =>
        match t !! i with
        | Some v => (Ok v, t)
        | None => (Raise OutOfRange, t)
        end
    | None => (Raise OutOfRange, t)
    end.

(** [tree[x] = v] *)
Definition list_setitem (x : Z) (v : option T) : M unit :=
  fun t =>
    match subscript (Z.of_nat (length t)) x with
    | Some i => (Ok tt, <[i := v]> t)
    | None => (Raise OutOfRange, t)
    end.

(** [tree += more] *)
Definition list_extend (more : slots) : M unit :=
  fun t => (Ok tt, t ++ more).

(** [self.tree = fresh] *)
Definition list_assign (fresh : slots) : M unit :=
  fun _ => (Ok tt, fresh).

(** [func(a, b)] on two slot contents.  On two values it is [func]; on
    an operand that is [None] it is what [on_None] says of this
    operator: it raises, and [Raise AbsentOperand] records that [func]
    was applied to [None], or it returns a value and the method goes
    on. *)
Definition call (a b : option T) : M T :=
  match a, b with
  | Some x, Some y => ret (func x y)
  | _, _ =>
      match on_None a b with
      | Some v => ret v
      | None => raise AbsentOperand
      end
  end.

(** [assert b] *)
Definition assert (b : bool) (e : error) : M unit :=
  if b then ret tt else raise e.

(** *** Control structures *)

(** [while cond: body], with an iteration budget. *)
Fixpoint while {S} (fuel : nat) (cond : S -> M bool) (body : S -> M S)
    (s : S) : M S :=
  match fuel with
  | O => raise Diverged
  | Datatypes.S fuel' =>
      b <- cond s ;;
      if b : bool then s' <- body s ;; while fuel' cond body s'
      else ret s
  end.

(** Every loop of the class doubles [k] each round and stops, or raises,
    before [k] exceeds the buffer length; one round more than there are
    slots is a generous budget. *)
Definition budget {A} (m : nat -> M A) : M A :=
  fun t => m (Datatypes.S (length t)) t.

(** [for i, value in enumerate(values): body], counting from [i]. *)
Fixpoint for_enumerate {A} (i : Z) (values : list A)
    (body : Z -> A -> M unit) : M unit :=
  match values with
  | [] => ret tt
  | value :: rest => body i value ;;; for_enumerate (i + 1) rest body
  end.

(** ** The methods *)

(** One round of the loops of [__init__] and [__setitem__] differs only
    in the right operand; the state is the pair [(j, k)]. *)

(** The inner loop of [__init__]:
<<
    while j & (k<<1):  # is j a right child?
        p = j & ~k | (k<<1)  # calculate parent index
        tree[p] = func(tree[j & ~(k<<1)], tree[j])  # update parent
        j = p
        k <<= 1
>> *)
Definition init_cond (s : Z * Z) : M bool :=
  let '(j, k) := s in
  ret (negb (Z.land j (Z.shiftl k 1) =? 0)).

Definition init_body (s : Z * Z) : M (Z * Z) :=
  let '(j, k) := s in
  let p := Z.lor (Z.land j (Z.lnot k)) (Z.shiftl k 1) in
  a <- list_getitem (Z.land j (Z.lnot (Z.shiftl k 1))) ;;
  b <- list_getitem j ;;
  v <- call a b ;;
  list_setitem p (Some v) ;;;
  ret (p, Z.shiftl k 1).

(** The body of the [for] loop of [__init__]. *)
Definition init_step (i : Z) (value : T) : M unit :=
  let j := Z.lor (Z.shiftl i 1) 1 in
  list_setitem j (Some value) ;;;
  budget (fun fuel => while fuel init_cond init_body (j, 1)) ;;;
  ret tt.

(** [__init__(self, func, values)] *)
Definition init (values : list T) : M unit :=
  list_assign
    (replicate (Z.to_nat (Z.shiftl (Z.of_nat (length values)) 1)) None) ;;;
  for_enumerate 0 values init_step.

(** The loop of [__setitem__]:
<<
    while j | (k<<1) < len(tree):  # is the right child inside the tree?
        p = j & ~k | (k<<1)
        tree[p] = func(tree[j & ~(k<<1)], tree[j | (k<<1)])
        j = p
        k <<= 1
>> *)
Definition setitem_cond (s : Z * Z) : M bool :=
  let '(j, k) := s in
  n <- list_len ;;
  ret (Z.lor j (Z.shiftl k 1) <? n).

Definition setitem_body (s : Z * Z) : M (Z * Z) :=
  let '(j, k) := s in
  let p := Z.lor (Z.land j (Z.lnot k)) (Z.shiftl k 1) in
  a <- list_getitem (Z.land j (Z.lnot (Z.shiftl k 1))) ;;
  b <- list_getitem (Z.lor j (Z.shiftl k 1)) ;;
  v <- call a b ;;
  list_setitem p (Some v) ;;;
  ret (p, Z.shiftl k 1).

(** [__setitem__(self, i, value)] *)
Definition setitem (i : Z) (value : T) : M unit :=
  let j := Z.lor (Z.shiftl i 1) 1 in
  list_setitem j (Some value) ;;;
  budget (fun fuel => while fuel setitem_cond setitem_body (j, 1)) ;;;
  ret tt.

(** [__getitem__(self, i)]: the content of the slot, as it is. *)
Definition getitem (i : Z) : M (option T) :=
  list_getitem (Z.lor (Z.shiftl i 1) 1).

(** [__len__(self)] *)
Definition len : M Z :=
  n <- list_len ;;
  ret (Z.shiftr n 1).

(** [append(self, value)] *)
Definition append (value : T) : M unit :=
  n <- list_len ;;
  let i := Z.shiftr n 1 in
  list_extend [None; None] ;;;
  setitem i value.

(** The local variables of the loop of [query]. *)
Record qstate : Type := QState {
  q_i : Z;
  q_j : Z;
  q_left : option T;
  q_right : option T;
  q_k : Z
}.

Definition query_cond (s : qstate) : M bool :=
  ret (q_i s <? q_j s).

(** One round of
<<
    while i < j:
        if i & (k<<1):
            if left is None:
                left = tree[i]
            else:
                left = func(left, tree[i])
            i += k<<1
        if j & (k<<1):
            j -= k<<1
            if right is None:
                right = tree[j]
            else:
                right = func(tree[j], right)
        i = i & ~k | (k<<1)
        j = j & ~k | (k<<1)
        k <<= 1
>>
    in three parts: the first [if], which yields the new [i] and [left],
    the second [if], which yields the new [j] and [right], and the round
    as a whole. *)
Definition query_left (i : Z) (acc : option T) (k : Z) : M (Z * option T) :=
  if negb (Z.land i (Z.shiftl k 1) =? 0) then
    acc' <- match acc with
            | None => list_getitem i
            | Some _ =>
                x <- list_getitem i ;;
                v <- call acc x ;;
                ret (Some v)
            end ;;
    ret (i + Z.shiftl k 1, acc')
  else ret (i, acc).

Definition query_right (j : Z) (acc : option T) (k : Z) : M (Z * option T) :=
  if negb (Z.land j (Z.shiftl k 1) =? 0) then
    let j := j - Z.shiftl k 1 in
    acc' <- match acc with
            | None => list_getitem j
            | Some _ =>
                x <- list_getitem j ;;
                v <- call x acc ;;
                ret (Some v)
            end ;;
    ret (j, acc')
  else ret (j, acc).

Definition query_body (s : qstate) : M qstate :=
  let k := q_k s in
  il <- query_left (q_i s) (q_left s) k ;;
  jr <- query_right (q_j s) (q_right s) k ;;
  ret (QState (Z.lor (Z.land (fst il) (Z.lnot k)) (Z.shiftl k 1))
              (Z.lor (Z.land (fst jr) (Z.lnot k)) (Z.shiftl k 1))
              (snd il) (snd jr) (Z.shiftl k 1)).

(** The three argument assertions of [query]. *)
Definition query_asserts (i j : Z) : M unit :=
  n <- len ;;
  assert ((0 <=? i) && (i <? n)) InvalidRange ;;;
  n <- len ;;
  assert ((0 <? j) && (j <=? n)) InvalidRange ;;;
  assert (i <? j) InvalidRange.

(** The loop of [query], from the argument assertions on. *)
Definition query_loop (i j : Z) : M qstate :=
  query_asserts i j ;;;
  let i := Z.lor (Z.shiftl i 1) 1 in
  let j := Z.lor (Z.shiftl j 1) 1 in
  budget (fun fuel =>
    while fuel query_cond query_body (QState i j None None 1)).

(** [query(self, i, j)] *)
Definition query (i j : Z) : M T :=
  s <- query_loop i j ;;
  match q_left s, q_right s with
  | None, None => raise InvariantViolation
  | None, Some r => ret r
  | Some l, None => ret l
  | Some l, Some r => ret (func l r)
  end.

End ResizableSegmentTree.

(** ** The tree shape *)

(** [pow2 h] is the value of [k] after [h] rounds of [k <<= 1]. *)
Definition pow2 (h : nat) : Z := 2 ^ Z.of_nat h.

(** The coordinate of the [a]-th node of height [h]: the odd multiples of
    [pow2 h].  Its children are the nodes [2a] and [2a+1] of height
    [h - 1], and it spans the leaves [a * pow2 h .. (a+1) * pow2 h - 1]. *)
Definition coord (h : nat) (a : Z) : Z := pow2 h * (2 * a + 1).

(** [i & -i], the lowest set bit, as in [_format]. *)
Definition lowbit (c : Z) : Z := Z.land c (- c).

Section Abstraction.

Context {T : Type}.
Variable func : T -> T -> T.
Context `{!OnNone func}.

Abbreviation slots := (list (option T)).

(** The element count [len(tree) >> 1] of a buffer. *)
Definition size (t : slots) : Z := Z.shiftr (Z.of_nat (length t)) 1.

(** The logical sequence, read at an integer position. *)
Definition zlookup (vs : list T) (a : Z) : option T :=
  if 0 <=? a then vs !! Z.to_nat a else None.

(** The aggregate the node [(h, a)] should hold over the values [vs]:
    [func] of its two children, and nothing as long as one of its leaves
    is missing. *)
Fixpoint val (vs : list T) (h : nat) (a : Z) : option T :=
  match h with
  | O => zlookup vs a
  | S h' =>
      match val vs h' (2 * a), val vs h' (2 * a + 1) with
      | Some x, Some y => Some (func x y)
      | _, _ => None
      end
  end.

(** The values at positions [lo .. hi - 1]. *)
Definition slice (vs : list T) (lo hi : Z) : list T :=
  take (Z.to_nat (hi - lo)) (drop (Z.to_nat lo) vs).

(** The left-to-right fold of a list, absent for the empty list. *)
Definition fold1 (l : list T) : option T :=
  match l with
  | [] => None
  | x :: l' => Some (fold_left func l' x)
  end.

(** What [query] makes of its two accumulators. *)
Definition join (l r : option T) : option T :=
  match l, r with
  | None, _ => r
  | Some _, None => l
  | Some x, Some y => Some (func x y)
  end.

(** [built vs t]: the buffer [t] holds the forest over the values [vs];
    the buffer may be longer than the values need (as it is inside
    [__init__]), and then the slots beyond are [None]. *)
Definition built (vs : list T) (t : slots) : Prop :=
  (exists N : nat, length t = (2 * N)%nat /\ (length vs <= N)%nat) /\
  (forall x, t !! 0%nat = Some x -> x = None) /\
  (forall h a, 0 <= a -> coord h a < Z.of_nat (length t) ->
     t !! Z.to_nat (coord h a) = Some (val vs h a)).

(** The invariant of the class between two calls. *)
Definition Inv (vs : list T) (t : slots) : Prop :=
  built vs t /\ length t = (2 * length vs)%nat.

(** The state inside a climb from leaf [i] that has reached height [h]:
    everything is as in [built], except that the ancestors above height
    [h] are still to be written. *)
Definition climbing (vs : list T) (i : Z) (h : nat) (t : slots) : Prop :=
  (exists N : nat, length t = (2 * N)%nat /\ (length vs <= N)%nat) /\
  (forall x, t !! 0%nat = Some x -> x = None) /\
  (forall h' a, 0 <= a -> coord h' a < Z.of_nat (length t) ->
     ((h < h')%nat /\ a = i / pow2 h' ->
        is_Some (t !! Z.to_nat (coord h' a)) /\
        (val vs h' a = None -> t !! Z.to_nat (coord h' a) = Some None)) /\
     (~ ((h < h')%nat /\ a = i / pow2 h') ->
        t !! Z.to_nat (coord h' a) = Some (val vs h' a))).

(** The specification of [query] in the words of the spec: fold
    [get(i)], [get(i+1)], ..., [get(j-1)] from left to right. *)
Fixpoint fold_get (acc : T) (i : Z) (count : nat) : M T :=
  match count with
  | O => ret acc
  | S count' =>
      bind (getitem i) (fun x =>
      bind (call func (Some acc) x) (fun acc' =>
      fold_get acc' (i + 1) count'))
  end.

Definition naive_query (i j : Z) : M T :=
  bind (getitem i) (fun x =>
  match x with
  | Some acc => fold_get acc (i + 1) (Z.to_nat (j - i - 1))
  | None => raise AbsentOperand
  end).

(** An operator that raises on every absent operand, as the [+] of
    integers and of lists does. *)
Definition strict : Prop := forall a b : option T, on_None a b = None.

(** The buffers a caller can hold: built by the constructor and then
    used through the public methods with any arguments at all, whether
    a call returned or raised. *)
Inductive reachable : slots -> Prop :=
  | reach_init values :
      reachable (snd (init func values []))
  | reach_setitem t i value :
      reachable t ->
      reachable (snd (setitem func i value t))
  | reach_append t value :
      reachable t -> reachable (snd (append func value t))
  | reach_getitem t i :
      reachable t -> reachable (snd (getitem i t))
  | reach_query t i j :
      reachable t -> reachable (snd (query func i j t))
  | reach_len t :
      reachable t -> reachable (snd (len t)).

End Abstraction.

Section LoopInvariants.

Context {T : Type}.
Variable func : T -> T -> T.
Context `{!OnNone func}.
Abbreviation slots := (list (option T)).

(** What the loop of [__setitem__] leaves behind: the forest over the
    new values, and the error of [func] on an absent operand as the only
    way to fail, which the last leaf never meets. *)
Definition setitem_post (vs : list T) (i : Z)
    (rt : outcome (Z * Z) * slots) : Prop :=
  built func vs (snd rt) /\ length (snd rt) = (2 * length vs)%nat /\
  ((exists s, fst rt = Ok s) \/
   (fst rt = Raise AbsentOperand /\ i + 1 <> Z.of_nat (length vs))).

(** The loop of [__setitem__] with [n] rounds left at most. *)
Definition setitem_inv (vs : list T) (i : Z) (n : nat) (s : Z * Z)
    (t : slots) : Prop :=
  exists h : nat,
    s = (coord h (i / pow2 h), pow2 h) /\
    climbing func vs i h t /\
    length t = (2 * length vs)%nat /\
    n = (length t - h)%nat /\
    (i + 1 = Z.of_nat (length vs) -> is_Some (val func vs h (i / pow2 h))).

(** What the inner loop of [__init__] leaves behind. *)
Definition init_post (vs : list T) (len0 : nat)
    (rt : outcome (Z * Z) * slots) : Prop :=
  built func vs (snd rt) /\ length (snd rt) = len0 /\ exists s, fst rt = Ok s.

(** The inner loop of [__init__] with [n] rounds left at most; the node
    it stands on is complete. *)
Definition init_inv (vs : list T) (i : Z) (len0 : nat) (n : nat) (s : Z * Z)
    (t : slots) : Prop :=
  exists h : nat,
    s = (coord h (i / pow2 h), pow2 h) /\
    climbing func vs i h t /\
    length t = len0 /\
    n = (length t - h)%nat /\
    is_Some (val func vs h (i / pow2 h)).

(** An accumulator of [query] that stands for the values [lo .. hi - 1]. *)
Definition accum (vs : list T) (lo hi : Z) (acc : option T) : Prop :=
  (lo = hi -> acc = None) /\
  (lo < hi -> is_Some acc) /\
  (Assoc (=) func -> acc = fold1 func (slice vs lo hi)).

(** The loop of [query] with [n] rounds left at most. *)
Definition query_inv (vs : list T) (t0 : slots) (i0 j0 : Z) (n : nat)
    (s : qstate) (t : slots) : Prop :=
  t = t0 /\
  exists (h : nat) (a b : Z),
    q_i s = coord h a /\ q_j s = coord h b /\ q_k s = pow2 h /\
    a <= b /\ i0 <= a * pow2 h /\ b * pow2 h <= j0 /\
    accum vs i0 (a * pow2 h) (q_left s) /\
    accum vs (b * pow2 h) j0 (q_right s) /\
    n = (length t - h)%nat.

(** What the loop of [query] leaves behind. *)
Definition query_post (vs : list T) (t0 : slots) (i0 j0 : Z)
    (rt : outcome qstate * slots) : Prop :=
  snd rt = t0 /\
  exists s m, fst rt = Ok s /\ i0 <= m <= j0 /\
    accum vs i0 m (q_left s) /\ accum vs m j0 (q_right s).

(** The loop of [__setitem__] on any buffer at all: [(j, k)] stays a
    node and its height, and [n] rounds are left at most. *)
Definition climb_inv (len0 : nat) (n : nat) (s : Z * Z) (t : slots) : Prop :=
  exists (h : nat) (a : Z),
    s = (coord h a, pow2 h) /\ length t = len0 /\ n = (len0 - h)%nat.

(** The loop of [query] on any buffer at all, past the assertions. *)
Definition span_inv (t0 : slots) (n : nat) (s : @qstate T) (t : slots) :
    Prop :=
  t = t0 /\
  exists (h : nat) (a b : Z),
    q_i s = coord h a /\ q_j s = coord h b /\ q_k s = pow2 h /\
    0 <= a <= b /\ b * pow2 h <= size t /\
    n = (length t - h)%nat.

End LoopInvariants.

(** ** Concrete runs *)

(** Integer addition and list concatenation raise a [TypeError] on
    [None]. *)
#[global] Instance add_on_None : OnNone Z.add := fun _ _ => None.

#[global] Instance app_on_None : OnNone (@app Z) := fun _ _ => None.

(** [lambda a, b: max(a or 0, b or 0)] is [max] on two integers and
    takes [None] for 0. *)
#[global] Instance max_on_None : OnNone Z.max :=
  fun a b => Some (Z.max (default 0 a) (default 0 b)).

(** The scenario of the spec: integer addition over [1..6], then
    [append(7)]. *)
Definition scenario_six : list (option Z) :=
  snd (init Z.add [1; 2; 3; 4; 5; 6] []).

Definition scenario_seven : list (option Z) :=
  snd (append Z.add 7 scenario_six).

(** Seven values from the constructor, five values, one value. *)
Definition built_seven : list (option Z) :=
  snd (init Z.add [1; 2; 3; 4; 5; 6; 7] []).

Definition built_five : list (option Z) :=
  snd (init Z.add [1; 2; 3; 4; 5] []).

Definition built_one : list (option Z) :=
  snd (init Z.add [7] []).

(** Three one-letter words under concatenation, which is associative and
    not commutative. *)
Definition words : list (option (list Z)) :=
  snd (init (@app Z) [[1]; [2]; [3]] []).

(** What [set(-1, 9)] leaves of the buffer of five values when it
    raises. *)
Definition after_failed_set : list (option Z) :=
  snd (setitem Z.add (-1) 9 built_five).

(** ** A caller that appends one value after the other *)

Section Callers.

Context {T : Type}.
Variable func : T -> T -> T.
Context `{!OnNone func}.

(** [for value in values: t.append(value)], as the script of the module
    does with 7, 8, 9 and 10. *)
Fixpoint append_all (values : list T) : M unit :=
  match values with
  | [] => ret tt
  | value :: rest => bind (append func value) (fun _ => append_all rest)
  end.

End Callers.

(** ** [_format] *)

(** [x.bit_length()] *)
Definition bit_length (x : Z) : Z :=
  if x =? 0 then 0 else Z.log2 (Z.abs x) + 1.

Section Format.

Context {T : Type}.
Abbreviation slots := (list (option T)).
Abbreviation rows := (list (list (option T))).

(** [tree[x]] on a list that is a plain value. *)
Definition subscript_get {A} (l : list A) (x : Z) : outcome A :=
  match subscript (Z.of_nat (length l)) x with
  | Some i =>
      match l !! i with
      | Some v => Ok v
      | None => Raise OutOfRange
      end
  | None => Raise OutOfRange
  end.

(** One round of
<<
    for i in range(1, len(tree)):
        out[(i&-i).bit_length() - 1].append(tree[i])
        if out[-1]:
            out.append([])
>>
    The subscript [out[...]] is evaluated before the argument [tree[i]];
    [out[-1]] is read after the append.  The rows of [out] are separate
    lists, so appending to one changes no other. *)
Definition format_step (tree : slots) (out : rows) (i : Z) : outcome rows :=
  let level := bit_length (Z.land i (- i)) - 1 in
  match subscript (Z.of_nat (length out)) level with
  | None => Raise OutOfRange
  | Some l =>
      match out !! l with
      | None => Raise OutOfRange
      | Some row =>
          match subscript_get tree i with
          | Raise e => Raise e
          | Ok x =>
              let out := <[l := row ++ [x]]> out in
              match subscript_get out (-1) with
              | Raise e => Raise e
              | Ok [] => Ok out
              | Ok (_ :: _) => Ok (out ++ [[]])
              end
          end
      end
  end.

(** The [for] loop over a range given as a list. *)
Fixpoint format_loop (tree : slots) (out : rows) (range : list Z) :
    outcome rows :=
  match range with
  | [] => Ok out
  | i :: rest =>
      match format_step tree out i with
      | Ok out' => format_loop tree out' rest
      | Raise e => Raise e
      end
  end.

(** [range(lo, hi)] *)
Definition range (lo hi : Z) : list Z :=
  map (fun d => lo + Z.of_nat d) (seq 0 (Z.to_nat (hi - lo))).

(** [_format(tree)]; [out.pop()] raises on an empty list. *)
Definition format (tree : slots) : outcome rows :=
  match format_loop tree [[]] (range 1 (Z.of_nat (length tree))) with
  | Raise e => Raise e
  | Ok out =>
      match out with
      | [] => Raise OutOfRange
      | _ :: _ => Ok (removelast out)
      end
  end.

(** [out] after the coordinates below [m]: row [h] holds the slots at
    the odd multiples of [pow2 h] below [m], one row per height in use
    and an empty one on top. *)
Definition format_inv (tree : slots) (m : Z) (out : rows) : Prop :=
  (exists K : nat, length out = S K /\ m <= pow2 K /\
     (K = O \/ pow2 (K - 1) < m)) /\
  (forall (h : nat) row, out !! h = Some row ->
     forall a : nat,
       row !! a = if coord h (Z.of_nat a) <? m
                  then tree !! Z.to_nat (coord h (Z.of_nat a)) else None).

End Format.

(** ** When [__setitem__] meets an absent operand *)

(** The node at height [h] above leaf [i] is a left child, the
    coordinate of its right sibling is inside a buffer of [n] elements,
    and the subtree of that sibling is not: its last leaf is missing. *)
Definition sibling_gap (n i : Z) (h : nat) : Prop :=
  Z.even (i / pow2 h) = true /\
  coord h (i / pow2 h + 1) < 2 * n /\
  2 * n < coord h (i / pow2 h + 1) + pow2 h.

Section MoreLoopInvariants.

Context {T : Type}.
Variable func : T -> T -> T.
Context `{!OnNone func}.
Abbreviation slots := (list (option T)).



(** The loop of [__setitem__] from a leaf with a negative subscript, on
    any buffer at all: the coordinate stays negative. *)
Definition negative_inv (len0 : nat) (n : nat) (s : Z * Z) (t : slots) :
    Prop :=
  exists (h : nat) (a : Z),
    s = (coord h a, pow2 h) /\ a < 0 /\
    length t = len0 /\ n = (len0 - h)%nat.

Definition raises_for_sure {A} (rt : outcome A * slots) : Prop :=
  fst rt = Raise OutOfRange \/ fst rt = Raise AbsentOperand.

End MoreLoopInvariants.

(** ** The shape of a buffer, whatever its slots hold *)

Section Shape.

Context {T : Type}.
Variable func : T -> T -> T.
Context `{!OnNone func}.
Abbreviation slots := (list (option T)).

(** The value in the slot of the node [(h, a)], if the slot is there and
    is not [None]. *)
Definition stored (t : slots) (h : nat) (a : Z) : option T :=
  match t !! Z.to_nat (coord h a) with
  | Some (Some x) => Some x
  | _ => None
  end.

(** What every reachable buffer satisfies: an even number of slots,
    [None] in slot 0, and a value in every slot whose subtree is
    complete, the last coordinate of the subtree of [(h, a)] being
    [coord h a + pow2 h - 1].  Which value it is, and what the other
    slots hold, is left open. *)
Definition present (t : slots) : Prop :=
  (exists N : nat, length t = (2 * N)%nat) /\
  (forall x, t !! 0%nat = Some x -> x = None) /\
  (forall h a, 0 <= a -> coord h a + pow2 h <= Z.of_nat (length t) ->
     is_Some (stored t h a)).

(** [grown t0 t]: as many slots, slot 0 as it was, and a value wherever
    [t0] has one. *)
Definition grown (t0 t : slots) : Prop :=
  length t = length t0 /\
  t !! 0%nat = t0 !! 0%nat /\
  (forall c x, t0 !! c = Some (Some x) -> exists y, t !! c = Some (Some y)).

(** What a round of the loop of [query] reads at the two ends of the
    nodes [a .. b - 1] of height [h]: the first node when it is a right
    child, the last node when it is a left child. *)
Definition lead (t : slots) (h : nat) (a : Z) : option T :=
  if Z.odd a then stored t h a else None.

Definition trail (t : slots) (h : nat) (b : Z) : option T :=
  if Z.odd b then stored t h (b - 1) else None.

(** What the loop of [query] makes of the nodes [a .. b - 1] of height
    [h], read off the slots as they are: the nodes at the two ends, with
    the result for the parents [(a + 1) / 2 .. b / 2 - 1] in between. *)
Fixpoint span (t : slots) (rounds : nat) (h : nat) (a b : Z) : option T :=
  match rounds with
  | O => None
  | S rounds' =>
      if a <? b then
        join func
          (join func (lead t h a)
             (span t rounds' (S h) ((a + 1) / 2) (b / 2)))
          (trail t h b)
      else None
  end.

(** There are fewer rounds than nodes. *)
Definition cover (t : slots) (h : nat) (a b : Z) : option T :=
  span t (Z.to_nat (b - a)) h a b.

(** The loop of [query] on a buffer with all complete nodes present,
    with [n] rounds left at most: an accumulator holds a value as soon
    as its end of the range has moved, and, for an associative [func],
    what is accumulated and what is still to be read make up the
    whole. *)
Definition cover_inv (t0 : slots) (i0 j0 : Z) (n : nat) (s : qstate)
    (t : slots) : Prop :=
  t = t0 /\
  exists (h : nat) (a b : Z),
    q_i s = coord h a /\ q_j s = coord h b /\ q_k s = pow2 h /\
    0 <= a <= b /\ i0 <= a * pow2 h /\ b * pow2 h <= j0 /\
    (i0 < a * pow2 h -> is_Some (q_left s)) /\
    (b * pow2 h < j0 -> is_Some (q_right s)) /\
    (Assoc (=) func ->
       join func (join func (q_left s) (cover t h a b)) (q_right s)
       = cover t 0 i0 j0) /\
    n = (length t - h)%nat.

Definition cover_post (t0 : slots) (i0 j0 : Z)
    (rt : outcome qstate * slots) : Prop :=
  snd rt = t0 /\
  exists s, fst rt = Ok s /\
    (is_Some (q_left s) \/ is_Some (q_right s)) /\
    (Assoc (=) func ->
       join func (q_left s) (q_right s) = cover t0 0 i0 j0).

(** The loop of [__setitem__] on any buffer and from any leaf: nothing
    that held a value is lost, and slot 0 is not written. *)
Definition grown_inv (t0 : slots) (n : nat) (s : Z * Z) (t : slots) : Prop :=
  exists (h : nat) (a : Z),
    s = (coord h a, pow2 h) /\ grown t0 t /\ n = (length t0 - h)%nat.

(** The climb of [append] on a buffer of [n] elements has passed height
    [h]: the parent of the last node of that height is [func] of the
    node to its left, as it was, and of that last node. *)
Definition linked (t t' : slots) (n : Z) (h : nat) : Prop :=
  exists l x,
    stored t h (n / pow2 h - 1) = Some l /\
    stored t' h (n / pow2 h) = Some x /\
    stored t' (S h) (n / pow2 (S h)) = Some (func l x).

(** What [append(v)] makes of a buffer [t]: two more slots, [v] in the
    new leaf, every complete node as it was, and the nodes above the new
    leaf that have become complete linked to their children. *)
Definition appended (t : slots) (v : T) (t' : slots) : Prop :=
  let n := size t in
  length t' = (length t + 2)%nat /\
  (forall x, t' !! 0%nat = Some x -> x = None) /\
  stored t' 0 n = Some v /\
  (forall h a, 0 <= a -> (a + 1) * pow2 h <= n ->
     t' !! Z.to_nat (coord h a) = t !! Z.to_nat (coord h a)) /\
  (forall h, (n / pow2 h + 1) * pow2 h = n + 1 ->
     Z.odd (n / pow2 h) = true -> linked t t' n h).

(** The loop of [append] with [m] rounds left at most. *)
Definition spine_inv (t : slots) (v : T) (m : nat) (s : Z * Z)
    (tc : slots) : Prop :=
  let n := size t in
  exists h : nat,
    s = (coord h (n / pow2 h), pow2 h) /\
    (n / pow2 h + 1) * pow2 h = n + 1 /\
    length tc = (length t + 2)%nat /\
    m = (length tc - h)%nat /\
    (forall x, tc !! 0%nat = Some x -> x = None) /\
    is_Some (stored tc h (n / pow2 h)) /\
    stored tc 0 n = Some v /\
    (forall h' a, 0 <= a -> (a + 1) * pow2 h' <= n ->
       tc !! Z.to_nat (coord h' a) = t !! Z.to_nat (coord h' a)) /\
    (forall h', (h' < h)%nat -> linked t tc n h').

Definition spine_post (t : slots) (v : T)
    (rt : outcome (Z * Z) * slots) : Prop :=
  (exists s, fst rt = Ok s) /\ appended t v (snd rt).

(** The climb of [__setitem__] from leaf [i] has passed height [h]: the
    ancestor of height [h + 1] is [func] of its two children. *)
Definition joined (t' : slots) (i : Z) (h : nat) : Prop :=
  exists l r,
    stored t' h (2 * (i / pow2 (S h))) = Some l /\
    stored t' h (2 * (i / pow2 (S h)) + 1) = Some r /\
    stored t' (S h) (i / pow2 (S h)) = Some (func l r).

(** What [set(i, v)] inside the range makes of a buffer [t], whether it
    returns or stops on an absent operand: [v] in leaf [i], every slot
    that is not an ancestor of that leaf as it was, and every ancestor
    whose subtree is complete joined to its children. *)
Definition updated (t : slots) (i : Z) (v : T) (t' : slots) : Prop :=
  length t' = length t /\
  t' !! 0%nat = t !! 0%nat /\
  stored t' 0 i = Some v /\
  (forall h a, 0 <= a -> a <> i / pow2 h ->
     t' !! Z.to_nat (coord h a) = t !! Z.to_nat (coord h a)) /\
  (forall h, (i / pow2 (S h) + 1) * pow2 (S h) <= size t -> joined t' i h).

(** The loop of [__setitem__] from a leaf inside the range, with [m]
    rounds left at most. *)
Definition path_inv (t : slots) (i : Z) (v : T) (m : nat) (s : Z * Z)
    (tc : slots) : Prop :=
  exists h : nat,
    s = (coord h (i / pow2 h), pow2 h) /\
    length tc = length t /\
    m = (length tc - h)%nat /\
    tc !! 0%nat = t !! 0%nat /\
    is_Some (stored tc h (i / pow2 h)) /\
    stored tc 0 i = Some v /\
    (forall h' a, 0 <= a -> a <> i / pow2 h' ->
       tc !! Z.to_nat (coord h' a) = t !! Z.to_nat (coord h' a)) /\
    (forall h', (h' < h)%nat ->
       (i / pow2 (S h') + 1) * pow2 (S h') <= size t -> joined tc i h').

(** It returns, or [func] raises where a sibling is [None]; that
    sibling is a gap. *)
Definition path_post (t : slots) (i : Z) (v : T)
    (rt : outcome (Z * Z) * slots) : Prop :=
  updated t i v (snd rt) /\
  ((exists s, fst rt = Ok s) \/
   (fst rt = Raise AbsentOperand /\ exists h, sibling_gap (size t) i h)).

End Shape.

(** * Proofs *)

(** ** Bit arithmetic *)

Lemma pow2_pos h : 0 < pow2 h.
Proof. unfold pow2. apply Z.pow_pos_nonneg; lia. Qed.

Lemma pow2_S h : pow2 (S h) = 2 * pow2 h.
Proof. unfold pow2. rewrite Nat2Z.inj_succ, Z.pow_succ_r; lia. Qed.

Lemma pow2_add h d : pow2 (h + d) = pow2 h * pow2 d.
Proof.
  unfold pow2. rewrite Nat2Z.inj_add, Z.pow_add_r by lia. reflexivity.
Qed.

Lemma shiftl_pow2 h : Z.shiftl (pow2 h) 1 = pow2 (S h).
Proof. rewrite Z.shiftl_mul_pow2, pow2_S by lia. lia. Qed.

Lemma land_bit x m :
  0 <= m -> Z.land x (2 ^ m) = if Z.testbit x m then 2 ^ m else 0.
Proof.
  intros Hm. apply Z.bits_inj'. intros n Hn.
  rewrite Z.land_spec, Z.pow2_bits_eqb by lia.
  destruct (Z.eqb_spec m n) as [->|Hne].
  - destruct (Z.testbit x n); simpl.
    + now rewrite Z.pow2_bits_true.
    + now rewrite Z.bits_0.
  - rewrite andb_false_r. destruct (Z.testbit x m).
    + now rewrite Z.pow2_bits_false.
    + now rewrite Z.bits_0.
Qed.

Lemma lor_bit x m :
  0 <= m -> Z.lor x (2 ^ m) = if Z.testbit x m then x else x + 2 ^ m.
Proof.
  intros Hm. destruct (Z.testbit x m) eqn:Hb.
  - apply Z.bits_inj'. intros n Hn.
    rewrite Z.lor_spec, Z.pow2_bits_eqb by lia.
    destruct (Z.eqb_spec m n) as [->|Hne].
    + now rewrite Hb.
    + now rewrite orb_false_r.
  - assert (Z.land x (2 ^ m) = 0) as H0 by (rewrite land_bit, Hb; auto).
    rewrite Z.add_nocarry_lxor by exact H0. symmetry. now apply Z.lxor_lor.
Qed.

Lemma clear_bit x m :
  0 <= m ->
  Z.land x (Z.lnot (2 ^ m)) = if Z.testbit x m then x - 2 ^ m else x.
Proof.
  intros Hm.
  assert (Z.testbit (Z.land x (Z.lnot (2 ^ m))) m = false) as Hc.
  { rewrite Z.land_spec, Z.lnot_spec, Z.pow2_bits_true by lia.
    apply andb_false_r. }
  assert (Z.lor (Z.land x (Z.lnot (2 ^ m))) (2 ^ m) = Z.lor x (2 ^ m)) as Hl.
  { apply Z.bits_inj'. intros n Hn.
    rewrite !Z.lor_spec, Z.land_spec, Z.lnot_spec, Z.pow2_bits_eqb by lia.
    destruct (Z.eqb_spec m n); simpl.
    - now rewrite !orb_true_r.
    - now rewrite andb_true_r. }
  rewrite !lor_bit, Hc in Hl by lia.
  destruct (Z.testbit x m) eqn:Hb; [lia|].
  apply Z.bits_inj'. intros n Hn.
  rewrite Z.land_spec, Z.lnot_spec, Z.pow2_bits_eqb by lia.
  destruct (Z.eqb_spec m n) as [->|]; simpl.
  - now rewrite Hb.
  - now rewrite andb_true_r.
Qed.

Lemma coord_bit_low h a : Z.testbit (coord h a) (Z.of_nat h) = true.
Proof.
  unfold coord, pow2. rewrite Z.mul_comm, Z.mul_pow2_bits by lia.
  rewrite Z.sub_diag. apply Z.testbit_odd_0.
Qed.

Lemma coord_bit_next h a :
  Z.testbit (coord h a) (Z.of_nat (S h)) = Z.odd a.
Proof.
  unfold coord, pow2. rewrite Z.mul_comm, Z.mul_pow2_bits by lia.
  replace (Z.of_nat (S h) - Z.of_nat h) with (Z.succ 0) by lia.
  rewrite Z.testbit_odd_succ by lia. apply Z.bit0_odd.
Qed.

Lemma odd_div2 a : a = 2 * (a / 2) + (if Z.odd a then 1 else 0).
Proof.
  rewrite <- Z.div2_div. pose proof (Z.div2_odd a) as H.
  destruct (Z.odd a); simpl in H; lia.
Qed.

(** Navigation: what the bit operations of the climbs compute. *)
Lemma leaf_coord i : Z.lor (Z.shiftl i 1) 1 = coord 0 i.
Proof.
  unfold coord, pow2. rewrite Z.shiftl_mul_pow2 by lia.
  change 1 with (2 ^ 0) at 2. rewrite lor_bit by lia.
  replace (i * 2 ^ 1) with (2 * i) by lia. rewrite Z.testbit_even_0.
  simpl. lia.
Qed.

Lemma is_right_child h a :
  negb (Z.land (coord h a) (Z.shiftl (pow2 h) 1) =? 0) = Z.odd a.
Proof.
  rewrite shiftl_pow2. unfold pow2 at 1. rewrite land_bit by lia.
  rewrite coord_bit_next. pose proof (pow2_pos (S h)). unfold pow2 in *.
  destruct (Z.odd a); simpl; [|reflexivity].
  destruct (Z.eqb_spec (2 ^ Z.of_nat (S h)) 0); [lia|reflexivity].
Qed.

Lemma left_coord h a :
  Z.land (coord h a) (Z.lnot (Z.shiftl (pow2 h) 1)) = coord h (2 * (a / 2)).
Proof.
  rewrite shiftl_pow2. unfold pow2 at 1. rewrite clear_bit by lia.
  rewrite coord_bit_next. fold (pow2 (S h)). rewrite pow2_S.
  pose proof (odd_div2 a). unfold coord.
  destruct (Z.odd a); nia.
Qed.

Lemma right_coord h a :
  Z.lor (coord h a) (Z.shiftl (pow2 h) 1) = coord h (2 * (a / 2) + 1).
Proof.
  rewrite shiftl_pow2. unfold pow2 at 1. rewrite lor_bit by lia.
  rewrite coord_bit_next. fold (pow2 (S h)). rewrite pow2_S.
  pose proof (odd_div2 a). unfold coord.
  destruct (Z.odd a); nia.
Qed.

Lemma parent_coord h a :
  Z.lor (Z.land (coord h a) (Z.lnot (pow2 h))) (Z.shiftl (pow2 h) 1)
  = coord (S h) (a / 2).
Proof.
  unfold pow2 at 1. rewrite clear_bit, coord_bit_low by lia.
  fold (pow2 h). rewrite shiftl_pow2.
  replace (coord h a - pow2 h) with (a * pow2 (S h))
    by (rewrite pow2_S; unfold coord; lia).
  unfold pow2 at 2. rewrite lor_bit by lia.
  unfold pow2 at 1. rewrite Z.mul_pow2_bits, Z.sub_diag, Z.bit0_odd by lia.
  fold (pow2 (S h)). pose proof (odd_div2 a). unfold coord.
  destruct (Z.odd a); nia.
Qed.

Lemma pow2_gt h : Z.of_nat h < pow2 h.
Proof. unfold pow2. apply Z.pow_gt_lin_r; lia. Qed.

Lemma coord_pos h a : 0 <= a -> pow2 h <= coord h a.
Proof. intros Ha. pose proof (pow2_pos h). unfold coord. nia. Qed.

Lemma coord_S h a : coord (S h) a = 2 * coord h a.
Proof. unfold coord. rewrite pow2_S. lia. Qed.

Lemma coord_inj h a h' a' : coord h a = coord h' a' -> h = h' /\ a = a'.
Proof.
  revert h'. induction h as [|h IH]; intros [|h'] E.
  - unfold coord, pow2 in E. simpl in E. split; [reflexivity | lia].
  - rewrite coord_S in E. unfold coord at 1, pow2 in E. simpl in E. lia.
  - rewrite coord_S in E. unfold coord at 2, pow2 in E. simpl in E. lia.
  - rewrite !coord_S in E. destruct (IH h') as [-> ->]; [lia | auto].
Qed.

Lemma coord_decompose c : 0 < c -> exists h a, 0 <= a /\ c = coord h a.
Proof.
  intros Hc. assert (0 <= c) as Hc0 by lia. revert Hc.
  pattern c. apply Zlt_0_ind; [ | exact Hc0 ].
  clear c Hc0. intros c IH _ Hc.
  destruct (Z.odd c) eqn:Hodd.
  - exists O, (c / 2). pose proof (odd_div2 c) as E. rewrite Hodd in E.
    unfold coord, pow2. simpl. lia.
  - pose proof (odd_div2 c) as E. rewrite Hodd in E.
    destruct (IH (c / 2)) as (h & a & Ha & Hq); [lia | lia | ].
    exists (S h), a. rewrite coord_S. lia.
Qed.

Lemma lowbit_coord h a : lowbit (coord h a) = pow2 h.
Proof.
  unfold lowbit.
  replace (- coord h a) with (Z.shiftl (2 * Z.lnot a + 1) (Z.of_nat h)).
  2:{ rewrite Z.shiftl_mul_pow2 by lia. unfold Z.lnot, coord, pow2. lia. }
  replace (coord h a) with (Z.shiftl (2 * a + 1) (Z.of_nat h)).
  2:{ rewrite Z.shiftl_mul_pow2 by lia. unfold coord, pow2. lia. }
  rewrite <- Z.shiftl_land.
  replace (Z.land (2 * a + 1) (2 * Z.lnot a + 1)) with 1.
  - rewrite Z.shiftl_mul_pow2 by lia. unfold pow2. lia.
  - apply Z.bits_inj'. intros n Hn. rewrite Z.land_spec.
    destruct (Z.eq_dec n 0) as [->|Hne].
    + now rewrite !Z.testbit_odd_0.
    + replace n with (Z.succ (n - 1)) by lia.
      rewrite !Z.testbit_odd_succ, Z.lnot_spec, andb_negb_r by lia.
      change 1 with (2 * 0 + 1). rewrite Z.testbit_odd_succ by lia.
      now rewrite Z.bits_0.
Qed.

(** ** The list primitives and the loop rule *)

Section Primitives.

Context {T : Type}.
Abbreviation slots := (list (option T)).

Lemma subscript_in n x : 0 <= x < n -> subscript n x = Some (Z.to_nat x).
Proof.
  intros H. unfold subscript.
  destruct (Z.leb_spec 0 x); [|lia]. destruct (Z.ltb_spec x n); [|lia].
  reflexivity.
Qed.

Lemma subscript_negative n x :
  - n <= x < 0 -> subscript n x = Some (Z.to_nat (n + x)).
Proof.
  intros H. unfold subscript.
  destruct (Z.leb_spec 0 x); [lia|]. simpl.
  destruct (Z.leb_spec (- n) x); [|lia]. destruct (Z.ltb_spec x 0); [|lia].
  reflexivity.
Qed.

Lemma subscript_out n x : x < - n \/ n <= x -> 0 <= n -> subscript n x = None.
Proof.
  intros H Hn. unfold subscript.
  destruct (Z.leb_spec 0 x); destruct (Z.ltb_spec x n);
    destruct (Z.leb_spec (- n) x); destruct (Z.ltb_spec x 0);
    simpl; try reflexivity; lia.
Qed.

Lemma list_getitem_in (t : slots) c v :
  0 <= c -> t !! Z.to_nat c = Some v -> list_getitem c t = (Ok v, t).
Proof.
  intros Hc Hv. unfold list_getitem.
  apply lookup_lt_Some in Hv as Hlt.
  rewrite subscript_in by lia. now rewrite Hv.
Qed.

Lemma list_setitem_in (t : slots) c v :
  0 <= c < Z.of_nat (length t) ->
  list_setitem c v t = (Ok tt, <[Z.to_nat c := v]> t).
Proof. intros Hc. unfold list_setitem. now rewrite subscript_in. Qed.

Lemma list_getitem_out (t : slots) c :
  c < - Z.of_nat (length t) \/ Z.of_nat (length t) <= c ->
  list_getitem c t = (Raise OutOfRange, t).
Proof. intros Hc. unfold list_getitem. now rewrite subscript_out by lia. Qed.

Lemma list_setitem_out (t : slots) c v :
  c < - Z.of_nat (length t) \/ Z.of_nat (length t) <= c ->
  list_setitem c v t = (Raise OutOfRange, t).
Proof. intros Hc. unfold list_setitem. now rewrite subscript_out by lia. Qed.

(** A read never changes the buffer. *)
Lemma list_getitem_pure (t : slots) c : snd (list_getitem c t) = t.
Proof.
  unfold list_getitem. destruct (subscript _ c); [|reflexivity].
  now destruct (t !! n).
Qed.

(** The rule for [while]: an invariant indexed by the number of rounds
    that are left at most.  The postcondition [Q] is about the outcome
    and the buffer, and has to hold as well where the body raises. *)
Lemma while_rule {S} (I : nat -> S -> slots -> Prop)
    (Q : outcome S * slots -> Prop) (cond : S -> M bool) (body : S -> M S) :
  (forall n s t, I n s t ->
     exists b, cond s t = (Ok b, t) /\
       if b : bool then
         match body s t with
         | (Ok s', t') => exists n', (n' < n)%nat /\ I n' s' t'
         | (Raise e, t') => Q (Raise e, t')
         end
       else Q (Ok s, t)) ->
  forall fuel n s t, I n s t -> (n < fuel)%nat ->
    Q (while fuel cond body s t).
Proof.
  intros Hstep fuel. induction fuel as [|fuel IH]; intros n s t HI Hn.
  - lia.
  - destruct (Hstep n s t HI) as (b & Hc & Hb).
    simpl. unfold bind at 1. rewrite Hc. destruct b.
    + unfold bind. destruct (body s t) as [[s'|e] t'].
      * destruct Hb as (n' & Hlt & HI'). apply (IH n'); [exact HI' | lia].
      * exact Hb.
    + exact Hb.
Qed.

End Primitives.

(** ** Applications of [func] *)

Section Calls.

Context {T : Type}.
Variable func : T -> T -> T.
Context `{!OnNone func}.
Abbreviation slots := (list (option T)).

(** [func] on two values, and on an absent operand. *)
Lemma call_values x y (t : slots) :
  call func (Some x) (Some y) t = (Ok (func x y), t).
Proof. reflexivity. Qed.

Lemma call_cases a b (t : slots) :
  (exists v, call func a b t = (Ok v, t)) \/
  call func a b t = (Raise AbsentOperand, t).
Proof.
  unfold call, ret, raise.
  destruct a, b; try destruct (on_None _ _); eauto.
Qed.

Lemma call_None_l b (t : slots) :
  strict func -> call func None b t = (Raise AbsentOperand, t).
Proof. intros Hs. unfold call. now rewrite Hs. Qed.

Lemma call_None_r a (t : slots) :
  strict func -> call func a None t = (Raise AbsentOperand, t).
Proof. intros Hs. unfold call. rewrite Hs. now destruct a. Qed.

End Calls.

(** ** The aggregates of the forest *)

Section Aggregates.

Context {T : Type}.
Variable func : T -> T -> T.
Context `{!OnNone func}.

Lemma zlookup_is_Some (vs : list T) a :
  is_Some (zlookup vs a) <-> 0 <= a < Z.of_nat (length vs).
Proof.
  unfold zlookup. destruct (Z.leb_spec 0 a).
  - rewrite lookup_lt_is_Some. lia.
  - split; [intros [x Hx]; discriminate | lia].
Qed.

Lemma zlookup_nat (vs : list T) (i : nat) : zlookup vs (Z.of_nat i) = vs !! i.
Proof.
  unfold zlookup. destruct (Z.leb_spec 0 (Z.of_nat i)); [|lia].
  now rewrite Nat2Z.id.
Qed.

Lemma div_pow2_bounds h i :
  (i / pow2 h) * pow2 h <= i < (i / pow2 h + 1) * pow2 h.
Proof.
  pose proof (pow2_pos h).
  pose proof (Z.mul_div_le i (pow2 h)).
  pose proof (Z.mul_succ_div_gt i (pow2 h)).
  lia.
Qed.

Lemma div_pow2_unique h i a :
  a * pow2 h <= i < (a + 1) * pow2 h -> a = i / pow2 h.
Proof.
  intros H. pose proof (pow2_pos h). pose proof (div_pow2_bounds h i). nia.
Qed.

Lemma div_pow2_S h i : i / pow2 (S h) = (i / pow2 h) / 2.
Proof.
  pose proof (pow2_pos h).
  rewrite pow2_S, Z.mul_comm, Z.div_div by lia. reflexivity.
Qed.

Lemma div_pow2_0 i : i / pow2 0 = i.
Proof. unfold pow2. simpl. apply Z.div_1_r. Qed.

(** A node holds a value exactly when all its leaves exist. *)
Lemma val_is_Some (vs : list T) h a :
  0 <= a ->
  is_Some (val func vs h a) <-> (a + 1) * pow2 h <= Z.of_nat (length vs).
Proof.
  revert a. induction h as [|h IH]; intros a Ha.
  - simpl. rewrite zlookup_is_Some. unfold pow2. simpl. lia.
  - simpl. rewrite pow2_S. pose proof (pow2_pos h).
    pose proof (IH (2 * a) ltac:(lia)) as I1.
    pose proof (IH (2 * a + 1) ltac:(lia)) as I2.
    destruct (val func vs h (2 * a)) as [x|],
      (val func vs h (2 * a + 1)) as [y|].
    + split; [intros _ | eauto]. apply proj1 in I2.
      specialize (I2 ltac:(eauto)). lia.
    + split; [intros [? [=]] | intros Hle]. apply I2. lia.
    + split; [intros [? [=]] | intros Hle]. apply I1. nia.
    + split; [intros [? [=]] | intros Hle]. apply I1. nia.
Qed.

Lemma val_None (vs : list T) h a :
  0 <= a -> Z.of_nat (length vs) < (a + 1) * pow2 h -> val func vs h a = None.
Proof.
  intros Ha Hlt. destruct (val func vs h a) eqn:E; [|reflexivity].
  assert (is_Some (val func vs h a)) as HS by (rewrite E; eauto).
  apply val_is_Some in HS; lia.
Qed.

Lemma val_Some (vs : list T) h a :
  0 <= a -> (a + 1) * pow2 h <= Z.of_nat (length vs) ->
  exists x, val func vs h a = Some x.
Proof. intros Ha Hle. now apply val_is_Some. Qed.

(** A node depends on the leaves it spans only. *)
Lemma val_ext (vs vs' : list T) h a :
  (forall x, a * pow2 h <= x < (a + 1) * pow2 h ->
     zlookup vs x = zlookup vs' x) ->
  val func vs h a = val func vs' h a.
Proof.
  revert a. induction h as [|h IH]; intros a Hx.
  - simpl. apply Hx. unfold pow2. simpl. lia.
  - simpl. rewrite pow2_S in Hx. pose proof (pow2_pos h).
    rewrite (IH (2 * a)), (IH (2 * a + 1)); [reflexivity | |];
      intros x Hr; apply Hx; nia.
Qed.

(** An incomplete node has incomplete ancestors. *)
Lemma val_parent_None (vs : list T) h a :
  val func vs h a = None -> val func vs (S h) (a / 2) = None.
Proof.
  intros E. simpl. pose proof (odd_div2 a) as Ea.
  destruct (Z.odd a).
  - replace (2 * (a / 2) + 1) with a by lia. rewrite E.
    now destruct (val func vs h (2 * (a / 2))).
  - replace (2 * (a / 2)) with a by lia. now rewrite E.
Qed.

Lemma val_ancestor_None (vs : list T) i h h' :
  val func vs h (i / pow2 h) = None -> (h <= h')%nat ->
  val func vs h' (i / pow2 h') = None.
Proof.
  intros E Hle. induction Hle as [|h' Hle IH]; [exact E|].
  rewrite div_pow2_S. now apply val_parent_None.
Qed.

(** *** Slices and folds *)

Lemma slice_nil (vs : list T) lo : slice vs lo lo = [].
Proof. unfold slice. now rewrite Z.sub_diag. Qed.

Lemma slice_app (vs : list T) lo mid hi :
  0 <= lo <= mid -> mid <= hi ->
  slice vs lo mid ++ slice vs mid hi = slice vs lo hi.
Proof.
  intros H1 H2. unfold slice.
  replace (Z.to_nat mid) with (Z.to_nat lo + Z.to_nat (mid - lo))%nat by lia.
  rewrite <- drop_drop, take_take_drop. f_equal. lia.
Qed.

Lemma slice_cons (vs : list T) lo hi x :
  lo < hi -> zlookup vs lo = Some x ->
  slice vs lo hi = x :: slice vs (lo + 1) hi.
Proof.
  intros Hlt Hx. unfold zlookup in Hx.
  destruct (Z.leb_spec 0 lo); [|discriminate].
  unfold slice. rewrite (drop_S _ _ _ Hx).
  replace (Z.to_nat (hi - lo)) with (S (Z.to_nat (hi - (lo + 1)))) by lia.
  simpl. do 3 f_equal. lia.
Qed.

Lemma slice_single (vs : list T) a x :
  zlookup vs a = Some x -> slice vs a (a + 1) = [x].
Proof.
  intros Hx. rewrite (slice_cons _ _ _ x), slice_nil by (auto; lia).
  reflexivity.
Qed.

Lemma slice_nonempty (vs : list T) lo hi :
  0 <= lo < hi -> hi <= Z.of_nat (length vs) -> slice vs lo hi <> [].
Proof.
  intros H1 H2.
  destruct (proj2 (zlookup_is_Some vs lo) ltac:(lia)) as [x Hx].
  now rewrite (slice_cons _ _ _ x).
Qed.

Lemma slice_snoc (vs : list T) v lo :
  0 <= lo <= Z.of_nat (length vs) ->
  slice (vs ++ [v]) lo (Z.of_nat (length vs) + 1)
  = slice vs lo (Z.of_nat (length vs)) ++ [v].
Proof.
  intros H. unfold slice.
  rewrite drop_app_le by lia.
  rewrite !take_ge; [reflexivity | |].
  - rewrite length_drop. lia.
  - rewrite length_app, length_drop. simpl. lia.
Qed.

Lemma fold1_is_Some (l : list T) : l <> [] -> is_Some (fold1 func l).
Proof. destruct l; [congruence | simpl; eauto]. Qed.

Section Associative.

Hypothesis func_assoc : Assoc (=) func.

Lemma fold_left_assoc (l : list T) x y :
  fold_left func l (func x y) = func x (fold_left func l y).
Proof.
  revert y. induction l as [|z l IH]; intros y; simpl; [reflexivity|].
  now rewrite <- IH, (assoc func).
Qed.

Lemma fold1_app (l1 l2 : list T) :
  fold1 func (l1 ++ l2) = join func (fold1 func l1) (fold1 func l2).
Proof.
  destruct l1 as [|x l1]; simpl; [reflexivity|].
  destruct l2 as [|y l2]; simpl.
  - now rewrite app_nil_r.
  - rewrite fold_left_app. simpl. now rewrite fold_left_assoc.
Qed.

(** With an associative [func], a complete node holds the left-to-right
    fold of its leaves. *)
Lemma val_fold (vs : list T) h a :
  0 <= a -> (a + 1) * pow2 h <= Z.of_nat (length vs) ->
  val func vs h a = fold1 func (slice vs (a * pow2 h) ((a + 1) * pow2 h)).
Proof.
  revert a. induction h as [|h IH]; intros a Ha Hle.
  - simpl. unfold pow2 in *. simpl in *. rewrite !Z.mul_1_r in *.
    destruct (proj2 (zlookup_is_Some vs a) ltac:(lia)) as [x Hx].
    now rewrite (slice_single _ _ x), Hx.
  - simpl. rewrite pow2_S in *. pose proof (pow2_pos h).
    rewrite (IH (2 * a)), (IH (2 * a + 1)) by nia.
    set (lo := a * (2 * pow2 h)). set (hi := (a + 1) * (2 * pow2 h)).
    replace (2 * a * pow2 h) with lo by (unfold lo; lia).
    replace ((2 * a + 1 + 1) * pow2 h) with hi by (unfold hi; lia).
    set (mid := (2 * a + 1) * pow2 h).
    assert (0 <= lo < mid /\ mid < hi) as Hb by (unfold lo, mid, hi; nia).
    rewrite <- (slice_app vs lo mid hi) by lia.
    rewrite fold1_app.
    destruct (fold1_is_Some (slice vs lo mid)) as [x ->];
      [apply slice_nonempty; lia|].
    destruct (fold1_is_Some (slice vs mid hi)) as [y ->];
      [apply slice_nonempty; unfold hi; lia|].
    reflexivity.
Qed.

End Associative.

End Aggregates.

(** ** The climb *)

Section Climb.

Context {T : Type}.
Variable func : T -> T -> T.
Context `{!OnNone func}.
Abbreviation slots := (list (option T)).

Lemma built_lookup (vs : list T) (t : slots) h a :
  built func vs t -> 0 <= a -> coord h a < Z.of_nat (length t) ->
  t !! Z.to_nat (coord h a) = Some (val func vs h a).
Proof. intros (_ & _ & H). apply H. Qed.

(** Once the next ancestor is incomplete, nothing is left to write. *)
Lemma climbing_done (vs : list T) i h (t : slots) :
  climbing func vs i h t ->
  val func vs (S h) (i / pow2 (S h)) = None ->
  built func vs t.
Proof.
  intros (HN & H0 & Hnodes) Hnone. repeat split; [exact HN | exact H0 |].
  intros h' a Ha Hlt. destruct (Hnodes h' a Ha Hlt) as [Habove Hbelow].
  destruct (decide ((h < h')%nat /\ a = i / pow2 h')) as [Hd|Hd].
  - destruct Hd as [Hh ->]. destruct (Habove (conj Hh eq_refl)) as [_ HNone].
    assert (val func vs h' (i / pow2 h') = None) as E
      by (apply (val_ancestor_None func vs i (S h) h'); [exact Hnone | lia]).
    rewrite E. now apply HNone.
  - now apply Hbelow.
Qed.

(** Writing the next ancestor. *)
Lemma climbing_write (vs : list T) i h (t : slots) :
  climbing func vs i h t ->
  0 <= i ->
  coord (S h) (i / pow2 (S h)) < Z.of_nat (length t) ->
  climbing func vs i (S h)
    (<[Z.to_nat (coord (S h) (i / pow2 (S h))) :=
         val func vs (S h) (i / pow2 (S h))]> t).
Proof.
  intros (HN & H0 & Hnodes) Hi Hp.
  set (a2 := i / pow2 (S h)) in *. set (p := coord (S h) a2) in *.
  assert (0 <= a2) as Ha2.
  { pose proof (pow2_pos (S h)). apply Z.div_pos; lia. }
  assert (0 < p) as Hp0.
  { pose proof (coord_pos (S h) a2 Ha2). pose proof (pow2_pos (S h)).
    unfold p. lia. }
  assert (forall h' a, 0 <= a -> coord h' a <> p ->
            Z.to_nat p <> Z.to_nat (coord h' a)) as Hne.
  { intros h' a Ha NE. pose proof (coord_pos h' a Ha).
    pose proof (pow2_pos h'). lia. }
  split; [|split].
  - rewrite length_insert. exact HN.
  - intros x. rewrite list_lookup_insert_ne by lia. apply H0.
  - intros h' a Ha Hlt. rewrite length_insert in Hlt.
    destruct (Hnodes h' a Ha Hlt) as [Habove Hbelow].
    destruct (Z.eq_dec (coord h' a) p) as [E|NE].
    + rewrite E. apply coord_inj in E as [-> ->]. split; [lia|].
      intros _. apply list_lookup_insert_eq. lia.
    + rewrite list_lookup_insert_ne by now apply Hne.
      split.
      * intros [Hh ->]. apply Habove. split; [lia | reflexivity].
      * intros Hd. apply Hbelow. intros [Hh ->]. apply Hd.
        destruct (Nat.eq_dec h' (S h)) as [->|]; [|split; [lia|reflexivity]].
        now contradict NE.
Qed.

(** Writing leaf [i] on top of a built forest starts a climb, as long as
    the new values differ at [i] only and complete no node by their sheer
    number. *)
Lemma climb_start (vs vs' : list T) i v (t : slots) :
  built func vs t ->
  0 <= i -> coord 0 i < Z.of_nat (length t) ->
  (2 * length vs' <= length t)%nat ->
  zlookup vs' i = Some v ->
  (forall x, x <> i -> zlookup vs' x = zlookup vs x) ->
  (forall h, (0 < h)%nat -> val func vs' h (i / pow2 h) = None ->
     val func vs h (i / pow2 h) = None) ->
  climbing func vs' i 0 (<[Z.to_nat (coord 0 i) := Some v]> t).
Proof.
  intros (HN & H0 & Hnodes) Hi Hlt Hlen Hv Hsame Habove.
  assert (0 < coord 0 i) as Hpos.
  { pose proof (coord_pos 0 i Hi). pose proof (pow2_pos 0). lia. }
  assert (forall h' a, 0 <= a -> coord h' a <> coord 0 i ->
            Z.to_nat (coord 0 i) <> Z.to_nat (coord h' a)) as Hne.
  { intros h' a Ha NE. pose proof (coord_pos h' a Ha).
    pose proof (pow2_pos h'). lia. }
  split; [|split].
  - rewrite length_insert. destruct HN as (N & HN & _). exists N. split; lia.
  - intros x. rewrite list_lookup_insert_ne by lia. apply H0.
  - intros h' a Ha Hlt'. rewrite length_insert in Hlt'.
    destruct (Z.eq_dec (coord h' a) (coord 0 i)) as [E|NE].
    + rewrite E. apply coord_inj in E as [-> ->]. split; [lia|].
      intros _. rewrite list_lookup_insert_eq by lia. simpl. now rewrite Hv.
    + rewrite list_lookup_insert_ne by now apply Hne.
      rewrite (Hnodes h' a Ha Hlt'). split.
      * intros [Hh ->]. split; [eauto|]. intros Hnone. f_equal.
        now apply Habove.
      * intros Hd. f_equal. symmetry. apply val_ext.
        intros x Hx. apply Hsame. intros ->.
        apply div_pow2_unique in Hx. subst a.
        destruct h' as [|h'].
        -- rewrite div_pow2_0 in NE. now contradict NE.
        -- apply Hd. split; [lia | reflexivity].
Qed.

End Climb.

(** ** The loops of [__init__] and [__setitem__] *)

Section ClimbLoops.

Context {T : Type}.
Variable func : T -> T -> T.
Context `{!OnNone func}.
Abbreviation slots := (list (option T)).

Lemma div_pow2_nonneg h i : 0 <= i -> 0 <= i / pow2 h.
Proof. intros Hi. pose proof (pow2_pos h). apply Z.div_pos; lia. Qed.

(** The two children of the parent of node [(h, i / pow2 h)]. *)
Lemma val_parent (vs : list T) h i :
  val func vs (S h) (i / pow2 (S h))
  = match val func vs h (2 * (i / pow2 h / 2)),
          val func vs h (2 * (i / pow2 h / 2) + 1) with
    | Some x, Some y => Some (func x y)
    | _, _ => None
    end.
Proof. simpl. now rewrite div_pow2_S. Qed.

Lemma setitem_loop (vs : list T) i (t : slots) :
  strict func \/ i + 1 = Z.of_nat (length vs) ->
  0 <= i < Z.of_nat (length vs) ->
  climbing func vs i 0 t ->
  length t = (2 * length vs)%nat ->
  setitem_post func vs i
    (budget (fun fuel => while fuel setitem_cond (setitem_body func)
                           (coord 0 i, 1)) t).
Proof.
  intros Hmode Hi Hclimb Hlen. unfold budget.
  apply (while_rule (setitem_inv func vs i) (setitem_post func vs i))
    with (n := length t).
  2:{ exists O. rewrite div_pow2_0.
      split; [reflexivity|]. split; [exact Hclimb|]. split; [exact Hlen|].
      split; [lia|]. intros _. simpl. apply zlookup_is_Some. lia. }
  2:{ lia. }
  clear t Hclimb Hlen. intros n s t (h & -> & Hclimb & Hlen & -> & Hlast).
  set (a := i / pow2 h) in *.
  assert (0 <= a) as Ha by (apply div_pow2_nonneg; lia).
  pose proof (odd_div2 a) as Hodd.
  pose proof (div_pow2_bounds h i) as Hb. fold a in Hb.
  pose proof (pow2_pos h) as Hk. pose proof (pow2_gt h) as Hgt.
  assert (0 <= a / 2) as Ha2 by (apply Z.div_pos; lia).
  exists (coord h (2 * (a / 2) + 1) <? Z.of_nat (length t)). split.
  { unfold setitem_cond, bind, list_len, ret. now rewrite right_coord. }
  pose proof (val_parent vs h i) as Hpar. fold a in Hpar.
  destruct Hclimb as (HN & H0 & Hnodes).
  destruct (Z.ltb_spec (coord h (2 * (a / 2) + 1)) (Z.of_nat (length t)))
    as [Hlt|Hge].
  - (* one more round *)
    assert (coord h (2 * (a / 2)) < coord (S h) (a / 2)
            < coord h (2 * (a / 2) + 1))
      as Hord by (rewrite coord_S; unfold coord; nia).
    assert (0 < coord h (2 * (a / 2)))
      by (pose proof (coord_pos h (2 * (a / 2))); lia).
    destruct (Hnodes h (2 * (a / 2)) ltac:(lia) ltac:(lia)) as [_ Hl].
    destruct (Hnodes h (2 * (a / 2) + 1) ltac:(lia) ltac:(lia)) as [_ Hr].
    specialize (Hl ltac:(lia)). specialize (Hr ltac:(lia)).
    unfold setitem_body. rewrite left_coord, right_coord, parent_coord.
    unfold bind at 1.
    rewrite (list_getitem_in t (coord h (2 * (a / 2))) _ ltac:(lia) Hl).
    unfold bind at 1.
    rewrite (list_getitem_in t (coord h (2 * (a / 2) + 1)) _ ltac:(lia) Hr).
    destruct (val func vs h (2 * (a / 2))) as [x|] eqn:Ex;
      [destruct (val func vs h (2 * (a / 2) + 1)) as [y|] eqn:Ey|].
    + unfold bind, call, ret. rewrite list_setitem_in by lia.
      exists (length t - S h)%nat. split.
      { pose proof (coord_pos h (2 * (a / 2) + 1)). lia. }
      exists (S h). rewrite shiftl_pow2, length_insert.
      replace (a / 2) with (i / pow2 (S h))
        by (rewrite div_pow2_S; reflexivity).
      rewrite <- Hpar.
      split; [reflexivity|]. split; [|split; [exact Hlen|split; [lia|]]].
      * apply climbing_write; [exact (conj HN (conj H0 Hnodes)) | lia |].
        rewrite div_pow2_S. fold a. lia.
      * intros _. rewrite Hpar. eauto.
    + assert (i + 1 <> Z.of_nat (length vs)) as Hnl.
      { intros Hl1. destruct (Hlast Hl1) as [z Hz].
        destruct (Z.odd a).
        - replace (2 * (a / 2) + 1) with a in Ey by lia. congruence.
        - unfold coord in Hlt. nia. }
      destruct Hmode as [Hs | Hl1]; [|contradiction].
      unfold bind. rewrite (call_None_r func _ _ Hs).
      split; [|split; [exact Hlen|]].
      * apply (climbing_done func vs i h);
          [exact (conj HN (conj H0 Hnodes)) | exact Hpar].
      * right. split; [reflexivity | exact Hnl].
    + assert (i + 1 <> Z.of_nat (length vs)) as Hnl.
      { intros Hl1.
        destruct (val_Some func vs h (2 * (a / 2)) ltac:(lia)) as [z Hz];
          [|congruence].
        destruct (Z.odd a); [nia|]. unfold coord in Hlt. nia. }
      destruct Hmode as [Hs | Hl1]; [|contradiction].
      unfold bind. rewrite (call_None_l func _ _ Hs).
      split; [|split; [exact Hlen|]].
      * apply (climbing_done func vs i h);
          [exact (conj HN (conj H0 Hnodes)) | exact Hpar].
      * right. split; [reflexivity | exact Hnl].
  - (* the right child is outside the buffer *)
    split; [|split; [exact Hlen | left; eauto]].
    apply (climbing_done func vs i h); [exact (conj HN (conj H0 Hnodes)) |].
    rewrite Hpar, (val_None func vs h (2 * (a / 2) + 1)).
    + now destruct (val func vs h (2 * (a / 2))).
    + lia.
    + unfold coord in Hge. nia.
Qed.

Lemma init_loop (vs : list T) i (t : slots) :
  0 <= i -> i + 1 = Z.of_nat (length vs) ->
  climbing func vs i 0 t ->
  init_post func vs (length t)
    (budget (fun fuel => while fuel init_cond (init_body func)
                           (coord 0 i, 1)) t).
Proof.
  intros Hi Hlast Hclimb. unfold budget.
  apply (while_rule (init_inv func vs i (length t))
           (init_post func vs (length t)))
    with (n := length t).
  2:{ exists O. rewrite div_pow2_0.
      split; [reflexivity|]. split; [exact Hclimb|]. split; [reflexivity|].
      split; [lia|]. simpl. apply zlookup_is_Some. lia. }
  2:{ lia. }
  generalize (length t) as len0. clear t Hclimb.
  intros len0 n s t (h & -> & Hclimb & Hlen & -> & Hsome).
  set (a := i / pow2 h) in *.
  assert (0 <= a) as Ha by (apply div_pow2_nonneg; lia).
  pose proof (odd_div2 a) as Hodd.
  pose proof (div_pow2_bounds h i) as Hb. fold a in Hb.
  pose proof (pow2_pos h) as Hk. pose proof (pow2_gt h) as Hgt.
  assert (0 <= a / 2) as Ha2 by (apply Z.div_pos; lia).
  apply val_is_Some in Hsome as Hcomplete; [|exact Ha].
  exists (Z.odd a). split.
  { unfold init_cond, ret. now rewrite is_right_child. }
  pose proof (val_parent vs h i) as Hpar. fold a in Hpar.
  destruct Hclimb as (HN & H0 & Hnodes).
  assert (2 * Z.of_nat (length vs) <= Z.of_nat (length t)) as Hroom.
  { destruct HN as (N & HN & HN'). lia. }
  destruct (Z.odd a) eqn:Eodd.
  - assert (a = 2 * (a / 2) + 1) as Ea by lia.
    assert (coord h (2 * (a / 2)) < coord (S h) (a / 2) < coord h a)
      as Hord by (rewrite coord_S; unfold coord; nia).
    assert (coord h a < Z.of_nat (length t)) by (unfold coord; nia).
    assert (0 < coord h (2 * (a / 2)))
      by (pose proof (coord_pos h (2 * (a / 2))); lia).
    destruct (Hnodes h (2 * (a / 2)) ltac:(lia) ltac:(lia)) as [_ Hl].
    destruct (Hnodes h a ltac:(lia) ltac:(lia)) as [_ Hr].
    specialize (Hl ltac:(lia)). specialize (Hr ltac:(lia)).
    unfold init_body. rewrite left_coord, parent_coord.
    unfold bind at 1.
    rewrite (list_getitem_in t (coord h (2 * (a / 2))) _ ltac:(lia) Hl).
    unfold bind at 1.
    rewrite (list_getitem_in t (coord h a) _ ltac:(lia) Hr).
    destruct (val_Some func vs h (2 * (a / 2)) ltac:(lia) ltac:(nia)) as [x Ex].
    destruct Hsome as [y Ey]. rewrite <- Ea, Ex, Ey in Hpar.
    rewrite Ex, Ey.
    unfold bind, call, ret. rewrite list_setitem_in by lia.
    exists (length t - S h)%nat. split.
    { pose proof (coord_pos h a). lia. }
    exists (S h). rewrite shiftl_pow2, length_insert.
    replace (a / 2) with (i / pow2 (S h)) by (rewrite div_pow2_S; reflexivity).
    rewrite <- Hpar.
    split; [reflexivity|]. split; [|split; [exact Hlen|split; [lia|]]].
    + apply climbing_write; [exact (conj HN (conj H0 Hnodes)) | lia |].
      rewrite div_pow2_S. fold a. lia.
    + rewrite Hpar. eauto.
  - split; [|split; [exact Hlen | eauto]].
    apply (climbing_done func vs i h); [exact (conj HN (conj H0 Hnodes)) |].
    rewrite Hpar, (val_None func vs h (2 * (a / 2) + 1)).
    + now destruct (val func vs h (2 * (a / 2))).
    + lia.
    + nia.
Qed.

End ClimbLoops.

(** ** The methods that write *)

Section Writers.

Context {T : Type}.
Variable func : T -> T -> T.
Context `{!OnNone func}.
Abbreviation slots := (list (option T)).

Lemma shiftl_1 x : Z.shiftl x 1 = 2 * x.
Proof. rewrite Z.shiftl_mul_pow2 by lia. lia. Qed.

Lemma shiftr_1 x : Z.shiftr x 1 = x / 2.
Proof. rewrite Z.shiftr_div_pow2 by lia. reflexivity. Qed.

Lemma coord_0 i : coord 0 i = 2 * i + 1.
Proof. unfold coord, pow2. simpl. lia. Qed.

Lemma Inv_size (vs : list T) (t : slots) :
  Inv func vs t -> size t = Z.of_nat (length vs).
Proof.
  intros [_ Hlen]. unfold size.
  rewrite shiftr_1, Hlen, Nat2Z.inj_mul, Z.mul_comm, Z.div_mul; lia.
Qed.

Lemma len_spec (t : slots) : len t = (Ok (size t), t).
Proof. reflexivity. Qed.

(** The empty forest. *)
Lemma built_nil (N : nat) : built func [] (replicate (2 * N) (@None T)).
Proof.
  split; [|split].
  - exists N. rewrite length_replicate. simpl. lia.
  - intros x Hx. apply lookup_replicate in Hx. tauto.
  - intros h a Ha Hlt. rewrite length_replicate in Hlt.
    pose proof (pow2_pos h). pose proof (coord_pos h a Ha).
    rewrite lookup_replicate_2 by lia.
    f_equal. symmetry. apply val_None; [exact Ha|]. simpl. nia.
Qed.

(** A forest in a buffer that just grew by two slots. *)
Lemma built_extend (vs : list T) (t : slots) :
  Inv func vs t -> built func vs (t ++ [None; None]).
Proof.
  intros [(HN & H0 & Hnodes) Hlen]. split; [|split].
  - exists (S (length vs)). rewrite length_app. simpl. lia.
  - intros x. destruct t as [|y t]; simpl.
    + now intros [= <-].
    + apply H0.
  - intros h a Ha Hlt. rewrite length_app in Hlt. simpl in Hlt.
    pose proof (coord_pos h a Ha). pose proof (pow2_pos h).
    destruct (Z.lt_ge_cases (coord h a) (Z.of_nat (length t))) as [Hin|Hout].
    + rewrite lookup_app_l by lia. now apply Hnodes.
    + rewrite (val_None func vs h a) by (unfold coord in *; nia).
      rewrite lookup_app_r by lia.
      destruct (Z.to_nat (coord h a) - length t)%nat as [|[|k]] eqn:E;
        [reflexivity | reflexivity | lia].
Qed.

Lemma zlookup_snoc (vs : list T) v :
  zlookup (vs ++ [v]) (Z.of_nat (length vs)) = Some v.
Proof. rewrite zlookup_nat. apply list_lookup_middle. reflexivity. Qed.

Lemma zlookup_snoc_ne (vs : list T) v x :
  x <> Z.of_nat (length vs) -> zlookup (vs ++ [v]) x = zlookup vs x.
Proof.
  intros Hx. unfold zlookup. destruct (Z.leb_spec 0 x); [|reflexivity].
  destruct (Z.lt_ge_cases x (Z.of_nat (length vs))).
  - apply lookup_app_l. lia.
  - rewrite !lookup_ge_None_2; [reflexivity | lia |].
    rewrite length_app. simpl. lia.
Qed.

Lemma zlookup_insert (vs : list T) (i : nat) v :
  (i < length vs)%nat -> zlookup (<[i := v]> vs) (Z.of_nat i) = Some v.
Proof. intros Hi. rewrite zlookup_nat. now apply list_lookup_insert_eq. Qed.

Lemma zlookup_insert_ne (vs : list T) (i : nat) v x :
  x <> Z.of_nat i -> zlookup (<[i := v]> vs) x = zlookup vs x.
Proof.
  intros Hx. unfold zlookup. destruct (Z.leb_spec 0 x); [|reflexivity].
  apply list_lookup_insert_ne. lia.
Qed.

(** Placing one more value at the end starts a climb. *)
Lemma climb_start_snoc (vs : list T) v (t : slots) :
  built func vs t -> (2 * length vs + 2 <= length t)%nat ->
  climbing func (vs ++ [v]) (Z.of_nat (length vs)) 0
    (<[Z.to_nat (coord 0 (Z.of_nat (length vs))) := Some v]> t).
Proof.
  intros Hb Hroom. apply (climb_start func vs); auto.
  - lia.
  - rewrite coord_0. lia.
  - rewrite length_app. simpl. lia.
  - apply zlookup_snoc.
  - intros x Hx. now apply zlookup_snoc_ne.
  - intros h Hh _. apply val_None.
    + apply div_pow2_nonneg. lia.
    + apply div_pow2_bounds.
Qed.

(** Overwriting a value starts a climb. *)
Lemma climb_start_insert (vs : list T) (i : nat) v (t : slots) :
  Inv func vs t -> (i < length vs)%nat ->
  climbing func (<[i := v]> vs) (Z.of_nat i) 0
    (<[Z.to_nat (coord 0 (Z.of_nat i)) := Some v]> t).
Proof.
  intros [Hb Hlen] Hi. apply (climb_start func vs); auto.
  - lia.
  - rewrite coord_0. lia.
  - rewrite length_insert. lia.
  - now apply zlookup_insert.
  - intros x Hx. now apply zlookup_insert_ne.
  - intros h Hh Hnone.
    destruct (val func vs h (Z.of_nat i / pow2 h)) eqn:E; [|reflexivity].
    assert (is_Some (val func (<[i := v]> vs) h (Z.of_nat i / pow2 h))) as HS.
    { apply val_is_Some; [apply div_pow2_nonneg; lia|].
      rewrite length_insert. apply (val_is_Some func vs h).
      - apply div_pow2_nonneg. lia.
      - rewrite E. eauto. }
    rewrite Hnone in HS. now destruct HS.
Qed.

(** [__init__]: one value. *)
Lemma init_step_spec (vs : list T) v (t : slots) :
  built func vs t -> (2 * length vs + 2 <= length t)%nat ->
  exists t', init_step func (Z.of_nat (length vs)) v t = (Ok tt, t') /\
    built func (vs ++ [v]) t' /\ length t' = length t.
Proof.
  intros Hb Hroom. unfold init_step. rewrite leaf_coord.
  unfold bind at 1. rewrite list_setitem_in by (rewrite coord_0; lia).
  pose proof (climb_start_snoc vs v t Hb Hroom) as Hclimb.
  pose proof (init_loop func (vs ++ [v]) (Z.of_nat (length vs)) _
                ltac:(lia) ltac:(rewrite length_app; simpl; lia) Hclimb)
    as (Hbuilt & Hlen & s & Hs).
  unfold bind, ret.
  destruct (budget _ _) as [r t']. simpl in *. subst r.
  exists t'. rewrite length_insert in Hlen. auto.
Qed.

Lemma for_enumerate_init (rest vs : list T) (t : slots) :
  built func vs t -> (2 * (length vs + length rest) <= length t)%nat ->
  exists t', for_enumerate (Z.of_nat (length vs)) rest (init_step func) t
             = (Ok tt, t') /\
    built func (vs ++ rest) t' /\ length t' = length t.
Proof.
  revert vs t. induction rest as [|v rest IH]; intros vs t Hb Hroom.
  - exists t. rewrite app_nil_r. auto.
  - simpl in Hroom.
    destruct (init_step_spec vs v t Hb ltac:(lia)) as (t1 & E1 & Hb1 & Hl1).
    destruct (IH (vs ++ [v]) t1 Hb1) as (t2 & E2 & Hb2 & Hl2).
    { rewrite length_app. simpl. lia. }
    exists t2. simpl. unfold bind. rewrite E1.
    replace (Z.of_nat (length vs) + 1) with (Z.of_nat (length (vs ++ [v])))
      by (rewrite length_app; simpl; lia).
    rewrite E2, <- app_assoc in *. simpl in *. split; [reflexivity|].
    split; [exact Hb2 | lia].
Qed.

(** [__init__] succeeds and establishes the invariant. *)
Lemma init_spec (values : list T) (t0 : slots) :
  exists t, init func values t0 = (Ok tt, t) /\ Inv func values t.
Proof.
  unfold init, bind, list_assign. rewrite shiftl_1.
  replace (Z.to_nat (2 * Z.of_nat (length values))) with (2 * length values)%nat
    by lia.
  destruct (for_enumerate_init values [] (replicate (2 * length values) None))
    as (t & E & Hb & Hl).
  - apply built_nil.
  - rewrite length_replicate. simpl. lia.
  - exists t. change (Z.of_nat (length (@nil T))) with 0 in E. rewrite E.
    split; [reflexivity|]. split; [exact Hb|].
    rewrite Hl, length_replicate. reflexivity.
Qed.

(** [__setitem__], after the leaf has been written. *)
Lemma setitem_from_start (vs : list T) i v (t : slots) :
  strict func \/ i + 1 = Z.of_nat (length vs) ->
  0 <= i < Z.of_nat (length vs) ->
  length t = (2 * length vs)%nat ->
  climbing func vs i 0 (<[Z.to_nat (coord 0 i) := Some v]> t) ->
  exists r t', setitem func i v t = (r, t') /\ Inv func vs t' /\
    (r = Ok tt \/ (r = Raise AbsentOperand /\ i + 1 <> Z.of_nat (length vs))).
Proof.
  intros Hmode Hi Hlen Hclimb. unfold setitem. rewrite leaf_coord.
  unfold bind at 1. rewrite list_setitem_in by (rewrite coord_0; lia).
  pose proof (setitem_loop func vs i _ Hmode Hi Hclimb
                ltac:(rewrite length_insert; exact Hlen))
    as (Hbuilt & Hlen' & Hr).
  unfold bind, ret.
  destruct (budget _ _) as [r t']. simpl in *.
  destruct Hr as [[s ->] | [-> Hne]].
  - exists (Ok tt), t'. split; [reflexivity|].
    split; [exact (conj Hbuilt Hlen') | now left].
  - exists (Raise AbsentOperand), t'. split; [reflexivity|].
    split; [exact (conj Hbuilt Hlen') | now right].
Qed.

(** With an operator that raises on absent operands, [__setitem__]
    inside the range keeps the invariant, whether it returns or
    raises. *)
Lemma setitem_spec (vs : list T) (i : nat) v (t : slots) :
  strict func -> Inv func vs t -> (i < length vs)%nat ->
  exists r t', setitem func (Z.of_nat i) v t = (r, t') /\
    Inv func (<[i := v]> vs) t' /\
    (r = Ok tt \/ r = Raise AbsentOperand).
Proof.
  intros Hs HI Hi.
  destruct (setitem_from_start (<[i := v]> vs) (Z.of_nat i) v t)
    as (r & t' & E & HI' & Hr).
  - now left.
  - rewrite length_insert. lia.
  - rewrite length_insert. apply HI.
  - now apply climb_start_insert.
  - exists r, t'. split; [exact E|]. split; [exact HI' | tauto].
Qed.

(** [append] never raises and keeps the invariant. *)
Lemma append_spec (vs : list T) v (t : slots) :
  Inv func vs t ->
  exists t', append func v t = (Ok tt, t') /\ Inv func (vs ++ [v]) t'.
Proof.
  intros HI. pose proof HI as [Hb Hlen].
  unfold append, bind at 1, list_len. unfold bind at 1, list_extend.
  rewrite shiftr_1.
  replace (Z.of_nat (length t) / 2) with (Z.of_nat (length vs))
    by (rewrite Hlen, Nat2Z.inj_mul, Z.mul_comm, Z.div_mul; lia).
  destruct (setitem_from_start (vs ++ [v]) (Z.of_nat (length vs)) v
              (t ++ [None; None]))
    as (r & t' & E & HI' & Hr).
  - right. rewrite length_app. simpl. lia.
  - rewrite length_app. simpl. lia.
  - rewrite !length_app. simpl. lia.
  - apply climb_start_snoc; [now apply built_extend|].
    rewrite length_app. simpl. lia.
  - exists t'. rewrite E. destruct Hr as [-> | [_ Hne]]; [auto|].
    rewrite length_app in Hne. simpl in Hne. lia.
Qed.

End Writers.

(** ** The methods that read *)

Section Readers.

Context {T : Type}.
Variable func : T -> T -> T.
Context `{!OnNone func}.
Abbreviation slots := (list (option T)).

Lemma getitem_pure (t : slots) i : snd (getitem i t) = t.
Proof. apply list_getitem_pure. Qed.

Lemma getitem_in (vs : list T) (t : slots) i :
  Inv func vs t -> 0 <= i < Z.of_nat (length vs) ->
  getitem i t = (Ok (zlookup vs i), t).
Proof.
  intros [Hb Hlen] Hi. unfold getitem. rewrite leaf_coord.
  apply list_getitem_in.
  - rewrite coord_0. lia.
  - apply (built_lookup func vs t 0 i Hb); [lia | rewrite coord_0; lia].
Qed.

(** A negative subscript counts from the end. *)
Lemma getitem_negative (t : slots) n i :
  Z.of_nat (length t) = 2 * n -> - n <= i < 0 ->
  getitem i t = getitem (n + i) t.
Proof.
  intros Hlen Hi. unfold getitem, list_getitem.
  rewrite !leaf_coord, !coord_0.
  rewrite subscript_negative, subscript_in by lia.
  now replace (Z.of_nat (length t) + (2 * i + 1)) with (2 * (n + i) + 1) by lia.
Qed.

Lemma getitem_out (t : slots) n i :
  Z.of_nat (length t) = 2 * n -> i < - n \/ n <= i ->
  getitem i t = (Raise OutOfRange, t).
Proof.
  intros Hlen Hi. unfold getitem. rewrite leaf_coord, coord_0.
  apply list_getitem_out. lia.
Qed.

(** Loops that only read leave the buffer alone. *)
Lemma while_pure {S} (cond : S -> M bool) (body : S -> M S) :
  (forall s (t : slots), snd (cond s t) = t) ->
  (forall s (t : slots), snd (body s t) = t) ->
  forall fuel s (t : slots), snd (while fuel cond body s t) = t.
Proof.
  intros Hc Hb fuel. induction fuel as [|fuel IH]; intros s t; [reflexivity|].
  simpl. unfold bind at 1. pose proof (Hc s t) as E.
  destruct (cond s t) as [[[|]|e] t1]; simpl in E; subst t1; try reflexivity.
  unfold bind. pose proof (Hb s t) as E.
  destruct (body s t) as [[s'|e] t1]; simpl in E; subst t1;
    [apply IH | reflexivity].
Qed.

Lemma bind_pure {A B} (m : M A) (f : A -> M B) :
  (forall t : slots, snd (m t) = t) ->
  (forall a (t : slots), snd (f a t) = t) ->
  forall t : slots, snd (bind m f t) = t.
Proof.
  intros Hm Hf t. unfold bind. pose proof (Hm t) as E.
  destruct (m t) as [[a|e] t1]; simpl in E; subst t1; [apply Hf | reflexivity].
Qed.

Lemma call_pure (a b : option T) (t : slots) : snd (call func a b t) = t.
Proof. destruct (call_cases func a b t) as [[v ->] | ->]; reflexivity. Qed.

Lemma assert_pure b e (t : slots) : snd (assert b e t) = t.
Proof. now destruct b. Qed.

Lemma query_left_pure i acc k (t : slots) :
  snd (query_left func i acc k t) = t.
Proof.
  unfold query_left. destruct (negb _); [|reflexivity].
  apply bind_pure; [|reflexivity].
  destruct acc; [|intros t'; apply list_getitem_pure].
  apply bind_pure; [intros t'; apply list_getitem_pure|]. intros x.
  apply bind_pure; [intros t'; apply call_pure | reflexivity].
Qed.

Lemma query_right_pure j acc k (t : slots) :
  snd (query_right func j acc k t) = t.
Proof.
  unfold query_right. destruct (negb _); [|reflexivity].
  apply bind_pure; [|reflexivity].
  destruct acc; [|intros t'; apply list_getitem_pure].
  apply bind_pure; [intros t'; apply list_getitem_pure|]. intros x.
  apply bind_pure; [intros t'; apply call_pure | reflexivity].
Qed.

Lemma query_pure i j (t : slots) : snd (query func i j t) = t.
Proof.
  unfold query. apply bind_pure.
  - unfold query_loop. apply bind_pure.
    + unfold query_asserts, len.
      repeat (apply bind_pure;
              [try reflexivity; intros t'; apply assert_pure | intros ?]).
      intros t'. apply assert_pure.
    + intros _ t'. unfold budget. apply while_pure; [reflexivity|].
      intros s t2. unfold query_body.
      apply bind_pure; [intros t3; apply query_left_pure | intros il].
      apply bind_pure; [intros t3; apply query_right_pure | reflexivity].
  - intros s t'. now destruct (q_left s), (q_right s).
Qed.

(** The argument assertions accept exactly the ranges [0 <= i < j <= n]. *)
Lemma query_asserts_valid (t : slots) i j :
  0 <= i < j -> j <= size t -> query_asserts i j t = (Ok tt, t).
Proof.
  intros Hi Hj. unfold query_asserts, bind. rewrite len_spec.
  replace ((0 <=? i) && (i <? size t)) with true
    by (symmetry; apply andb_true_iff; split;
        [apply Z.leb_le | apply Z.ltb_lt]; lia).
  unfold assert at 1, ret. rewrite len_spec.
  replace ((0 <? j) && (j <=? size t)) with true
    by (symmetry; apply andb_true_iff; split;
        [apply Z.ltb_lt | apply Z.leb_le]; lia).
  unfold assert at 1.
  replace (i <? j) with true by (symmetry; apply Z.ltb_lt; lia).
  reflexivity.
Qed.

Lemma query_asserts_invalid (t : slots) i j :
  ~ (0 <= i < j /\ j <= size t) ->
  query_asserts i j t = (Raise InvalidRange, t).
Proof.
  intros Hn. unfold query_asserts, bind. rewrite len_spec.
  destruct ((0 <=? i) && (i <? size t)) eqn:E1; [|reflexivity].
  unfold assert at 1, ret. rewrite len_spec.
  destruct ((0 <? j) && (j <=? size t)) eqn:E2; [|reflexivity].
  unfold assert at 1. destruct (i <? j) eqn:E3; [|reflexivity].
  apply andb_true_iff in E1 as [E1 _], E2 as [_ E2].
  apply Z.leb_le in E1, E2. apply Z.ltb_lt in E3. lia.
Qed.

Lemma query_invalid (t : slots) i j :
  ~ (0 <= i < j /\ j <= size t) ->
  query func i j t = (Raise InvalidRange, t).
Proof.
  intros Hn. unfold query, query_loop, bind.
  now rewrite query_asserts_invalid.
Qed.

(** *** The accumulators *)

Section Accumulators.

Variable vs : list T.

Lemma accum_nil lo : accum func vs lo lo None.
Proof.
  split; [reflexivity|]. split; [lia|]. intros _. now rewrite slice_nil.
Qed.

(** A node that follows the left accumulator. *)
Lemma accum_snoc lo mid hi acc x :
  accum func vs lo mid acc -> 0 <= lo <= mid -> mid < hi ->
  (Assoc (=) func -> Some x = fold1 func (slice vs mid hi)) ->
  accum func vs lo hi (join func acc (Some x)).
Proof.
  intros (_ & _ & Hfold) Hlo Hhi Hx. split; [lia|]. split.
  - intros _. destruct acc; simpl; eauto.
  - intros HA. rewrite <- (slice_app vs lo mid hi) by lia.
    rewrite (fold1_app func HA), <- (Hx HA), <- (Hfold HA). reflexivity.
Qed.

(** A node that precedes the right accumulator. *)
Lemma accum_cons lo mid hi acc x :
  accum func vs mid hi acc -> 0 <= lo < mid -> mid <= hi ->
  (Assoc (=) func -> Some x = fold1 func (slice vs lo mid)) ->
  accum func vs lo hi (join func (Some x) acc).
Proof.
  intros (_ & _ & Hfold) Hlo Hhi Hx. split; [lia|]. split.
  - intros _. destruct acc; simpl; eauto.
  - intros HA. rewrite <- (slice_app vs lo mid hi) by lia.
    rewrite (fold1_app func HA), <- (Hx HA), <- (Hfold HA). reflexivity.
Qed.

Variable t : slots.
Hypothesis HInv : Inv func vs t.

Lemma node_read h a :
  0 <= a -> (a + 1) * pow2 h <= Z.of_nat (length vs) ->
  exists x, val func vs h a = Some x /\
    list_getitem (coord h a) t = (Ok (Some x), t) /\
    (Assoc (=) func ->
       Some x = fold1 func (slice vs (a * pow2 h) ((a + 1) * pow2 h))).
Proof.
  intros Ha Hc. destruct (val_Some func vs h a Ha Hc) as [x Hx].
  exists x. split; [exact Hx|]. destruct HInv as [Hb Hlen].
  pose proof (pow2_pos h). pose proof (coord_pos h a Ha). split.
  - apply list_getitem_in; [lia|]. rewrite <- Hx.
    apply (built_lookup func vs t h a Hb Ha). unfold coord. nia.
  - intros HA. rewrite <- Hx. now apply val_fold.
Qed.

(** The first [if] of a round. *)
Lemma query_left_spec h a acc i0 :
  0 <= i0 <= a * pow2 h ->
  (a + 1) * pow2 h <= Z.of_nat (length vs) ->
  accum func vs i0 (a * pow2 h) acc ->
  exists acc',
    query_left func (coord h a) acc (pow2 h) t
    = (Ok (coord h (a + (if Z.odd a then 1 else 0)), acc'), t) /\
    accum func vs i0 ((a + (if Z.odd a then 1 else 0)) * pow2 h) acc'.
Proof.
  intros Hlo Hc Hacc. pose proof (pow2_pos h).
  assert (0 <= a) as Ha by nia.
  unfold query_left. rewrite is_right_child. destruct (Z.odd a).
  - destruct (node_read h a Ha Hc) as (x & Hx & Hread & Hfold).
    exists (join func acc (Some x)). split.
    + rewrite shiftl_pow2, pow2_S.
      replace (coord h a + 2 * pow2 h) with (coord h (a + 1))
        by (unfold coord; lia).
      destruct acc; unfold bind; rewrite Hread; reflexivity.
    + apply (accum_snoc i0 (a * pow2 h)); auto; lia.
  - exists acc. rewrite Z.add_0_r. auto.
Qed.

(** The second [if] of a round. *)
Lemma query_right_spec h b acc j0 :
  0 < b -> b * pow2 h <= j0 -> j0 <= Z.of_nat (length vs) ->
  accum func vs (b * pow2 h) j0 acc ->
  exists acc',
    query_right func (coord h b) acc (pow2 h) t
    = (Ok (coord h (b - (if Z.odd b then 1 else 0)), acc'), t) /\
    accum func vs ((b - (if Z.odd b then 1 else 0)) * pow2 h) j0 acc'.
Proof.
  intros Hb Hhi Hj Hacc. pose proof (pow2_pos h).
  unfold query_right. rewrite is_right_child. destruct (Z.odd b).
  - destruct (node_read h (b - 1) ltac:(lia) ltac:(nia))
      as (x & Hx & Hread & Hfold).
    exists (join func (Some x) acc). split.
    + rewrite shiftl_pow2, pow2_S.
      replace (coord h b - 2 * pow2 h) with (coord h (b - 1))
        by (unfold coord; lia).
      destruct acc; unfold bind; rewrite Hread; reflexivity.
    + apply (accum_cons _ (b * pow2 h)); auto; try nia.
      intros HA. rewrite (Hfold HA). do 2 f_equal. lia.
  - exists acc. rewrite Z.sub_0_r. auto.
Qed.

(** The loop of [query] on a valid range: it returns, and the two
    accumulators split the range between them. *)
Lemma query_loop_spec i0 j0 :
  0 <= i0 < j0 -> j0 <= Z.of_nat (length vs) ->
  query_post func vs t i0 j0 (query_loop func i0 j0 t).
Proof.
  intros Hi Hj. unfold query_loop, bind.
  rewrite query_asserts_valid by (rewrite ?(Inv_size func vs t HInv); lia).
  rewrite !leaf_coord. unfold budget.
  apply (while_rule (query_inv func vs t i0 j0) (query_post func vs t i0 j0))
    with (n := length t).
  2:{ split; [reflexivity|]. exists O, i0, j0. simpl.
      unfold pow2. simpl. rewrite !Z.mul_1_r.
      repeat (split; [first [reflexivity | lia | apply accum_nil]|]). lia. }
  2:{ lia. }
  intros n s t'
    (-> & h & a & b & Ei & Ej & Ek & Hab & Hlo & Hhi & HL & HR & ->).
  pose proof (pow2_pos h) as Hk. pose proof (pow2_gt h) as Hgt.
  assert (0 <= a) as Ha by nia.
  exists (a <? b). split.
  { unfold query_cond, ret. rewrite Ei, Ej. f_equal. f_equal.
    unfold coord.
    destruct (Z.ltb_spec a b),
      (Z.ltb_spec (pow2 h * (2 * a + 1)) (pow2 h * (2 * b + 1)));
      auto; nia. }
  destruct (Z.ltb_spec a b) as [Hlt|Hge].
  - unfold query_body. rewrite Ei, Ej, Ek.
    destruct (query_left_spec h a (q_left s) i0 ltac:(lia) ltac:(nia) HL)
      as (L & EL & HL').
    destruct (query_right_spec h b (q_right s) j0 ltac:(lia) ltac:(lia) Hj HR)
      as (R & ER & HR').
    unfold bind. rewrite EL, ER. unfold ret. simpl fst. simpl snd.
    rewrite !parent_coord, shiftl_pow2.
    pose proof (odd_div2 a) as Hoa. pose proof (odd_div2 b) as Hob.
    set (a1 := a + (if Z.odd a then 1 else 0)) in *.
    set (b1 := b - (if Z.odd b then 1 else 0)) in *.
    assert (a1 = 2 * (a1 / 2) /\ b1 = 2 * (b1 / 2) /\ a <= a1 <= b1 /\ b1 <= b)
      as (Ea1 & Eb1 & Hle & Hle').
    { unfold a1, b1. destruct (Z.odd a), (Z.odd b).
      - replace (a + 1) with ((a / 2 + 1) * 2) by lia.
        replace (b - 1) with ((b / 2) * 2) by lia.
        rewrite !Z.div_mul by lia. lia.
      - replace (a + 1) with ((a / 2 + 1) * 2) by lia.
        replace (b - 0) with ((b / 2) * 2) by lia.
        rewrite !Z.div_mul by lia. lia.
      - replace (a + 0) with ((a / 2) * 2) by lia.
        replace (b - 1) with ((b / 2) * 2) by lia.
        rewrite !Z.div_mul by lia. lia.
      - replace (a + 0) with ((a / 2) * 2) by lia.
        replace (b - 0) with ((b / 2) * 2) by lia.
        rewrite !Z.div_mul by lia. lia. }
    exists (length t - S h)%nat. split.
    { destruct HInv as [_ Hlen]. nia. }
    split; [reflexivity|]. exists (S h), (a1 / 2), (b1 / 2). simpl.
    rewrite pow2_S.
    replace (a1 / 2 * (2 * pow2 h)) with (a1 * pow2 h) by lia.
    replace (b1 / 2 * (2 * pow2 h)) with (b1 * pow2 h) by lia.
    split; [reflexivity|]. split; [reflexivity|]. split; [reflexivity|].
    split; [lia|]. split; [nia|]. split; [nia|].
    split; [exact HL'|]. split; [exact HR' | reflexivity].
  - split; [reflexivity|]. exists s, (a * pow2 h). simpl.
    assert (a = b) as <- by lia.
    split; [reflexivity|]. split; [lia|]. split; [exact HL | exact HR].
Qed.

End Accumulators.

(** [query] on a valid range returns the fold of the range: [fold1] of
    the slice when [func] is associative, and some value in any case. *)
Lemma query_spec (vs : list T) (t : slots) i j :
  Inv func vs t -> 0 <= i < j -> j <= Z.of_nat (length vs) ->
  exists x, query func i j t = (Ok x, t) /\
    (Assoc (=) func -> Some x = fold1 func (slice vs i j)).
Proof.
  intros HI Hi Hj.
  pose proof (query_loop_spec vs t HI i j Hi Hj)
    as (Ht & s & m & Es & Hm & HL & HR).
  unfold query, bind. destruct (query_loop func i j t) as [r t'].
  simpl in Ht, Es. subst r t'.
  destruct HL as (HL0 & HL1 & HLf), HR as (HR0 & HR1 & HRf).
  assert (forall HA : Assoc (=) func,
            join func (q_left s) (q_right s) = fold1 func (slice vs i j))
    as Hjoin.
  { intros HA. rewrite <- (slice_app vs i m j) by lia.
    now rewrite (fold1_app func HA), <- HLf, <- HRf. }
  destruct (q_left s) as [l|], (q_right s) as [r|]; simpl in Hjoin.
  - exists (func l r). split; [reflexivity | auto].
  - exists l. split; [reflexivity | auto].
  - exists r. split; [reflexivity | auto].
  - destruct (Z.eq_dec i m) as [->|].
    + destruct (HR1 ltac:(lia)) as [? [=]].
    + destruct (HL1 ltac:(lia)) as [? [=]].
Qed.

(** The fold in the words of the spec computes [fold_left]. *)
Lemma fold_get_spec (vs : list T) (t : slots) count acc i :
  Inv func vs t -> 0 <= i -> i + Z.of_nat count <= Z.of_nat (length vs) ->
  fold_get func acc i count t
  = (Ok (fold_left func (slice vs i (i + Z.of_nat count)) acc), t).
Proof.
  intros HI. revert acc i. induction count as [|count IH]; intros acc i Hi Hc.
  - simpl. now rewrite Z.add_0_r, slice_nil.
  - simpl fold_get. unfold bind at 1. rewrite (getitem_in vs t) by (auto; lia).
    destruct (proj2 (zlookup_is_Some vs i) ltac:(lia)) as [x Hx].
    rewrite Hx. unfold bind, call, ret. rewrite IH by lia.
    rewrite (slice_cons vs i _ x) by (auto; lia). simpl.
    now replace (i + 1 + Z.of_nat count) with (i + Z.of_nat (S count)) by lia.
Qed.

Lemma naive_query_spec (vs : list T) (t : slots) i j :
  Inv func vs t -> 0 <= i < j -> j <= Z.of_nat (length vs) ->
  exists x, naive_query func i j t = (Ok x, t) /\
    Some x = fold1 func (slice vs i j).
Proof.
  intros HI Hi Hj. unfold naive_query, bind.
  rewrite (getitem_in vs t) by (auto; lia).
  destruct (proj2 (zlookup_is_Some vs i) ltac:(lia)) as [x Hx]. rewrite Hx.
  rewrite (fold_get_spec vs t) by (auto; lia).
  eexists. split; [reflexivity|].
  rewrite (slice_cons vs i j x) by (auto; lia). simpl.
  now replace (i + 1 + Z.of_nat (Z.to_nat (j - i - 1))) with j by lia.
Qed.

End Readers.

(** ** Buffers that hold the forest *)

Section Forests.

Context {T : Type}.
Variable func : T -> T -> T.
Context `{!OnNone func}.
Abbreviation slots := (list (option T)).

(** [__setitem__] outside [-n, n) raises at its first statement. *)
Lemma setitem_out (t : slots) n i v :
  Z.of_nat (length t) = 2 * n -> i < - n \/ n <= i ->
  setitem func i v t = (Raise OutOfRange, t).
Proof.
  intros Hlen Hi. unfold setitem, bind. rewrite leaf_coord, coord_0.
  now rewrite list_setitem_out by lia.
Qed.

(** The invariant determines the buffer. *)
Lemma Inv_unique (vs : list T) (t1 t2 : slots) :
  Inv func vs t1 -> Inv func vs t2 -> t1 = t2.
Proof.
  intros [(_ & H01 & Hn1) Hl1] [(_ & H02 & Hn2) Hl2].
  apply list_eq. intros i.
  destruct (Nat.lt_ge_cases i (length t1)) as [Hlt|Hge].
  - destruct i as [|i].
    + destruct (lookup_lt_is_Some_2 t1 0 Hlt) as [x Hx].
      destruct (lookup_lt_is_Some_2 t2 0 ltac:(lia)) as [y Hy].
      rewrite Hx, Hy. now rewrite (H01 x Hx), (H02 y Hy).
    + destruct (coord_decompose (Z.of_nat (S i)) ltac:(lia))
        as (h & a & Ha & E).
      replace (S i) with (Z.to_nat (coord h a)) by lia.
      rewrite Hn1, Hn2 by lia. reflexivity.
  - rewrite !lookup_ge_None_2 by lia. reflexivity.
Qed.

End Forests.

(** ** The loops never use up their budget *)

Section Termination.

Context {T : Type}.
Variable func : T -> T -> T.
Context `{!OnNone func}.
Abbreviation slots := (list (option T)).

Lemma list_getitem_cases c (t : slots) :
  (exists v, list_getitem c t = (Ok v, t)) \/
  list_getitem c t = (Raise OutOfRange, t).
Proof.
  unfold list_getitem. destruct (subscript _ c) as [i|]; [|now right].
  destruct (t !! i); [left; eauto | now right].
Qed.

Lemma list_setitem_cases c v (t : slots) :
  (exists t', list_setitem c v t = (Ok tt, t') /\ length t' = length t /\
              - Z.of_nat (length t) <= c < Z.of_nat (length t)) \/
  list_setitem c v t = (Raise OutOfRange, t).
Proof.
  unfold list_setitem, subscript.
  destruct (Z.leb_spec 0 c); destruct (Z.ltb_spec c (Z.of_nat (length t)));
    destruct (Z.leb_spec (- Z.of_nat (length t)) c); destruct (Z.ltb_spec c 0);
    simpl; try (now right); left; eexists;
    (split; [reflexivity | split; [apply length_insert | lia]]).
Qed.

Lemma coord_abs h a : pow2 h <= Z.abs (coord h a).
Proof.
  pose proof (pow2_pos h). unfold coord.
  rewrite Z.abs_mul, (Z.abs_eq (pow2 h)) by lia.
  assert (1 <= Z.abs (2 * a + 1)) by lia. nia.
Qed.

(** The loop of [__setitem__] ends for every subscript and every buffer:
    it runs out of slots to write before it runs out of rounds. *)
Lemma setitem_loop_terminates i (t : slots) :
  fst (budget (fun fuel => while fuel setitem_cond (setitem_body func)
                             (coord 0 i, 1)) t) <> Raise Diverged.
Proof.
  unfold budget.
  apply (while_rule (climb_inv (length t))
           (fun rt : outcome (Z * Z) * slots => fst rt <> Raise Diverged))
    with (n := length t); [| exists O, i; repeat split; lia | lia].
  generalize (length t) as len0. clear t.
  intros len0 n s t (h & a & -> & Hlen & ->).
  eexists. split; [reflexivity|].
  destruct (_ <? _); [|discriminate].
  unfold setitem_body. rewrite left_coord, right_coord, parent_coord.
  unfold bind at 1.
  destruct (list_getitem_cases (coord h (2 * (a / 2))) t) as [[x ->] | ->];
    [|discriminate].
  unfold bind at 1.
  destruct (list_getitem_cases (coord h (2 * (a / 2) + 1)) t) as [[y ->] | ->];
    [|discriminate].
  unfold bind at 1.
  destruct (call_cases func x y t) as [[v ->] | ->]; [|discriminate].
  unfold bind, ret.
  destruct (list_setitem_cases (coord (S h) (a / 2)) (Some v) t)
    as [(t' & -> & Hlen' & Hin) | ->]; [|discriminate].
  pose proof (coord_abs (S h) (a / 2)). pose proof (pow2_gt (S h)).
  exists (length t' - S h)%nat. split; [lia|].
  exists (S h), (a / 2). rewrite shiftl_pow2. repeat split; lia.
Qed.

(** [__setitem__] ends for every subscript and every buffer. *)
Theorem setitem_terminates i v (t : slots) :
  fst (setitem func i v t) <> Raise Diverged.
Proof.
  unfold setitem. rewrite leaf_coord. unfold bind at 1.
  destruct (list_setitem_cases (coord 0 i) (Some v) t)
    as [(t' & -> & _) | ->]; [|discriminate].
  unfold bind, ret. pose proof (setitem_loop_terminates i t') as H.
  destruct (budget _ t') as [[s|e] t'']; [discriminate|].
  simpl in *. congruence.
Qed.

(** [append] ends on every buffer. *)
Theorem append_terminates v (t : slots) :
  fst (append func v t) <> Raise Diverged.
Proof.
  unfold append, bind, list_len, list_extend. apply setitem_terminates.
Qed.

(** [__init__] ends, and returns, for every sequence of values. *)
Theorem init_terminates (values : list T) (t0 : slots) :
  fst (init func values t0) = Ok tt.
Proof. destruct (init_spec func values t0) as (t & -> & _). reflexivity. Qed.

Lemma query_left_cases h a acc (t : slots) :
  (exists e, query_left func (coord h a) acc (pow2 h) t = (Raise e, t) /\
             e <> Diverged) \/
  (exists acc', query_left func (coord h a) acc (pow2 h) t
                = (Ok (coord h (a + (if Z.odd a then 1 else 0)), acc'), t)).
Proof.
  unfold query_left. rewrite is_right_child. destruct (Z.odd a).
  - rewrite shiftl_pow2, pow2_S.
    replace (coord h a + 2 * pow2 h) with (coord h (a + 1))
      by (unfold coord; lia).
    destruct (list_getitem_cases (coord h a) t) as [[x Ex] | Ex].
    + destruct acc as [l|]; unfold bind; rewrite Ex; [|right; eauto].
      destruct (call_cases func (Some l) x t) as [[v Ev] | Ev]; rewrite Ev.
      * right. eauto.
      * left. eexists. split; [reflexivity | discriminate].
    + left. exists OutOfRange.
      destruct acc; unfold bind; rewrite Ex; split; auto; discriminate.
  - right. rewrite Z.add_0_r. eauto.
Qed.

Lemma query_right_cases h b acc (t : slots) :
  (exists e, query_right func (coord h b) acc (pow2 h) t = (Raise e, t) /\
             e <> Diverged) \/
  (exists acc', query_right func (coord h b) acc (pow2 h) t
                = (Ok (coord h (b - (if Z.odd b then 1 else 0)), acc'), t)).
Proof.
  unfold query_right. rewrite is_right_child. destruct (Z.odd b).
  - rewrite shiftl_pow2, pow2_S.
    replace (coord h b - 2 * pow2 h) with (coord h (b - 1))
      by (unfold coord; lia).
    destruct (list_getitem_cases (coord h (b - 1)) t) as [[x Ex] | Ex].
    + destruct acc as [r|]; unfold bind; rewrite Ex; [|right; eauto].
      destruct (call_cases func x (Some r) t) as [[v Ev] | Ev]; rewrite Ev.
      * right. eauto.
      * left. eexists. split; [reflexivity | discriminate].
    + left. exists OutOfRange.
      destruct acc; unfold bind; rewrite Ex; split; auto; discriminate.
  - right. rewrite Z.sub_0_r. eauto.
Qed.

(** [query] ends for all arguments and every buffer. *)
Theorem query_terminates i j (t : slots) :
  fst (query func i j t) <> Raise Diverged.
Proof.
  destruct (decide (0 <= i < j /\ j <= size t)) as [[Hi Hj]|Hn];
    [|now rewrite query_invalid].
  unfold query, bind at 1. 
  assert (fst (query_loop func i j t) <> Raise Diverged) as Hloop.
  { unfold query_loop, bind. rewrite query_asserts_valid by lia.
    rewrite !leaf_coord. unfold budget.
    apply (while_rule (span_inv t)
             (fun rt : outcome qstate * slots => fst rt <> Raise Diverged))
      with (n := length t); [| | lia].
    2:{ split; [reflexivity|]. exists O, i, j. simpl. unfold pow2. simpl.
        repeat split; lia. }
    intros n s t' (-> & h & a & b & Ei & Ej & Ek & Hab & Hb & ->).
    pose proof (pow2_pos h) as Hk. pose proof (pow2_gt h) as Hgt.
    eexists. split; [reflexivity|]. rewrite Ei, Ej.
    destruct (Z.ltb_spec (coord h a) (coord h b)) as [Hlt|Hge]; [|discriminate].
    assert (a < b) as Hab' by (unfold coord in Hlt; nia).
    unfold query_body. rewrite Ei, Ej, Ek. unfold bind at 1.
    destruct (query_left_cases h a (q_left s) t)
      as [(e & -> & He) | (L & ->)];
      [simpl; congruence|].
    unfold bind, ret.
    destruct (query_right_cases h b (q_right s) t)
      as [(e & -> & He) | (R & ->)];
      [simpl; congruence|].
    simpl fst. rewrite !parent_coord, shiftl_pow2.
    pose proof (odd_div2 a) as Hoa. pose proof (odd_div2 b) as Hob.
    assert (Z.of_nat (length t) = 2 * (Z.of_nat (length t) / 2)
                                  + Z.of_nat (length t) mod 2) as Hdiv
      by (apply Z.div_mod; lia).
    pose proof (Z.mod_pos_bound (Z.of_nat (length t)) 2 ltac:(lia)).
    unfold size in Hb. rewrite shiftr_1 in Hb.
    exists (length t - S h)%nat. split; [nia|].
    split; [reflexivity|].
    exists (S h), ((a + (if Z.odd a then 1 else 0)) / 2),
           ((b - (if Z.odd b then 1 else 0)) / 2). simpl.
    split; [reflexivity|]. split; [reflexivity|]. split; [reflexivity|].
    rewrite pow2_S. unfold size. rewrite shiftr_1.
    destruct (Z.odd a), (Z.odd b).
    - replace (a + 1) with ((a / 2 + 1) * 2) by lia.
      replace (b - 1) with ((b / 2) * 2) by lia.
      rewrite !Z.div_mul by lia. repeat split; nia.
    - replace (a + 1) with ((a / 2 + 1) * 2) by lia.
      replace (b - 0) with ((b / 2) * 2) by lia.
      rewrite !Z.div_mul by lia. repeat split; nia.
    - replace (a + 0) with ((a / 2) * 2) by lia.
      replace (b - 1) with ((b / 2) * 2) by lia.
      rewrite !Z.div_mul by lia. repeat split; nia.
    - replace (a + 0) with ((a / 2) * 2) by lia.
      replace (b - 0) with ((b / 2) * 2) by lia.
      rewrite !Z.div_mul by lia. repeat split; nia. }
  destruct (query_loop func i j t) as [[s|e] t'];
    [|simpl in *; congruence].
  now destruct (q_left s), (q_right s).
Qed.

End Termination.

(** ** Buffers with all complete nodes present *)

Section Present.

Context {T : Type}.
Variable func : T -> T -> T.
Context `{!OnNone func}.
Abbreviation slots := (list (option T)).

Lemma join_None_r (x : option T) : join func x None = x.
Proof. now destruct x. Qed.

Lemma join_assoc (x y z : option T) :
  Assoc (=) func ->
  join func x (join func y z) = join func (join func x y) z.
Proof.
  intros HA. destruct x, y, z; simpl; try reflexivity.
  now rewrite (assoc func).
Qed.

Lemma join_is_Some_l (x y : option T) : is_Some x -> is_Some (join func x y).
Proof. intros [a ->]. destruct y; simpl; eauto. Qed.

Lemma join_is_Some_r (x y : option T) : is_Some y -> is_Some (join func x y).
Proof. intros [a ->]. destruct x; simpl; eauto. Qed.

Lemma stored_Some (t : slots) h a x :
  stored t h a = Some x <-> t !! Z.to_nat (coord h a) = Some (Some x).
Proof.
  unfold stored. destruct (t !! _) as [[y|]|]; split; congruence.
Qed.

Lemma stored_eq (t t' : slots) h a :
  t' !! Z.to_nat (coord h a) = t !! Z.to_nat (coord h a) ->
  stored t' h a = stored t h a.
Proof. unfold stored. now intros ->. Qed.

(** The parents of the two ends of a range of nodes, as the loop of
    [query] computes them. *)
Lemma up_odd a : Z.odd a = true -> (a + 1) / 2 = a / 2 + 1.
Proof.
  intros E. pose proof (odd_div2 a) as H. rewrite E in H.
  replace (a + 1) with ((a / 2 + 1) * 2) by lia. apply Z.div_mul. lia.
Qed.

Lemma up_even a : Z.odd a = false -> (a + 1) / 2 = a / 2.
Proof.
  intros E. pose proof (odd_div2 a) as H. rewrite E in H.
  symmetry. apply (Z.div_unique (a + 1) 2 (a / 2) 1); lia.
Qed.

Lemma up_parent a : (a + (if Z.odd a then 1 else 0)) / 2 = (a + 1) / 2.
Proof.
  destruct (Z.odd a) eqn:E; [reflexivity|].
  now rewrite Z.add_0_r, up_even.
Qed.

Lemma down_parent b : (b - (if Z.odd b then 1 else 0)) / 2 = b / 2.
Proof.
  pose proof (odd_div2 b) as H. destruct (Z.odd b) eqn:E.
  - replace (b - 1) with ((b / 2) * 2) by lia. apply Z.div_mul. lia.
  - now rewrite Z.sub_0_r.
Qed.

Lemma halve_ends a b :
  a < b -> a <= 2 * ((a + 1) / 2) <= a + 1 /\ b - 1 <= 2 * (b / 2) <= b /\
           (a + 1) / 2 <= b / 2.
Proof.
  intros Hlt. pose proof (odd_div2 a) as Hoa. pose proof (odd_div2 b) as Hob.
  destruct (Z.odd a) eqn:Ea; [rewrite (up_odd a Ea) | rewrite (up_even a Ea)];
    destruct (Z.odd b); lia.
Qed.

(** More rounds than nodes change nothing. *)
Lemma span_rounds (t : slots) r r' h a b :
  (Z.to_nat (b - a) <= r)%nat -> (Z.to_nat (b - a) <= r')%nat ->
  span func t r h a b = span func t r' h a b.
Proof.
  revert r' h a b. induction r as [|r IH]; intros r' h a b Hr Hr'.
  - assert (b <= a) as Hle by lia.
    destruct r'; simpl; [reflexivity|].
    destruct (Z.ltb_spec a b); [lia | reflexivity].
  - destruct r' as [|r'].
    + assert (b <= a) as Hle by lia. simpl.
      destruct (Z.ltb_spec a b); [lia | reflexivity].
    + simpl. destruct (Z.ltb_spec a b) as [Hlt|]; [|reflexivity].
      pose proof (halve_ends a b Hlt).
      rewrite (IH r'); [reflexivity | lia | lia].
Qed.

Lemma cover_empty (t : slots) h a b : b <= a -> cover func t h a b = None.
Proof.
  intros Hle. unfold cover. replace (Z.to_nat (b - a)) with O by lia.
  reflexivity.
Qed.

Lemma cover_step (t : slots) h a b :
  a < b ->
  cover func t h a b
  = join func
      (join func (lead t h a) (cover func t (S h) ((a + 1) / 2) (b / 2)))
      (trail t h b).
Proof.
  intros Hlt. unfold cover.
  destruct (Z.to_nat (b - a)) as [|r] eqn:Er; [lia|].
  simpl. destruct (Z.ltb_spec a b); [|lia].
  pose proof (halve_ends a b Hlt).
  rewrite (span_rounds t r (Z.to_nat (b / 2 - (a + 1) / 2)));
    [reflexivity | lia | lia].
Qed.

(** The result depends on the nodes inside the range only. *)
Lemma cover_frame (t t' : slots) h a b :
  0 <= a ->
  (forall h' a', a * pow2 h <= a' * pow2 h' ->
     (a' + 1) * pow2 h' <= b * pow2 h ->
     stored t' h' a' = stored t h' a') ->
  cover func t' h a b = cover func t h a b.
Proof.
  intros Ha. remember (Z.to_nat (b - a)) as r eqn:Er.
  revert h a b Ha Er.
  induction (lt_wf r) as [r _ IH]. intros h a b Ha Er Hsame.
  destruct (Z.lt_ge_cases a b) as [Hlt|Hge];
    [|now rewrite !cover_empty by lia].
  rewrite (cover_step t h a b), (cover_step t' h a b) by exact Hlt.
  pose proof (halve_ends a b Hlt) as (Ha1 & Hb1 & Hab).
  pose proof (pow2_pos h) as Hk.
  rewrite (IH (Z.to_nat (b / 2 - (a + 1) / 2)) ltac:(lia) (S h)
             ((a + 1) / 2) (b / 2) ltac:(lia) eq_refl).
  2:{ intros h' a' Hge Hle. rewrite pow2_S in Hge, Hle.
      apply Hsame; nia. }
  unfold lead, trail.
  destruct (Z.odd a); [rewrite (Hsame h a ltac:(lia) ltac:(nia))|];
    (destruct (Z.odd b);
       [rewrite (Hsame h (b - 1) ltac:(nia) ltac:(nia))|]); reflexivity.
Qed.


Section OnPresent.

Variable t : slots.
Hypothesis Hpresent : present t.

Lemma present_length : Z.of_nat (length t) = 2 * size t.
Proof.
  destruct Hpresent as [[N HN] _]. unfold size. rewrite shiftr_1, HN.
  rewrite Nat2Z.inj_mul. change (Z.of_nat 2) with 2.
  rewrite (Z.mul_comm 2), Z.div_mul by lia. lia.
Qed.

Lemma present_read h a :
  0 <= a -> (a + 1) * pow2 h <= size t ->
  exists x, stored t h a = Some x /\
            list_getitem (coord h a) t = (Ok (Some x), t).
Proof.
  intros Ha Hc. pose proof present_length as Hl.
  pose proof (pow2_pos h). pose proof (coord_pos h a Ha).
  destruct Hpresent as (_ & _ & Hp).
  destruct (Hp h a Ha) as [x Hx]; [unfold coord; nia|].
  exists x. split; [exact Hx|].
  apply list_getitem_in; [lia|]. now apply stored_Some.
Qed.

Lemma lead_is_Some h a :
  0 <= a -> (a + 1) * pow2 h <= size t -> Z.odd a = true ->
  is_Some (lead t h a).
Proof.
  intros Ha Hc Eo. unfold lead. rewrite Eo.
  destruct (present_read h a Ha Hc) as (x & -> & _). eauto.
Qed.

Lemma trail_is_Some h b :
  0 < b -> b * pow2 h <= size t -> Z.odd b = true ->
  is_Some (trail t h b).
Proof.
  intros Hb Hc Eo. unfold trail. rewrite Eo.
  destruct (present_read h (b - 1) ltac:(lia)
              ltac:(replace (b - 1 + 1) with b by lia; exact Hc))
    as (x & -> & _). eauto.
Qed.

Lemma cover_is_Some h a b :
  0 <= a < b -> b * pow2 h <= size t -> is_Some (cover func t h a b).
Proof.
  remember (Z.to_nat (b - a)) as r eqn:Er. revert h a b Er.
  induction (lt_wf r) as [r _ IH]. intros h a b Er Hab Hb.
  rewrite cover_step by lia.
  pose proof (halve_ends a b ltac:(lia)) as (Ha1 & Hb1 & Hab1).
  pose proof (pow2_pos h) as Hk.
  destruct (Z.odd a) eqn:Eoa.
  { apply join_is_Some_l, join_is_Some_l, lead_is_Some; [lia | nia | auto]. }
  destruct (Z.odd b) eqn:Eob.
  { apply join_is_Some_r, trail_is_Some; [lia | nia | auto]. }
  unfold lead, trail. rewrite Eoa, Eob, join_None_r. simpl.
  pose proof (odd_div2 a) as Hoa. pose proof (odd_div2 b) as Hob.
  rewrite Eoa in Hoa. rewrite Eob in Hob. rewrite (up_even a Eoa) in *.
  apply (IH (Z.to_nat (b / 2 - a / 2))); [lia | reflexivity | lia |].
  rewrite pow2_S. nia.
Qed.

(** The first [if] of a round. *)
Lemma query_left_present h a acc :
  0 <= a -> (a + 1) * pow2 h <= size t ->
  query_left func (coord h a) acc (pow2 h) t
  = (Ok (coord h (a + (if Z.odd a then 1 else 0)),
         join func acc (lead t h a)), t).
Proof.
  intros Ha Hc. unfold query_left, lead. rewrite is_right_child.
  destruct (Z.odd a).
  - destruct (present_read h a Ha Hc) as (x & -> & Hread).
    rewrite shiftl_pow2, pow2_S.
    replace (coord h a + 2 * pow2 h) with (coord h (a + 1))
      by (unfold coord; lia).
    destruct acc; unfold bind; rewrite Hread; reflexivity.
  - now rewrite Z.add_0_r, join_None_r.
Qed.

(** The second [if] of a round. *)
Lemma query_right_present h b acc :
  0 < b -> b * pow2 h <= size t ->
  query_right func (coord h b) acc (pow2 h) t
  = (Ok (coord h (b - (if Z.odd b then 1 else 0)),
         join func (trail t h b) acc), t).
Proof.
  intros Hb Hc. unfold query_right, trail. rewrite is_right_child.
  destruct (Z.odd b).
  - destruct (present_read h (b - 1) ltac:(lia)
                ltac:(replace (b - 1 + 1) with b by lia; exact Hc))
      as (x & -> & Hread).
    rewrite shiftl_pow2, pow2_S.
    replace (coord h b - 2 * pow2 h) with (coord h (b - 1))
      by (unfold coord; lia).
    destruct acc; unfold bind; rewrite Hread; reflexivity.
  - now rewrite Z.sub_0_r.
Qed.

(** The loop of [query] on a valid range returns with a value in one of
    its accumulators, and for an associative [func] the two make up
    what [cover] describes. *)
Lemma query_loop_present i0 j0 :
  0 <= i0 < j0 -> j0 <= size t ->
  cover_post func t i0 j0 (query_loop func i0 j0 t).
Proof.
  intros Hi Hj. unfold query_loop, bind.
  rewrite query_asserts_valid by lia.
  rewrite !leaf_coord. unfold budget.
  apply (while_rule (cover_inv func t i0 j0) (cover_post func t i0 j0))
    with (n := length t).
  2:{ split; [reflexivity|]. exists O, i0, j0.
      cbn [q_i q_j q_k q_left q_right].
      unfold pow2 at 2 3 4 5. simpl (2 ^ Z.of_nat 0). rewrite !Z.mul_1_r.
      split; [reflexivity|]. split; [reflexivity|]. split; [reflexivity|].
      split; [lia|]. split; [lia|]. split; [lia|]. split; [lia|].
      split; [lia|]. split; [intros _; apply join_None_r | lia]. }
  2:{ lia. }
  intros n s t'
    (-> & h & a & b & Ei & Ej & Ek & Hab & Hlo & Hhi & HL & HR & Hsum & ->).
  pose proof (pow2_pos h) as Hk. pose proof (pow2_gt h) as Hgt.
  pose proof present_length as Hl.
  exists (a <? b). split.
  { unfold query_cond, ret. rewrite Ei, Ej. f_equal. f_equal.
    unfold coord.
    destruct (Z.ltb_spec a b),
      (Z.ltb_spec (pow2 h * (2 * a + 1)) (pow2 h * (2 * b + 1)));
      auto; nia. }
  destruct (Z.ltb_spec a b) as [Hlt|Hge].
  - unfold query_body. rewrite Ei, Ej, Ek.
    unfold bind.
    rewrite (query_left_present h a (q_left s)) by nia.
    rewrite (query_right_present h b (q_right s)) by nia.
    unfold ret. simpl fst. simpl snd.
    rewrite !parent_coord, shiftl_pow2, up_parent, down_parent.
    pose proof (halve_ends a b Hlt) as (Ha1 & Hb1 & Hab1).
    pose proof (odd_div2 a) as Hoa. pose proof (odd_div2 b) as Hob.
    exists (length t - S h)%nat. split; [nia|].
    split; [reflexivity|]. exists (S h), ((a + 1) / 2), (b / 2). simpl.
    rewrite pow2_S.
    split; [reflexivity|]. split; [reflexivity|]. split; [reflexivity|].
    split; [lia|]. split; [nia|]. split; [nia|].
    split; [|split; [|split; [|reflexivity]]].
    + intros Hmoved. destruct (Z.odd a) eqn:Eoa.
      * apply join_is_Some_r, lead_is_Some; [lia | nia | exact Eoa].
      * unfold lead. rewrite Eoa, join_None_r. apply HL.
        rewrite (up_even a Eoa) in Hmoved. nia.
    + intros Hmoved. destruct (Z.odd b) eqn:Eob.
      * apply join_is_Some_l, trail_is_Some; [lia | nia | exact Eob].
      * unfold trail. rewrite Eob. apply HR. nia.
    + intros HA. rewrite <- (Hsum HA), (cover_step t h a b Hlt).
      now rewrite !(join_assoc _ _ _ HA).
  - assert (a = b) as <- by lia.
    split; [reflexivity|]. exists s. split; [reflexivity|]. split.
    + destruct (Z.eq_dec i0 (a * pow2 h)) as [E|Hne];
        [right; apply HR; lia | left; apply HL; lia].
    + intros HA. specialize (Hsum HA).
      rewrite cover_empty, join_None_r in Hsum by lia. exact Hsum.
Qed.

(** [query] on a valid range returns, whatever [func] is. *)
Lemma query_returns i j :
  0 <= i < j -> j <= size t ->
  exists s x, query_loop func i j t = (Ok s, t) /\
    (is_Some (q_left s) \/ is_Some (q_right s)) /\
    query func i j t = (Ok x, t) /\
    (Assoc (=) func -> cover func t 0 i j = Some x).
Proof.
  intros Hi Hj.
  pose proof (query_loop_present i j Hi Hj) as (Ht & s & Es & Hsome & Hs).
  unfold query, bind. destruct (query_loop func i j t) as [r t'].
  simpl in Ht, Es. subst r t'.
  exists s. destruct (q_left s) as [l|], (q_right s) as [r|]; simpl in Hs.
  - exists (func l r). split; [reflexivity|]. split; [exact Hsome|].
    split; [reflexivity|]. intros HA. now rewrite <- Hs.
  - exists l. split; [reflexivity|]. split; [exact Hsome|].
    split; [reflexivity|]. intros HA. now rewrite <- Hs.
  - exists r. split; [reflexivity|]. split; [exact Hsome|].
    split; [reflexivity|]. intros HA. now rewrite <- Hs.
  - destruct Hsome as [[? [=]] | [? [=]]].
Qed.

(** With an associative [func] it returns what [cover] describes. *)
Lemma query_present i j :
  Assoc (=) func -> 0 <= i < j -> j <= size t ->
  exists x, query func i j t = (Ok x, t) /\ cover func t 0 i j = Some x.
Proof.
  intros HA Hi Hj.
  destruct (query_returns i j Hi Hj) as (s & x & _ & _ & Eq & Hx).
  exists x. auto.
Qed.

End OnPresent.

End Present.

(** ** The methods that write, on any buffer *)

Section WritersAnywhere.

Context {T : Type}.
Variable func : T -> T -> T.
Context `{!OnNone func}.
Abbreviation slots := (list (option T)).

Lemma list_getitem_range c (t : slots) :
  (exists x, list_getitem c t = (Ok x, t) /\
             - Z.of_nat (length t) <= c < Z.of_nat (length t)) \/
  list_getitem c t = (Raise OutOfRange, t).
Proof.
  unfold list_getitem, subscript.
  destruct (Z.leb_spec 0 c); destruct (Z.ltb_spec c (Z.of_nat (length t)));
    destruct (Z.leb_spec (- Z.of_nat (length t)) c); destruct (Z.ltb_spec c 0);
    simpl; try (now right);
    (destruct (t !! _); [left; eexists; split; [reflexivity | lia]
                        | now right]).
Qed.

Lemma grown_refl (t : slots) : grown t t.
Proof. split; [reflexivity|]. split; [reflexivity | eauto]. Qed.

Lemma grown_insert (t0 t : slots) c w :
  c <> 0%nat -> grown t0 t -> grown t0 (<[c := Some w]> t).
Proof.
  intros Hc (Hlen & H0 & Hg). split; [now rewrite length_insert|]. split.
  - now rewrite list_lookup_insert_ne.
  - intros c' x Hx. destruct (Hg c' x Hx) as [y Hy].
    destruct (decide (c = c')) as [->|Hne].
    + exists w. rewrite list_lookup_insert_eq; [reflexivity|].
      now apply lookup_lt_Some in Hy.
    + exists y. now rewrite list_lookup_insert_ne.
Qed.

(** A write that is not to slot 0. *)
Lemma list_setitem_grown (t0 t : slots) c w :
  c <> 0 -> c <> - Z.of_nat (length t) -> grown t0 t ->
  (exists t', list_setitem c (Some w) t = (Ok tt, t') /\ grown t0 t' /\
              - Z.of_nat (length t) <= c < Z.of_nat (length t)) \/
  list_setitem c (Some w) t = (Raise OutOfRange, t).
Proof.
  intros Hc Hc' Hg. unfold list_setitem, subscript.
  destruct (Z.leb_spec 0 c); destruct (Z.ltb_spec c (Z.of_nat (length t)));
    destruct (Z.leb_spec (- Z.of_nat (length t)) c); destruct (Z.ltb_spec c 0);
    simpl; try (now right); left; eexists;
    (split; [reflexivity | split; [apply grown_insert; [lia | exact Hg]
                                  | lia]]).
Qed.

Lemma present_grown (t t' : slots) : present t -> grown t t' -> present t'.
Proof.
  intros ([N HN] & H0 & Hp) (Hlen & H0' & Hg).
  split; [exists N; lia|]. split; [now rewrite H0'|].
  intros h a Ha Hc. rewrite Hlen in Hc.
  destruct (Hp h a Ha Hc) as [x Hx]. apply stored_Some in Hx.
  destruct (Hg _ x Hx) as [y Hy]. exists y. now apply stored_Some.
Qed.

(** The loop of [__setitem__], from any leaf and on any buffer, loses no
    value and no slot, and leaves slot 0 alone: before it writes the
    parent it has read the left child, which lies below. *)
Lemma setitem_loop_grown i (t0 t : slots) :
  grown t0 t ->
  grown t0 (snd (budget (fun fuel => while fuel setitem_cond
                                       (setitem_body func) (coord 0 i, 1)) t)).
Proof.
  intros Hg. unfold budget.
  apply (while_rule (grown_inv t0)
           (fun rt : outcome (Z * Z) * slots => grown t0 (snd rt)))
    with (n := length t0).
  3:{ destruct Hg. lia. }
  2:{ exists O, i. split; [reflexivity|]. split; [exact Hg | lia]. }
  clear t Hg. intros n s t (h & a & -> & Hg & ->).
  eexists. split; [reflexivity|].
  destruct (_ <? _); [|exact Hg].
  unfold setitem_body. rewrite left_coord, right_coord, parent_coord.
  unfold bind at 1.
  destruct (list_getitem_range (coord h (2 * (a / 2))) t)
    as [(x & -> & Hleft) | ->]; [|exact Hg].
  unfold bind at 1.
  destruct (list_getitem_cases (coord h (2 * (a / 2) + 1)) t) as [[y ->] | ->];
    [|exact Hg].
  unfold bind at 1.
  destruct (call_cases func x y t) as [[w ->] | ->]; [|exact Hg].
  unfold bind, ret.
  pose proof (coord_abs (S h) (a / 2)) as Habs.
  pose proof (pow2_pos (S h)) as Hk. pose proof (pow2_gt (S h)).
  assert (coord (S h) (a / 2) = coord h (2 * (a / 2)) + pow2 h) as Ep
    by (unfold coord; rewrite pow2_S; lia).
  pose proof (pow2_pos h).
  destruct (list_setitem_grown t0 t (coord (S h) (a / 2)) w
              ltac:(lia) ltac:(lia) Hg)
    as [(t' & -> & Hg' & Hin) | ->]; [|exact Hg].
  destruct Hg as [Hlen _].
  exists (length t0 - S h)%nat. split; [lia|].
  exists (S h), (a / 2). rewrite shiftl_pow2.
  split; [reflexivity|]. split; [exact Hg' | reflexivity].
Qed.

(** [__setitem__], with any subscript and whether it returns or raises,
    loses no value and no slot, and leaves slot 0 alone. *)
Lemma setitem_grown i v (t : slots) :
  (exists N : nat, length t = (2 * N)%nat) ->
  grown t (snd (setitem func i v t)).
Proof.
  intros [N HN]. unfold setitem. rewrite leaf_coord. unfold bind at 1.
  destruct (list_setitem_grown t t (coord 0 i) v
              ltac:(rewrite coord_0; lia) ltac:(rewrite coord_0; lia)
              (grown_refl t))
    as [(t' & -> & Hg & _) | ->]; [|apply grown_refl].
  unfold bind, ret. pose proof (setitem_loop_grown i t t' Hg) as H.
  now destruct (budget _ t') as [[s|e] t''].
Qed.

(** The constructor leaves all complete nodes present. *)
Lemma Inv_present (vs : list T) (t : slots) : Inv func vs t -> present t.
Proof.
  intros [Hb Hlen]. split; [eauto|]. split; [apply Hb|].
  intros h a Ha Hc. pose proof (pow2_pos h).
  destruct (val_Some func vs h a Ha) as [x Hx]; [unfold coord in Hc; nia|].
  exists x. apply stored_Some. rewrite <- Hx.
  apply (built_lookup func vs t h a Hb Ha). lia.
Qed.

(** The subtrees of the ancestors of a leaf grow with the height. *)
Lemma ancestor_end_mono i h h' :
  0 <= i -> (h <= h')%nat ->
  (i / pow2 h + 1) * pow2 h <= (i / pow2 h' + 1) * pow2 h'.
Proof.
  intros Hi Hh. replace h' with (h + (h' - h))%nat by lia.
  rewrite pow2_add. set (d := (h' - h)%nat).
  pose proof (pow2_pos h) as Hk. pose proof (pow2_pos d) as Hd.
  pose proof (div_pow2_bounds h i) as Hb.
  pose proof (Z.mul_succ_div_gt i (pow2 h * pow2 d) ltac:(nia)) as Hb'.
  set (q := i / pow2 h) in *. set (q' := i / (pow2 h * pow2 d)) in *.
  assert (pow2 h * q < pow2 h * ((q' + 1) * pow2 d)) as Hlt by lia.
  apply Z.mul_lt_mono_pos_l in Hlt; [|exact Hk].
  assert (q + 1 <= (q' + 1) * pow2 d) as Hle by lia.
  apply (Z.mul_le_mono_nonneg_r _ _ (pow2 h)) in Hle; lia.
Qed.

Section Append.

Variable t : slots.
Variable v : T.
Hypothesis Hpresent : present t.

Abbreviation n := (size t).

Lemma size_nonneg : 0 <= n.
Proof. pose proof (present_length t Hpresent). lia. Qed.

(** The loop of [append]: it climbs as long as the node it stands on is
    a right child, reads complete nodes only, and stops below the first
    node whose subtree is not complete yet. *)
Lemma append_loop (t1 : slots) :
  t1 = <[Z.to_nat (coord 0 n) := Some v]> (t ++ [None; None]) ->
  spine_post func t v
    (budget (fun fuel => while fuel setitem_cond (setitem_body func)
                           (coord 0 n, 1)) t1).
Proof.
  intros Et1. pose proof (present_length t Hpresent) as Hl.
  pose proof size_nonneg as Hn.
  assert (length t1 = (length t + 2)%nat) as Hl1.
  { subst t1. rewrite length_insert, length_app. reflexivity. }
  unfold budget.
  apply (while_rule (spine_inv func t v) (spine_post func t v))
    with (n := length t1); [| | lia].
  2:{ exists O. rewrite div_pow2_0. unfold pow2 at 1 2. simpl (2 ^ _).
      split; [reflexivity|]. split; [lia|]. split; [exact Hl1|].
      split; [lia|]. split.
      { intros x. subst t1. rewrite list_lookup_insert_ne
          by (rewrite coord_0; lia).
        destruct Hpresent as (_ & H0 & _). destruct t as [|y t'].
        - simpl. congruence.
        - simpl. apply H0. }
      assert (stored t1 0 n = Some v) as Hleaf.
      { apply stored_Some. subst t1. rewrite list_lookup_insert_eq;
          [reflexivity|]. rewrite length_app, coord_0. simpl. lia. }
      split; [rewrite Hleaf; eauto|]. split; [exact Hleaf|]. split; [|lia].
      intros h' a Ha Hc. pose proof (pow2_pos h').
      pose proof (coord_pos h' a Ha) as Hpos.
      assert (coord h' a < 2 * n) as Hlt by (unfold coord; nia).
      subst t1. rewrite list_lookup_insert_ne by (rewrite coord_0; lia).
      apply lookup_app_l. lia. }
  clear t1 Et1 Hl1.
  intros m s tc
    (h & -> & Hfull & Hlen & -> & H0 & [x Hx] & Hleaf & Hold & Hlink).
  cbv zeta in Hx, Hfull, Hleaf, Hold, Hlink.
  set (a := n / pow2 h) in *.
  pose proof (pow2_pos h) as Hk. pose proof (pow2_gt h) as Hgt.
  assert (0 <= a) as Ha by (apply div_pow2_nonneg; exact Hn).
  pose proof (odd_div2 a) as Hoa.
  eexists. split; [reflexivity|]. rewrite right_coord.
  destruct (Z.odd a) eqn:Eodd; try rewrite Eodd in Hoa.
  - (* a right child: the loop goes on *)
    destruct (Z.ltb_spec (coord h (2 * (a / 2) + 1)) (Z.of_nat (length tc)))
      as [_|Hge]; [|unfold coord in Hge; nia].
    unfold setitem_body. rewrite left_coord, right_coord, parent_coord.
    replace (2 * (a / 2) + 1) with a by lia.
    replace (2 * (a / 2)) with (a - 1) by lia.
    assert ((a - 1 + 1) * pow2 h <= size t) as Hleft
      by (replace (a - 1 + 1) with a by lia; nia).
    assert (0 <= a - 1) as Ha1 by lia.
    destruct (present_read t Hpresent h (a - 1) Ha1 Hleft)
      as (l & Hl' & _).
    assert (tc !! Z.to_nat (coord h (a - 1)) = Some (Some l)) as Hread.
    { rewrite Hold by nia. now apply stored_Some. }
    pose proof (coord_pos h (a - 1) Ha1).
    pose proof (coord_pos h a Ha).
    apply stored_Some in Hx.
    unfold bind at 1.
    rewrite (list_getitem_in tc (coord h (a - 1)) (Some l) ltac:(lia) Hread).
    unfold bind at 1.
    rewrite (list_getitem_in tc (coord h a) (Some x) ltac:(lia) Hx).
    unfold bind at 1. simpl call. unfold ret at 1.
    assert (coord (S h) (a / 2) = 2 * (a * pow2 h)) as Ep
      by (unfold coord; rewrite pow2_S; nia).
    unfold bind, ret.
    rewrite list_setitem_in by nia.
    set (p := coord (S h) (a / 2)) in *.
    set (tc' := <[Z.to_nat p := Some (func l x)]> tc).
    assert (forall h' a', 0 <= a' -> (h', a') <> (S h, a / 2) ->
              tc' !! Z.to_nat (coord h' a') = tc !! Z.to_nat (coord h' a'))
      as Hother.
    { intros h' a' Ha' Hne. unfold tc'. apply list_lookup_insert_ne.
      pose proof (coord_pos h' a' Ha'). pose proof (pow2_pos h').
      intros E. apply Hne. apply Z2Nat.inj in E; [|nia|lia].
      unfold p in E. symmetry in E.
      destruct (coord_inj _ _ _ _ E) as [-> ->]. reflexivity. }
    assert (stored tc' (S h) (a / 2) = Some (func l x)) as Hnew.
    { apply stored_Some. unfold tc'. fold p.
      apply list_lookup_insert_eq. nia. }
    exists (length tc' - S h)%nat.
    assert (length tc' = length tc) as Hlen' by apply length_insert.
    split; [nia|].
    exists (S h). rewrite (div_pow2_S h n). fold a.
    rewrite shiftl_pow2. split; [reflexivity|].
    split; [rewrite pow2_S; nia|]. split; [lia|]. split; [reflexivity|].
    split.
    { unfold tc'. rewrite list_lookup_insert_ne by nia. exact H0. }
    split; [rewrite Hnew; eauto|]. split.
    { rewrite <- Hleaf. apply stored_eq. apply Hother; [exact Hn|].
      intros [=]. }
    split.
    { intros h' a' Ha' Hc. rewrite <- (Hold h' a' Ha' Hc).
      apply Hother; [exact Ha'|]. intros [= -> ->].
      rewrite pow2_S in Hc. nia. }
    intros h' Hh'. destruct (decide (h' = h)) as [->|Hne].
    + exists l, x. fold a. split; [exact Hl'|]. split.
      * apply stored_Some. rewrite <- Hx. apply Hother; [exact Ha|].
        intros [= E]. lia.
      * rewrite (div_pow2_S h n). exact Hnew.
    + destruct (Hlink h' ltac:(lia)) as (l' & x' & E1 & E2 & E3).
      exists l', x'. split; [exact E1|]. split.
      * rewrite <- E2. apply stored_eq.
        apply Hother; [apply div_pow2_nonneg; exact Hn|].
        intros [= E]. lia.
      * rewrite <- E3. apply stored_eq.
        apply Hother; [apply div_pow2_nonneg; exact Hn|].
        intros [= E]. lia.
  - (* a left child: its sibling lies beyond the buffer *)
    destruct (Z.ltb_spec (coord h (2 * (a / 2) + 1)) (Z.of_nat (length tc)))
      as [Hlt|_]; [unfold coord in Hlt; nia|].
    split; [simpl; eauto|]. simpl snd. unfold appended.
    split; [exact Hlen|]. split; [exact H0|]. split; [exact Hleaf|].
    split; [exact Hold|].
    intros h' Hfull' Hodd'. apply Hlink.
    destruct (Nat.lt_ge_cases h' h) as [|Hge]; [assumption|exfalso].
    replace h' with (h + (h' - h))%nat in Hfull', Hodd' by lia.
    rewrite pow2_add in Hfull', Hodd'.
    set (q := n / (pow2 h * pow2 (h' - h))) in *.
    pose proof (pow2_pos (h' - h)) as Hd.
    pose proof (odd_div2 q) as Hoq. rewrite Hodd' in Hoq.
    assert (a + 1 = 2 * ((q / 2 + 1) * pow2 (h' - h))) by nia.
    lia.
Qed.

(** [append] on a buffer with all complete nodes present returns. *)
Lemma append_present :
  exists t', append func v t = (Ok tt, t') /\ appended func t v t'.
Proof.
  pose proof (present_length t Hpresent) as Hl.
  pose proof size_nonneg as Hn.
  unfold append, bind at 1, list_len. unfold bind at 1, list_extend.
  fold (size t).
  unfold setitem. rewrite leaf_coord. unfold bind at 1.
  rewrite list_setitem_in by (rewrite length_app, coord_0; simpl; lia).
  pose proof (append_loop _ eq_refl) as [[s Hs] Happ].
  unfold bind, ret.
  destruct (budget _ _) as [r t']. simpl in Hs, Happ. subst r.
  exists t'. split; [reflexivity | exact Happ].
Qed.

(** And all complete nodes are present afterwards. *)
Lemma appended_present (t' : slots) : appended func t v t' -> present t'.
Proof.
  intros (Hlen & H0 & Hleaf & Hold & Hlink).
  pose proof (present_length t Hpresent) as Hl.
  pose proof size_nonneg as Hn.
  destruct Hpresent as ([N HN] & _ & Hp). split; [exists (S N); lia|].
  split; [exact H0|].
  intros h a Ha Hc. pose proof (pow2_pos h) as Hk.
  assert ((a + 1) * pow2 h <= n + 1) as Hc' by (unfold coord in Hc; nia).
  destruct (Z.le_gt_cases ((a + 1) * pow2 h) n) as [Hle|Hgt].
  { rewrite (stored_eq t t' h a (Hold h a Ha Hle)).
    apply Hp; [exact Ha|]. unfold coord. nia. }
  assert (a = n / pow2 h) as Ea by (apply div_pow2_unique; nia).
  destruct h as [|h].
  { rewrite div_pow2_0 in Ea. subst a. rewrite Hleaf. eauto. }
  set (q := n / pow2 h).
  pose proof (div_pow2_bounds h n) as Hq. fold q in Hq.
  pose proof (pow2_pos h) as Hk'.
  rewrite (div_pow2_S h n) in Ea. fold q in Ea.
  pose proof (odd_div2 q) as Hoq. rewrite pow2_S in Hc', Hgt.
  destruct (Z.odd q) eqn:Eodd; [|nia].
  destruct (Hlink h ltac:(fold q; nia) Eodd) as (l & x & _ & _ & E).
  rewrite (div_pow2_S h n) in E. fold q in E. rewrite <- Ea in E.
  rewrite E. eauto.
Qed.

End Append.

Section Setitem.

Variable t : slots.
Variable i : Z.
Variable v : T.
Hypothesis Hpresent : present t.
Hypothesis Hi : 0 <= i < size t.

Abbreviation n := (size t).

(** The loop of [__setitem__] from a leaf inside the range: every read
    and every write is inside the buffer, every node below a complete
    ancestor holds a value, and the loop can only stop early at a
    sibling that is [None]. *)
Lemma setitem_loop_path (t1 : slots) :
  t1 = <[Z.to_nat (coord 0 i) := Some v]> t ->
  path_post func t i v
    (budget (fun fuel => while fuel setitem_cond (setitem_body func)
                           (coord 0 i, 1)) t1).
Proof.
  intros Et1. pose proof (present_length t Hpresent) as Hl.
  assert (length t1 = length t) as Hl1
    by (subst t1; apply length_insert).
  unfold budget.
  apply (while_rule (path_inv func t i v) (path_post func t i v))
    with (n := length t1); [| | lia].
  2:{ exists O. rewrite div_pow2_0. unfold pow2 at 1. simpl (2 ^ _).
      split; [reflexivity|]. split; [exact Hl1|]. split; [lia|].
      split.
      { subst t1. apply list_lookup_insert_ne. rewrite coord_0. lia. }
      assert (stored t1 0 i = Some v) as Hleaf.
      { apply stored_Some. subst t1. apply list_lookup_insert_eq.
        rewrite coord_0. lia. }
      split; [rewrite Hleaf; eauto|]. split; [exact Hleaf|]. split; [|lia].
      intros h' a Ha Hne. subst t1. apply list_lookup_insert_ne.
      pose proof (coord_pos h' a Ha). pose proof (pow2_pos h').
      intros E. apply Z2Nat.inj in E; [|rewrite coord_0; lia|lia].
      destruct (coord_inj _ _ _ _ E) as [<- <-].
      now rewrite div_pow2_0 in Hne. }
  clear t1 Et1 Hl1.
  intros m s tc
    (h & -> & Hlen & -> & H0 & [x Hx] & Hleaf & Hframe & Hjoin).
  set (a := i / pow2 h) in *.
  pose proof (pow2_pos h) as Hk. pose proof (pow2_gt h) as Hgt.
  assert (0 <= a) as Ha by (apply div_pow2_nonneg; lia).
  assert (0 <= a / 2) as Ha2 by (apply Z.div_pos; lia).
  pose proof (odd_div2 a) as Hoa.
  pose proof (div_pow2_bounds h i) as Hb. fold a in Hb.
  assert (i / pow2 (S h) = a / 2) as Eup by apply div_pow2_S.
  (* the ancestors above a node whose parent is not complete are not
     complete either *)
  assert (n < (a / 2 + 1) * pow2 (S h) ->
          forall h', (i / pow2 (S h') + 1) * pow2 (S h') <= n ->
                     (h' < h)%nat) as Habove.
  { intros Hinc h' Hc. destruct (Nat.lt_ge_cases h' h); [assumption|].
    pose proof (ancestor_end_mono i (S h) (S h') ltac:(lia) ltac:(lia)).
    rewrite Eup in *. lia. }
  eexists. split; [reflexivity|]. rewrite right_coord.
  destruct (Z.ltb_spec (coord h (2 * (a / 2) + 1)) (Z.of_nat (length tc)))
    as [Hlt|Hge].
  2:{ (* the right child starts beyond the buffer *)
      split; [|left; simpl; eauto]. simpl snd.
      split; [exact Hlen|]. split; [exact H0|]. split; [exact Hleaf|].
      split; [exact Hframe|].
      intros h' Hc. apply Hjoin; [|exact Hc]. apply Habove; [|exact Hc].
      unfold coord in Hge. rewrite pow2_S. nia. }
  unfold setitem_body. rewrite left_coord, right_coord, parent_coord.
  pose proof (coord_pos h (2 * (a / 2)) ltac:(lia)) as Hpl.
  assert (coord h (2 * (a / 2)) < coord (S h) (a / 2)
          < coord h (2 * (a / 2) + 1)) as Hord
    by (rewrite coord_S; unfold coord; nia).
  destruct (lookup_lt_is_Some_2 tc (Z.to_nat (coord h (2 * (a / 2))))
              ltac:(lia)) as [xl Hxl].
  destruct (lookup_lt_is_Some_2 tc (Z.to_nat (coord h (2 * (a / 2) + 1)))
              ltac:(lia)) as [xr Hxr].
  unfold bind at 1.
  rewrite (list_getitem_in tc (coord h (2 * (a / 2))) xl ltac:(lia) Hxl).
  unfold bind at 1.
  rewrite (list_getitem_in tc (coord h (2 * (a / 2) + 1)) xr ltac:(lia) Hxr).
  (* the sibling is as it was before the call *)
  assert (forall a', 0 <= a' -> a' <> a -> (a' + 1) * pow2 h <= n ->
            exists y, tc !! Z.to_nat (coord h a') = Some (Some y)) as Hsib.
  { intros a' Ha' Hne Hc. rewrite (Hframe h a' Ha' Hne).
    destruct (present_read t Hpresent h a' Ha' Hc) as (y & Hy & _).
    exists y. now apply stored_Some. }
  apply stored_Some in Hx.
  (* the left operand is the ancestor, or a sibling whose subtree lies
     below leaf [i] and is complete: it holds a value *)
  destruct xl as [l|].
  2:{ exfalso. destruct (Z.odd a) eqn:Eodd.
      - destruct (Hsib (a - 1) ltac:(lia) ltac:(lia)
                    ltac:(replace (a - 1 + 1) with a by lia; nia)) as [y Hy].
        replace (2 * (a / 2)) with (a - 1) in Hxl by lia. congruence.
      - replace (2 * (a / 2)) with a in Hxl by lia. congruence. }
  (* a right operand that is [None] is the sibling, and a gap *)
  assert (xr = None -> Z.odd a = false /\ n < (a + 2) * pow2 h) as Hgap.
  { intros ->. destruct (Z.odd a) eqn:Eodd.
    - replace (2 * (a / 2) + 1) with a in Hxr by lia. congruence.
    - split; [reflexivity|].
      destruct (Z.le_gt_cases ((a + 2) * pow2 h) n) as [Hle|]; [|lia].
      destruct (Hsib (a + 1) ltac:(lia) ltac:(lia)
                  ltac:(replace (a + 1 + 1) with (a + 2) by lia; exact Hle))
        as [y Hy].
      replace (2 * (a / 2) + 1) with (a + 1) in Hxr by lia. congruence. }
  unfold bind at 1.
  destruct (call_cases func (Some l) xr tc) as [[w Ew] | Ew]; rewrite Ew.
  2:{ (* [func] raises: the right operand is [None] *)
      destruct xr as [r|]; [rewrite call_values in Ew; discriminate Ew|].
      destruct (Hgap eq_refl) as [Eodd Hinc]. rewrite Eodd in Hoa.
      unfold path_post. simpl snd. simpl fst.
      split; [|right; split; [reflexivity|]].
      - split; [exact Hlen|]. split; [exact H0|]. split; [exact Hleaf|].
        split; [exact Hframe|].
        intros h' Hc. apply Hjoin; [|exact Hc]. apply Habove; [|exact Hc].
        rewrite pow2_S. nia.
      - exists h. unfold sibling_gap. fold a.
        rewrite <- Z.negb_odd, Eodd. split; [reflexivity|].
        replace (2 * (a / 2) + 1) with (a + 1) in Hlt by lia.
        split; [lia|]. unfold coord. nia. }
  (* [func] returns: the parent is written *)
  assert (forall r, xr = Some r -> w = func l r) as Hw.
  { intros r ->. rewrite call_values in Ew. congruence. }
  unfold bind, ret. rewrite list_setitem_in by lia.
  set (p := coord (S h) (a / 2)) in *.
  set (tc' := <[Z.to_nat p := Some w]> tc).
  assert (forall h' a', 0 <= a' -> (h', a') <> (S h, a / 2) ->
            tc' !! Z.to_nat (coord h' a') = tc !! Z.to_nat (coord h' a'))
    as Hother.
  { intros h' a' Ha' Hne. unfold tc'. apply list_lookup_insert_ne.
    pose proof (coord_pos h' a' Ha'). pose proof (pow2_pos h').
    intros E. apply Hne. apply Z2Nat.inj in E; [|lia|lia].
    unfold p in E. symmetry in E.
    destruct (coord_inj _ _ _ _ E) as [-> ->]. reflexivity. }
  assert (stored tc' (S h) (a / 2) = Some w) as Hnew.
  { apply stored_Some. unfold tc'. fold p.
    apply list_lookup_insert_eq. lia. }
  assert (length tc' = length tc) as Hlen' by apply length_insert.
  exists (length tc' - S h)%nat. split; [lia|].
  exists (S h). rewrite Eup, shiftl_pow2.
  split; [reflexivity|]. split; [lia|]. split; [reflexivity|].
  split.
  { unfold tc'. rewrite list_lookup_insert_ne by lia. exact H0. }
  split; [rewrite Hnew; eauto|]. split.
  { rewrite <- Hleaf. apply stored_eq. apply Hother; [lia|]. intros [=]. }
  split.
  { intros h' a' Ha' Hne. rewrite <- (Hframe h' a' Ha' Hne).
    apply Hother; [exact Ha'|]. intros [= -> ->]. now rewrite Eup in Hne. }
  intros h' Hh' Hc. destruct (decide (h' = h)) as [->|Hne].
  - (* a complete parent has both children *)
    destruct xr as [r|].
    2:{ exfalso. destruct (Hgap eq_refl) as [Eodd Hinc].
        rewrite Eodd in Hoa. rewrite Eup, pow2_S in Hc. nia. }
    rewrite (Hw r eq_refl) in Hnew.
    exists l, r. rewrite Eup. split; [|split; [|exact Hnew]].
    + apply stored_Some. rewrite <- Hxl. apply Hother; [lia|].
      intros [= E]. lia.
    + apply stored_Some. rewrite <- Hxr. apply Hother; [lia|].
      intros [= E]. lia.
  - destruct (Hjoin h' ltac:(lia) Hc) as (l' & r' & E1 & E2 & E3).
    assert (0 <= i / pow2 (S h')) as Hq
      by (apply div_pow2_nonneg; lia).
    exists l', r'. split; [|split].
    + rewrite <- E1. apply stored_eq. apply Hother; [lia|].
      intros [= E]. lia.
    + rewrite <- E2. apply stored_eq. apply Hother; [lia|].
      intros [= E]. lia.
    + rewrite <- E3. apply stored_eq. apply Hother; [lia|].
      intros [= E]. lia.
Qed.

(** [__setitem__] inside the range. *)
Lemma setitem_path :
  exists r t',
    setitem func i v t = (r, t') /\ updated func t i v t' /\
    (r = Ok tt \/
     (r = Raise AbsentOperand /\ exists h, sibling_gap n i h)).
Proof.
  pose proof (present_length t Hpresent) as Hl.
  unfold setitem. rewrite leaf_coord. unfold bind at 1.
  rewrite list_setitem_in by (rewrite coord_0; lia).
  pose proof (setitem_loop_path _ eq_refl) as [Hup Hres].
  unfold bind, ret.
  destruct (budget _ _) as [[s|e] t']; simpl in Hup, Hres.
  - exists (Ok tt), t'. split; [reflexivity|]. split; [exact Hup | now left].
  - exists (Raise e), t'. split; [reflexivity|]. split; [exact Hup|].
    destruct Hres as [[s Hs] | [He Hgap]]; [discriminate Hs|].
    injection He as ->. right. auto.
Qed.

End Setitem.

(** Every reachable buffer has all its complete nodes present. *)
Lemma reachable_present (t : slots) : reachable func t -> present t.
Proof.
  induction 1 as [values | t i v _ IH | t v _ IH
                 | t i _ IH | t i j _ IH | t _ IH].
  - destruct (init_spec func values []) as (t & E & HI).
    rewrite E. apply (Inv_present values), HI.
  - apply (present_grown t); [exact IH|].
    apply setitem_grown. apply IH.
  - destruct (append_present t v IH) as (t' & E & Happ).
    rewrite E. apply (appended_present t v IH t' Happ).
  - now rewrite getitem_pure.
  - now rewrite query_pure.
  - exact IH.
Qed.

End WritersAnywhere.

(** ** What a caller observes on any buffer *)

Section ObservationsAnywhere.

Context {T : Type}.
Variable func : T -> T -> T.
Context `{!OnNone func}.
Abbreviation slots := (list (option T)).

Lemma lowbit_span h a :
  coord h a + lowbit (coord h a) = 2 * ((a + 1) * pow2 h).
Proof. rewrite lowbit_coord. unfold coord. lia. Qed.

(** A slot whose subtree fits into the buffer is the slot of a complete
    node. *)
Lemma complete_node (t : slots) c :
  present t -> 0 < c -> c + lowbit c <= Z.of_nat (length t) ->
  exists h a, c = coord h a /\ 0 <= a /\ (a + 1) * pow2 h <= size t.
Proof.
  intros Hp Hc Hfit. destruct (coord_decompose c Hc) as (h & a & Ha & ->).
  exists h, a. split; [reflexivity|]. split; [exact Ha|].
  rewrite lowbit_span, (present_length t Hp) in Hfit. lia.
Qed.

(** A read at a subscript that means the same slot in two buffers. *)
Lemma list_getitem_same (t t' : slots) c :
  0 <= c -> length t' = length t ->
  t' !! Z.to_nat c = t !! Z.to_nat c ->
  fst (list_getitem c t') = fst (list_getitem c t).
Proof.
  intros Hc Hlen E. unfold list_getitem, subscript. rewrite Hlen.
  destruct (Z.leb_spec 0 c); [|lia].
  destruct (Z.ltb_spec c (Z.of_nat (length t))); simpl.
  - rewrite E. now destruct (t !! _).
  - destruct (Z.leb_spec (- Z.of_nat (length t)) c);
      destruct (Z.ltb_spec c 0); simpl; try reflexivity; lia.
Qed.






Section AfterAppend.

Variable t t' : slots.
Variable v : T.
Hypothesis Hpresent : present t.
Hypothesis Happ : appended func t v t'.

Abbreviation n := (size t).

Lemma appended_size : size t' = n + 1.
Proof.
  destruct Happ as (Hlen & _). pose proof (present_length t Hpresent) as Hl.
  unfold size at 1. rewrite shiftr_1, Hlen, Nat2Z.inj_add, Hl.
  replace (2 * n + Z.of_nat 2) with ((n + 1) * 2) by lia.
  now rewrite Z.div_mul.
Qed.


(** A query of an old range reads nodes that [append] left alone. *)
Lemma cover_kept a b :
  0 <= a -> b <= n -> cover func t' 0 a b = cover func t 0 a b.
Proof.
  intros Ha Hb. destruct Happ as (_ & _ & _ & Hold & _).
  apply cover_frame; [exact Ha|].
  intros h' a' Hge Hle. unfold pow2 at 1 in Hge. unfold pow2 at 2 in Hle.
  simpl in Hge, Hle. pose proof (pow2_pos h').
  apply stored_eq, Hold; nia.
Qed.

End AfterAppend.

Section AfterSetitem.

Variable t t' : slots.
Variable i : Z.
Variable v : T.
Hypothesis Hi : 0 <= i.
Hypothesis Hup : updated func t i v t'.

Abbreviation n := (size t).

Lemma updated_size : size t' = n.
Proof. destruct Hup as (Hlen & _). unfold size. now rewrite Hlen. Qed.

(** A query of a range without leaf [i] reads no ancestor of it. *)
Lemma cover_beside a b :
  0 <= a -> i < a \/ b <= i -> cover func t' 0 a b = cover func t 0 a b.
Proof.
  intros Ha Hout. destruct Hup as (_ & _ & _ & Hframe & _).
  apply cover_frame; [exact Ha|].
  intros h' a' Hge Hle. unfold pow2 at 1 in Hge. unfold pow2 at 2 in Hle.
  simpl in Hge, Hle. pose proof (pow2_pos h').
  apply stored_eq, Hframe; [nia|].
  intros ->. pose proof (div_pow2_bounds h' i). lia.
Qed.


End AfterSetitem.

End ObservationsAnywhere.

(** * The properties of the specification *)

Section Claims.

Context {T : Type}.
Variable func : T -> T -> T.
Context `{!OnNone func}.
Abbreviation slots := (list (option T)).

Lemma coord_span h a :
  (coord (S h) a - pow2 (S h)) / 2 = a * pow2 (S h) /\
  (coord (S h) a + pow2 (S h)) / 2 = (a + 1) * pow2 (S h).
Proof.
  unfold coord. rewrite pow2_S. split.
  - replace (2 * pow2 h * (2 * a + 1) - 2 * pow2 h)
      with (a * (2 * pow2 h) * 2) by lia.
    apply Z.div_mul. lia.
  - replace (2 * pow2 h * (2 * a + 1) + 2 * pow2 h)
      with ((a + 1) * (2 * pow2 h) * 2) by lia.
    apply Z.div_mul. lia.
Qed.

(** On a buffer that holds the forest over its elements, as the
    constructor, [append] and every [set] inside the range leave it, and
    with an associative (not necessarily commutative) [func],
    [query(i, j)] on a valid range [0 <= i < j <= n] returns what folding
    [get(i)], [get(i+1)], ..., [get(j-1)] from left to right returns,
    with the operands in index order. *)
Lemma query_is_left_fold (vs : list T) (t : slots) i j :
  Assoc (=) func -> Inv func vs t ->
  0 <= i < j -> j <= size t ->
  exists x, query func i j t = (Ok x, t) /\
            naive_query func i j t = (Ok x, t).
Proof.
  intros HA HI Hi Hj.
  rewrite (Inv_size func vs t HI) in Hj.
  destruct (query_spec func vs t i j HI Hi Hj) as (x & Eq & Hx).
  destruct (naive_query_spec func vs t i j HI Hi Hj) as (y & En & Hy).
  exists x. split; [exact Eq|]. rewrite En. specialize (Hx HA). congruence.
Qed.

(** On such a buffer, with an associative [func], every internal slot
    [c] (even, not 0) that is not [None] roots a subtree that is complete
    under the current element count, and holds the left-to-right fold of
    exactly the leaves of that subtree; the subtree of [c] reaches
    [lowbit c] coordinates to either side. *)
Lemma aggregates_are_folds (vs : list T) (t : slots) c x :
  Assoc (=) func -> Inv func vs t ->
  0 < c < Z.of_nat (length t) -> Z.even c = true ->
  t !! Z.to_nat c = Some (Some x) ->
  (c + lowbit c) / 2 <= size t /\
  naive_query func ((c - lowbit c) / 2) ((c + lowbit c) / 2) t = (Ok x, t).
Proof.
  intros HA HI Hc Heven Hx.
  destruct (coord_decompose c ltac:(lia)) as (h & a & Ha & ->).
  destruct h as [|h].
  { rewrite coord_0, Z.add_comm, Z.even_add_mul_2 in Heven. discriminate. }
  rewrite lowbit_coord. destruct (coord_span h a) as [-> ->].
  destruct HI as [Hb Hlen] eqn:EI. clear EI.
  pose proof (built_lookup func vs t (S h) a Hb Ha ltac:(lia)) as Hv.
  assert (val func vs (S h) a = Some x) as Hval by congruence.
  clear Hx Hv.
  assert ((a + 1) * pow2 (S h) <= Z.of_nat (length vs)) as Hcomplete.
  { apply (val_is_Some func vs (S h) a Ha). rewrite Hval. eauto. }
  rewrite (Inv_size func vs t (conj Hb Hlen)). split; [exact Hcomplete|].
  pose proof (pow2_pos (S h)).
  destruct (naive_query_spec func vs t (a * pow2 (S h)) ((a + 1) * pow2 (S h))
              (conj Hb Hlen) ltac:(nia) Hcomplete) as (y & En & Hy).
  rewrite En. rewrite <- (val_fold func HA vs (S h) a Ha Hcomplete) in Hy.
  congruence.
Qed.

(** C5: for every non-empty sequence [S] and every [func], the buffer
    constructed from [S] and the buffer constructed from [S[:-1]] and
    then extended by [append(S[-1])] give the same result for every
    [get] and every [query]; both constructions succeed. *)
Theorem init_equals_init_append (values : list T) v :
  last values = Some v ->
  let direct := init func values [] in
  let stepwise :=
    bind (init func (removelast values)) (fun _ => append func v) [] in
  fst direct = Ok tt /\ fst stepwise = Ok tt /\
  (forall i, getitem i (snd direct) = getitem i (snd stepwise)) /\
  (forall i j, query func i j (snd direct) = query func i j (snd stepwise)).
Proof.
  intros Hlast. apply last_Some in Hlast as [front ->].
  rewrite removelast_last. unfold bind.
  destruct (init_spec func (front ++ [v]) []) as (t1 & E1 & HI1).
  destruct (init_spec func front []) as (t0 & E0 & HI0).
  destruct (append_spec func front v t0 HI0) as (t2 & E2 & HI2).
  rewrite E1, E0, E2. simpl.
  rewrite (Inv_unique func _ t1 t2 HI1 HI2). auto.
Qed.




(** A negative subscript inside [-n, 0) reads the leaf it counts back
    to. *)
Lemma getitem_wraps (t : slots) i :
  present t -> - size t <= i < 0 ->
  exists x, getitem i t = (Ok (Some x), t) /\
            t !! Z.to_nat (2 * (size t + i) + 1) = Some (Some x) /\
            getitem (size t + i) t = (Ok (Some x), t).
Proof.
  intros Hp Hi. pose proof (present_length t Hp) as Hl.
  rewrite (getitem_negative t (size t) i Hl Hi).
  destruct (present_read t Hp 0 (size t + i) ltac:(lia))
    as (x & Hx & Hread).
  { unfold pow2. simpl. lia. }
  exists x. unfold getitem. rewrite leaf_coord.
  split; [exact Hread|]. split; [|exact Hread].
  rewrite <- coord_0. now apply stored_Some.
Qed.

(** C10: on every reachable buffer with [n >= 1] elements and every
    [i] with [-n <= i < 0], [get(i)] does not raise and returns the
    element at position [n + i]: the value in the leaf slot
    [2 * (n + i) + 1], which is what [get(n + i)] returns. *)
Theorem getitem_negative_index (t : slots) i :
  reachable func t -> 1 <= size t -> - size t <= i < 0 ->
  exists x, getitem i t = (Ok (Some x), t) /\
            t !! Z.to_nat (2 * (size t + i) + 1) = Some (Some x) /\
            getitem (size t + i) t = (Ok (Some x), t).
Proof.
  intros Hr Hn Hi. apply getitem_wraps; [|exact Hi].
  now apply (reachable_present func).
Qed.

(** C6, as the code has it: on every reachable buffer with [n] elements,
    [get(i)] raises the out-of-range error exactly when [i < -n] or
    [i >= n], and returns a value otherwise; [set(i, v)] raises it when
    [i < -n] or [i >= n] and does not raise it when [0 <= i < n];
    [query(i, j)] raises the invalid-range error exactly when not
    [0 <= i < j <= n], so [query(i, i)] is rejected; with [n = 0] every
    [get], [set] and [query] raises and [append] succeeds. *)
Theorem range_errors (t : slots) :
  reachable func t ->
  let n := size t in
  (forall i, fst (getitem i t) = Raise OutOfRange <-> (i < - n \/ n <= i)) /\
  (forall i, - n <= i < n -> exists x, getitem i t = (Ok (Some x), t)) /\
  (forall i v, i < - n \/ n <= i ->
     fst (setitem func i v t) = Raise OutOfRange) /\
  (forall i v, 0 <= i < n -> fst (setitem func i v t) <> Raise OutOfRange) /\
  (forall i j, fst (query func i j t) = Raise InvalidRange
               <-> ~ (0 <= i < j /\ j <= n)) /\
  (forall i, fst (query func i i t) = Raise InvalidRange) /\
  (n = 0 -> forall i j v,
     fst (getitem i t) = Raise OutOfRange /\
     fst (setitem func i v t) = Raise OutOfRange /\
     fst (query func i j t) = Raise InvalidRange /\
     fst (append func v t) = Ok tt).
Proof.
  intros Hr n. pose proof (reachable_present func t Hr) as Hp.
  pose proof (present_length t Hp) as Hl. fold n in Hl.
  assert (forall i, - n <= i < n -> exists x, getitem i t = (Ok (Some x), t))
    as Hget.
  { intros i Hi. destruct (Z.lt_ge_cases i 0).
    - destruct (getitem_wraps t i Hp ltac:(fold n; lia)) as (x & E & _).
      eauto.
    - destruct (present_read t Hp 0 i ltac:(lia)) as (x & _ & Hread).
      { unfold pow2. simpl. fold n. lia. }
      exists x. unfold getitem. now rewrite leaf_coord. }
  assert (forall i j, fst (query func i j t) = Raise InvalidRange
                      <-> ~ (0 <= i < j /\ j <= n)) as Hquery.
  { intros i j. split.
    - intros E [Hi Hj].
      destruct (query_returns func t Hp i j Hi Hj) as (s & x & _ & _ & Eq & _).
      rewrite Eq in E. discriminate.
    - intros Hn. now rewrite query_invalid. }
  split; [|split; [exact Hget|split; [|split; [|split; [exact Hquery|split]]]]].
  - intros i. split.
    + intros E. destruct (Z.lt_ge_cases i (- n)); [lia|].
      destruct (Z.lt_ge_cases i n); [|lia].
      destruct (Hget i ltac:(lia)) as [x Ex]. rewrite Ex in E. discriminate.
    + intros Hi. now rewrite (getitem_out t n).
  - intros i v Hi. now rewrite (setitem_out func t n).
  - intros i v Hi.
    destruct (setitem_path func t i v Hp Hi) as (r & t' & E & _ & Hres).
    rewrite E. simpl.
    destruct Hres as [-> | [-> _]]; discriminate.
  - intros i. apply Hquery. lia.
  - intros Hn0 i j v. split; [|split; [|split]].
    + rewrite (getitem_out t n); [reflexivity | exact Hl | lia].
    + rewrite (setitem_out func t n); [reflexivity | exact Hl | lia].
    + apply Hquery. lia.
    + destruct (append_present func t v Hp) as (t' & E & _). now rewrite E.
Qed.

End Claims.

(** * Concrete runs *)

Lemma Z_add_assoc : Assoc (=) Z.add.
Proof. intros x y z. apply Z.add_assoc. Defined.

Lemma words_app_assoc : Assoc (=) (@app Z).
Proof. intros x y z. apply app_assoc. Defined.

(** C1: the scenario of the spec, run on the code.  Every value of the
    scenario is as stated, but [set(2, 15)] after [append(7)] does not
    return: with 14 slots the climb reaches slot 4, finds the coordinate
    12 of the right sibling inside the buffer and applies [func] to
    [tree[4]] and [tree[12]], and [tree[12]] is [None].  The leaf and the
    two aggregates below are already written by then, so the reads that
    follow see the values of the scenario. *)
Theorem scenario_set_raises :
  fst (query Z.add 0 6 scenario_six) = Ok 21 /\
  fst (query Z.add 2 5 scenario_six) = Ok 12 /\
  fst (getitem 3 scenario_six) = Ok (Some 4) /\
  fst (append Z.add 7 scenario_six) = Ok tt /\
  fst (len scenario_seven) = Ok 7 /\
  fst (query Z.add 0 7 scenario_seven) = Ok 28 /\
  setitem Z.add 2 15 scenario_seven
  = (Raise AbsentOperand,
     [None; Some 1; Some 3; Some 2; Some 22; Some 15; Some 19; Some 4;
      None; Some 5; Some 11; Some 6; None; Some 7]) /\
  scenario_seven !! 12%nat = Some None /\
  fst (getitem 2 (snd (setitem Z.add 2 15 scenario_seven))) = Ok (Some 15) /\
  fst (query Z.add 0 3 (snd (setitem Z.add 2 15 scenario_seven))) = Ok 18.
Proof. vm_compute. repeat split; reflexivity. Qed.

(** C4: [func] is applied to an absent operand.  On the buffer built
    from seven values, [set(0, 10)] is inside the range, and its climb
    calls [func(tree[4], tree[12])] with [tree[12]] being [None]. *)
Theorem set_applies_func_to_None :
  reachable Z.add built_seven /\
  0 <= 0 < size built_seven /\
  built_seven !! 12%nat = Some None /\
  fst (setitem Z.add 0 10 built_seven) = Raise AbsentOperand.
Proof.
  split; [apply reach_init|]. vm_compute. repeat split; congruence.
Qed.

(** With an operator that accepts [None] the same call goes on.  Under
    [max] with [None] taken for 0, [set(0, 10)] on seven values calls
    [func(tree[4], tree[12])] as well, writes the result to slot 8, a
    node whose subtree is not complete, and returns. *)
Example set_with_tolerant_func :
  snd (init Z.max [1; 2; 3; 4; 5; 6; 7] []) !! 12%nat = Some None /\
  setitem Z.max 0 10 (snd (init Z.max [1; 2; 3; 4; 5; 6; 7] []))
  = (Ok tt,
     [None; Some 10; Some 10; Some 2; Some 10; Some 3; Some 4; Some 4;
      Some 10; Some 5; Some 6; Some 6; None; Some 7]).
Proof. vm_compute. split; reflexivity. Qed.

(** C7: a failing call that has already written.  On the buffer built
    from five values, [set(-1, 9)] raises the out-of-range error, but
    only after it wrote the leaf and climbed through negative
    coordinates: slots 9, 8 and 6 are changed, and [query(2, 4)], which
    was 7, is 23 afterwards. *)
Theorem set_negative_writes_then_raises :
  reachable Z.add built_five /\
  ~ (0 <= -1 < size built_five) /\
  fst (query Z.add 2 4 built_five) = Ok 7 /\
  built_five
  = [None; Some 1; Some 3; Some 2; Some 10; Some 3; Some 7; Some 4;
     None; Some 5] /\
  setitem Z.add (-1) 9 built_five
  = (Raise OutOfRange,
     [None; Some 1; Some 3; Some 2; Some 10; Some 3; Some 23; Some 4;
      Some 13; Some 9]) /\
  fst (query Z.add 2 4 (snd (setitem Z.add (-1) 9 built_five))) = Ok 23.
Proof.
  split; [apply reach_init|]. split; [lia|].
  vm_compute. repeat split; reflexivity.
Qed.

(** C2: a query that is not the fold of the elements.  On the buffer
    built from five values [set(-1, 9)] raises, as in C7, and the caller
    is left with a buffer in which [get(2)] and [get(3)] return 3 and 4,
    whose fold is 7, while [query(2, 4)] returns 23, the content of
    slot 6 that the failed call wrote. *)
Theorem query_differs_from_fold :
  reachable Z.add after_failed_set /\
  fst (setitem Z.add (-1) 9 built_five) = Raise OutOfRange /\
  size after_failed_set = 5 /\
  getitem 2 after_failed_set = (Ok (Some 3), after_failed_set) /\
  getitem 3 after_failed_set = (Ok (Some 4), after_failed_set) /\
  naive_query Z.add 2 4 after_failed_set = (Ok 7, after_failed_set) /\
  query Z.add 2 4 after_failed_set = (Ok 23, after_failed_set).
Proof.
  split; [apply reach_setitem, reach_init|].
  vm_compute. repeat split; reflexivity.
Qed.

(** C3: aggregates that are no folds.  In the buffer [set(-1, 9)] leaves
    of the five values when it raises, slot 6, whose subtree is the
    leaves 2 and 3, holds 23 where the elements 3 and 4 fold to 7, and
    slot 8, whose subtree would need eight elements, holds 13 although
    there are five. *)
Theorem stale_and_early_aggregates :
  reachable Z.add after_failed_set /\
  after_failed_set
  = [None; Some 1; Some 3; Some 2; Some 10; Some 3; Some 23; Some 4;
     Some 13; Some 9] /\
  size after_failed_set = 5 /\
  after_failed_set !! 6%nat = Some (Some 23) /\
  (6 - lowbit 6) / 2 = 2 /\ (6 + lowbit 6) / 2 = 4 /\
  naive_query Z.add 2 4 after_failed_set = (Ok 7, after_failed_set) /\
  after_failed_set !! 8%nat = Some (Some 13) /\
  size after_failed_set < (8 + lowbit 8) / 2.
Proof.
  split; [apply reach_setitem, reach_init|].
  vm_compute. repeat split; reflexivity.
Qed.

(** C6 as stated fails: on the reachable buffer of one element, [-1]
    lies outside [0, n), and [get(-1)] raises nothing and returns the
    element. *)
Lemma get_outside_range_returns :
  reachable Z.add built_one /\
  size built_one = 1 /\
  ~ (0 <= -1 < size built_one) /\
  getitem (-1) built_one = (Ok (Some 7), built_one) /\
  fst (getitem (-1) built_one) <> Raise OutOfRange.
Proof.
  split; [apply reach_init|]. split; [reflexivity|]. split; [lia|].
  split; [reflexivity | discriminate].
Qed.

(** ** The general theorems at concrete inputs *)

Lemma init_equals_init_append_three :
  let direct := init Z.add [1; 2; 3] [] in
  let stepwise := bind (init Z.add (removelast [1; 2; 3]))
                    (fun _ => append Z.add 3) [] in
  fst direct = Ok tt /\ fst stepwise = Ok tt /\
  (forall i, getitem i (snd direct) = getitem i (snd stepwise)) /\
  (forall i j, query Z.add i j (snd direct) = query Z.add i j (snd stepwise)).
Proof. apply (init_equals_init_append Z.add [1; 2; 3] 3). reflexivity. Defined.



Lemma getitem_negative_index_six :
  exists x, getitem (-2) scenario_six = (Ok (Some x), scenario_six) /\
            scenario_six !! Z.to_nat (2 * (size scenario_six + -2) + 1)
            = Some (Some x) /\
            getitem (size scenario_six + -2) scenario_six
            = (Ok (Some x), scenario_six).
Proof.
  apply (getitem_negative_index Z.add scenario_six (-2)
           (reach_init Z.add [1; 2; 3; 4; 5; 6])).
  - change (size scenario_six) with 6. lia.
  - change (size scenario_six) with 6. lia.
Defined.

Lemma range_errors_five :
  let t := built_five in
  let n := size t in
  (forall i, fst (getitem i t) = Raise OutOfRange <-> (i < - n \/ n <= i)) /\
  (forall i, - n <= i < n -> exists x, getitem i t = (Ok (Some x), t)) /\
  (forall i v, i < - n \/ n <= i ->
     fst (setitem Z.add i v t) = Raise OutOfRange) /\
  (forall i v, 0 <= i < n -> fst (setitem Z.add i v t) <> Raise OutOfRange) /\
  (forall i j, fst (query Z.add i j t) = Raise InvalidRange
               <-> ~ (0 <= i < j /\ j <= n)) /\
  (forall i, fst (query Z.add i i t) = Raise InvalidRange) /\
  (n = 0 -> forall i j v,
     fst (getitem i t) = Raise OutOfRange /\
     fst (setitem Z.add i v t) = Raise OutOfRange /\
     fst (query Z.add i j t) = Raise InvalidRange /\
     fst (append Z.add v t) = Ok tt).
Proof.
  apply (range_errors Z.add built_five (reach_init Z.add [1; 2; 3; 4; 5])).
Defined.

(** * Further properties of the code *)

(** ** What a caller observes *)

Section Observations.

Context {T : Type}.
Variable func : T -> T -> T.
Context `{!OnNone func}.
Abbreviation slots := (list (option T)).

(** The values a buffer stands for, as [get] shows them. *)
Lemma Inv_getitem (vs : list T) (t : slots) (i : nat) x :
  Inv func vs t -> vs !! i = Some x ->
  getitem (Z.of_nat i) t = (Ok (Some x), t).
Proof.
  intros HI Hx. apply lookup_lt_Some in Hx as Hlt.
  rewrite (getitem_in func vs t _ HI) by lia. now rewrite zlookup_nat, Hx.
Qed.

(** [set(i, v)] inside the range, on a buffer with all complete nodes
    present. *)
Lemma set_inside (t : slots) i v :
  present t -> 0 <= i < size t ->
  exists r t',
    setitem func i v t = (r, t') /\ updated func t i v t' /\
    present t' /\ size t' = size t /\
    (r = Ok tt \/
     (r = Raise AbsentOperand /\ exists h, sibling_gap (size t) i h)).
Proof.
  intros Hp Hi.
  destruct (setitem_path func t i v Hp Hi) as (r & t' & E & Hup & Hres).
  exists r, t'. split; [exact E|]. split; [exact Hup|]. split; [|split].
  - apply (present_grown t); [exact Hp|].
    pose proof (setitem_grown func i v t ltac:(apply Hp)) as Hg.
    now rewrite E in Hg.
  - apply (updated_size func t t' i v Hup).
  - exact Hres.
Qed.

(** X1: the constructor returns for every sequence of values, whatever
    [self.tree] was before; afterwards [len()] is the number of values
    and [get(i)] is the [i]-th value. *)
Theorem init_then_len_getitem (values : list T) (t0 : slots) :
  exists t, init func values t0 = (Ok tt, t) /\
    len t = (Ok (Z.of_nat (length values)), t) /\
    forall (i : nat) x, values !! i = Some x ->
      getitem (Z.of_nat i) t = (Ok (Some x), t).
Proof.
  destruct (init_spec func values t0) as (t & E & HI).
  exists t. split; [exact E|]. split.
  - now rewrite len_spec, (Inv_size func values t HI).
  - intros i x. now apply (Inv_getitem values).
Qed.

(** X2: with an associative [func], [query(i, j)] on a freshly
    constructed structure is the left-to-right fold of the values
    [i .. j-1] that were passed to the constructor. *)
Theorem init_then_query (values : list T) i j :
  Assoc (=) func -> 0 <= i < j -> j <= Z.of_nat (length values) ->
  exists x, query func i j (snd (init func values []))
            = (Ok x, snd (init func values [])) /\
            fold1 func (slice values i j) = Some x.
Proof.
  intros HA Hi Hj. destruct (init_spec func values []) as (t & E & HI).
  rewrite E. simpl.
  destruct (query_spec func values t i j HI Hi Hj) as (x & Eq & Hx).
  exists x. split; [exact Eq|]. symmetry. now apply Hx.
Qed.

(** X3: [set(i, v)] inside the range, whether it returns or raises on an
    absent operand, leaves [len()] as it was, makes [get(i)] return [v]
    and leaves every other [get(k)] as it was. *)
Theorem setitem_then_getitem (t : slots) i v :
  reachable func t -> 0 <= i < size t ->
  let t' := snd (setitem func i v t) in
  fst (len t') = fst (len t) /\
  getitem i t' = (Ok (Some v), t') /\
  forall k, 0 <= k < size t -> k <> i ->
    fst (getitem k t') = fst (getitem k t).
Proof.
  intros Hr Hi. pose proof (reachable_present func t Hr) as Hp.
  pose proof (present_length t Hp) as Hl.
  destruct (setitem_path func t i v Hp Hi) as (r & t' & E & Hup & _).
  cbv zeta. rewrite E. cbn [snd].
  destruct Hup as (Hlen & _ & Hleaf & Hframe & _).
  split; [|split].
  - rewrite !len_spec. cbn [fst]. unfold size. now rewrite Hlen.
  - unfold getitem. rewrite leaf_coord.
    apply list_getitem_in; [rewrite coord_0; lia|]. now apply stored_Some.
  - intros k Hk Hne. unfold getitem. rewrite !leaf_coord.
    apply list_getitem_same; [rewrite coord_0; lia | exact Hlen|].
    apply Hframe; [lia|]. now rewrite div_pow2_0.
Qed.

(** X4: with an associative [func], [set(i, v)] inside the range leaves
    [query(a, b)] as it was for every valid range that does not hold
    [i]. *)
Theorem setitem_keeps_other_queries (t : slots) i v a b :
  Assoc (=) func -> reachable func t -> 0 <= i < size t ->
  0 <= a < b -> b <= size t -> i < a \/ b <= i ->
  fst (query func a b (snd (setitem func i v t))) = fst (query func a b t).
Proof.
  intros HA Hr Hi Ha Hb Hout. pose proof (reachable_present func t Hr) as Hp.
  destruct (set_inside t i v Hp Hi) as (r & t' & E & Hup & Hp' & Hs & _).
  rewrite E. cbn [snd].
  destruct (query_present func t' Hp' a b HA Ha ltac:(lia)) as (x & -> & Hx).
  destruct (query_present func t Hp a b HA Ha Hb) as (y & -> & Hy).
  rewrite (cover_beside func t t' i v ltac:(lia) Hup a b) in Hx by lia.
  simpl. congruence.
Qed.


(** X7: on every reachable buffer, [append(v)] leaves every [get(k)] of
    an element that was there as it was, changes no slot whose subtree
    was complete (the slots [c] with [c + lowbit c <= len(tree)]), and,
    with an associative [func], leaves every query of an old valid range
    as it was. *)
Theorem append_keeps_old (t : slots) v :
  reachable func t ->
  let t' := snd (append func v t) in
  (forall k, 0 <= k < size t -> fst (getitem k t') = fst (getitem k t)) /\
  (forall c, 0 < c -> c + lowbit c <= Z.of_nat (length t) ->
     t' !! Z.to_nat c = t !! Z.to_nat c) /\
  (Assoc (=) func -> forall a b, 0 <= a < b -> b <= size t ->
     fst (query func a b t') = fst (query func a b t)).
Proof.
  intros Hr. pose proof (reachable_present func t Hr) as Hp.
  destruct (append_present func t v Hp) as (t' & E & Happ).
  pose proof (appended_present func t v Hp t' Happ) as Hp'.
  pose proof (appended_size func t t' v Hp Happ) as Hs.
  cbv zeta. rewrite E. cbn [snd].
  assert (forall c, 0 < c -> c + lowbit c <= Z.of_nat (length t) ->
            t' !! Z.to_nat c = t !! Z.to_nat c) as Hkept.
  { intros c Hc Hfit.
    destruct (complete_node t c Hp Hc Hfit) as (h & a & -> & Ha & Hle).
    destruct Happ as (_ & _ & _ & Hold & _). now apply Hold. }
  split; [|split; [exact Hkept|]].
  - intros k Hk.
    destruct (present_read t Hp 0 k ltac:(lia)) as (x & Hx & Hread).
    { unfold pow2. simpl. lia. }
    unfold getitem. rewrite leaf_coord, Hread.
    apply stored_Some in Hx. rewrite <- Hkept in Hx.
    + rewrite (list_getitem_in t' (coord 0 k) (Some x));
        [reflexivity | rewrite coord_0; lia | exact Hx].
    + rewrite coord_0. lia.
    + rewrite lowbit_span. pose proof (present_length t Hp).
      unfold pow2. simpl. lia.
  - intros HA a b Ha Hb.
    destruct (query_present func t' Hp' a b HA Ha ltac:(lia))
      as (x & -> & Hx).
    destruct (query_present func t Hp a b HA Ha Hb) as (y & -> & Hy).
    rewrite (cover_kept func t t' v Happ a b) in Hx by lia.
    simpl. congruence.
Qed.

(** X8: appending the values one after the other to an empty structure
    gives the buffer the constructor builds from the whole sequence. *)
Theorem appends_equal_init (values : list T) :
  bind (init func []) (fun _ => append_all func values) []
  = init func values [].
Proof.
  destruct (init_spec func values []) as (t & E & HI). rewrite E.
  destruct (init_spec func [] []) as (t0 & E0 & HI0).
  unfold bind. rewrite E0.
  assert (forall rest vs (t1 : slots), Inv func vs t1 ->
            exists t2, append_all func rest t1 = (Ok tt, t2) /\
                       Inv func (vs ++ rest) t2) as Hall.
  { induction rest as [|w rest IH]; intros vs t1 H1.
    - exists t1. rewrite app_nil_r. auto.
    - destruct (append_spec func vs w t1 H1) as (t2 & E2 & H2).
      destruct (IH _ t2 H2) as (t3 & E3 & H3).
      exists t3. simpl. unfold bind. rewrite E2, E3, <- app_assoc in *. auto. }
  destruct (Hall values [] t0 HI0) as (t2 & -> & H2).
  f_equal. now apply (Inv_unique func values).
Qed.

(** X9: [get], [query] and [len] never write: on every buffer and for
    all arguments, whether they return or raise, the buffer afterwards is
    the buffer before. *)
Theorem readers_leave_buffer (t : slots) i j :
  snd (getitem i t) = t /\ snd (query func i j t) = t /\ snd (len t) = t.
Proof.
  split; [apply getitem_pure|]. split; [apply query_pure | reflexivity].
Qed.

(** X10: on every reachable buffer the number of slots is twice the
    element count, slot 0 is [None] and every leaf slot [2i+1] with
    [0 <= i < n] holds a value. *)
Theorem buffer_layout (t : slots) :
  reachable func t ->
  Z.of_nat (length t) = 2 * size t /\
  (forall x, t !! 0%nat = Some x -> x = None) /\
  (forall i, 0 <= i < size t ->
     exists x, t !! Z.to_nat (2 * i + 1) = Some (Some x)).
Proof.
  intros Hr. pose proof (reachable_present func t Hr) as Hp.
  split; [apply (present_length t Hp)|]. split; [apply Hp|].
  intros i Hi.
  destruct (present_read t Hp 0 i ltac:(lia)) as (x & Hx & _).
  { unfold pow2. simpl. lia. }
  exists x. rewrite <- coord_0. now apply stored_Some.
Qed.


End Observations.

(** ** When [__setitem__] returns *)

Section SetitemOutcome.

Context {T : Type}.
Variable func : T -> T -> T.
Context `{!OnNone func}.
Abbreviation slots := (list (option T)).







(** The loop of [__setitem__] below coordinate 0 ends in an exception. *)
Lemma setitem_loop_negative i (t : slots) :
  i < 0 ->
  raises_for_sure
    (budget (fun fuel => while fuel setitem_cond (setitem_body func)
                           (coord 0 i, 1)) t).
Proof.
  intros Hi. unfold budget.
  apply (while_rule (negative_inv (length t)) raises_for_sure)
    with (n := length t); [| exists O, i; repeat split; lia | lia].
  generalize (length t) as len0. clear t.
  intros len0 n s t (h & a & -> & Ha & Hlen & ->).
  pose proof (pow2_pos h) as Hk.
  assert (a / 2 < 0) as Ha2 by (apply Z.div_lt_upper_bound; lia).
  exists true. split.
  { unfold setitem_cond, bind, list_len, ret. rewrite right_coord.
    do 2 f_equal. apply Z.ltb_lt. unfold coord. nia. }
  unfold setitem_body. rewrite left_coord, right_coord, parent_coord.
  unfold bind at 1.
  destruct (list_getitem_cases (coord h (2 * (a / 2))) t) as [[x ->] | ->];
    [|now left].
  unfold bind at 1.
  destruct (list_getitem_cases (coord h (2 * (a / 2) + 1)) t)
    as [[y ->] | ->]; [|now left].
  unfold bind at 1.
  destruct (call_cases func x y t) as [[w ->] | ->]; [|now right].
  unfold bind, ret.
  destruct (list_setitem_cases (coord (S h) (a / 2)) (Some w) t)
    as [(t' & -> & Hlen' & Hin) | ->]; [|now left].
  pose proof (coord_abs (S h) (a / 2)). pose proof (pow2_gt (S h)).
  exists (length t' - S h)%nat. split; [lia|].
  exists (S h), (a / 2). rewrite shiftl_pow2.
  split; [reflexivity|]. split; [lia|]. split; lia.
Qed.

(** X15: [set(i, v)] with a negative subscript never returns, on any
    buffer at all: it raises the out-of-range error or the error of
    [func] on an absent operand. *)
Theorem setitem_negative_raises (t : slots) i v :
  i < 0 ->
  fst (setitem func i v t) = Raise OutOfRange \/
  fst (setitem func i v t) = Raise AbsentOperand.
Proof.
  intros Hi.
  assert (raises_for_sure (setitem func i v t)) as H; [|exact H].
  unfold setitem. rewrite leaf_coord. unfold bind at 1.
  destruct (list_setitem_cases (coord 0 i) (Some v) t)
    as [(t' & -> & _) | ->]; [|now left].
  unfold bind, ret. pose proof (setitem_loop_negative i t' Hi) as H.
  unfold raises_for_sure in *.
  destruct (budget _ t') as [[s|e] t'']; simpl in *.
  - destruct H; discriminate.
  - destruct H as [H | H]; injection H as ->; auto.
Qed.

End SetitemOutcome.

(** ** [_format] *)

Section FormatProofs.

Context {T : Type}.
Abbreviation slots := (list (option T)).
Abbreviation rows := (list (list (option T))).

Lemma pow2_le_inv a b : pow2 a <= pow2 b -> (a <= b)%nat.
Proof.
  unfold pow2. intros H. apply Z.pow_le_mono_r_iff in H; lia.
Qed.

Lemma pow2_le_mono a b : (a <= b)%nat -> pow2 a <= pow2 b.
Proof. unfold pow2. intros H. apply Z.pow_le_mono_r; lia. Qed.

(** The row of a node: [(i & -i).bit_length() - 1] is its height. *)
Lemma level_coord h a :
  bit_length (Z.land (coord h a) (- coord h a)) - 1 = Z.of_nat h.
Proof.
  fold (lowbit (coord h a)). rewrite lowbit_coord.
  pose proof (pow2_pos h). unfold bit_length.
  destruct (Z.eqb_spec (pow2 h) 0); [lia|].
  rewrite Z.abs_eq by lia. unfold pow2. rewrite Z.log2_pow2; lia.
Qed.

Lemma range_cons lo hi : lo < hi -> range lo hi = lo :: range (lo + 1) hi.
Proof.
  intros H. unfold range.
  replace (Z.to_nat (hi - lo)) with (S (Z.to_nat (hi - (lo + 1)))) by lia.
  simpl. rewrite Z.add_0_r. f_equal.
  rewrite <- seq_shift, map_map. apply map_ext. intros d. lia.
Qed.

Lemma range_nil lo hi : hi <= lo -> range lo hi = [].
Proof.
  intros H. unfold range. now replace (Z.to_nat (hi - lo)) with 0%nat by lia.
Qed.

Lemma subscript_get_in {A} (l : list A) c x :
  0 <= c -> l !! Z.to_nat c = Some x -> subscript_get l c = Ok x.
Proof.
  intros Hc Hx. apply lookup_lt_Some in Hx as Hlt. unfold subscript_get.
  rewrite subscript_in by lia. now rewrite Hx.
Qed.

Lemma subscript_get_last {A} (l : list A) x :
  last l = Some x -> subscript_get l (-1) = Ok x.
Proof.
  intros Hx. apply last_Some in Hx as [l' ->]. unfold subscript_get.
  rewrite length_app. simpl.
  rewrite subscript_negative by lia.
  replace (Z.to_nat (Z.of_nat (length l' + 1) + -1)) with (length l') by lia.
  now rewrite list_lookup_middle.
Qed.

(** A row is as long as there are nodes of its height below [m]. *)
Lemma format_row_length (tree : slots) m (out : rows) h row (a : nat) :
  format_inv tree m out -> m <= Z.of_nat (length tree) ->
  out !! h = Some row -> coord h (Z.of_nat a) = m -> length row = a.
Proof.
  intros (_ & Hrows) Hm Hrow Ea. specialize (Hrows h row Hrow).
  pose proof (pow2_pos h) as Hk.
  assert (a <= length row)%nat.
  { destruct a as [|a]; [lia|].
    specialize (Hrows a).
    destruct (Z.ltb_spec (coord h (Z.of_nat a)) m) as [Hlt|Hge];
      [|unfold coord in *; nia].
    assert (is_Some (row !! a)) as HS.
    { rewrite Hrows. apply lookup_lt_is_Some.
      pose proof (coord_pos h (Z.of_nat a)). lia. }
    apply lookup_lt_is_Some in HS. lia. }
  assert (length row <= a)%nat; [|lia].
  specialize (Hrows a). rewrite Ea, Z.ltb_irrefl in Hrows.
  now apply lookup_ge_None in Hrows.
Qed.

(** One round of the loop. *)
Lemma format_step_spec (tree : slots) m (out : rows) :
  format_inv tree m out -> 1 <= m < Z.of_nat (length tree) ->
  exists out', format_step tree out m = Ok out' /\
               format_inv tree (m + 1) out'.
Proof.
  intros Hinv Hm. pose proof Hinv as ((K & HlenK & HmK & HK) & Hrows).
  destruct (coord_decompose m ltac:(lia)) as (h & az & Haz & Em).
  set (a := Z.to_nat az). replace az with (Z.of_nat a) in Em by lia.
  clear Haz. clearbody a. clear az.
  pose proof (pow2_pos h) as Hk. pose proof (pow2_pos K) as HkK.
  assert (h <= K)%nat as HhK.
  { apply pow2_le_inv. pose proof (coord_pos h (Z.of_nat a)). lia. }
  destruct (lookup_lt_is_Some_2 out h ltac:(lia)) as [row Hrow].
  destruct (lookup_lt_is_Some_2 tree (Z.to_nat m) ltac:(lia)) as [x Hx].
  pose proof (format_row_length tree m out h row a Hinv ltac:(lia) Hrow
                (eq_sym Em)) as Hlen.
  assert (bit_length (Z.land m (- m)) - 1 = Z.of_nat h) as Elev
    by (rewrite Em; apply level_coord).
  unfold format_step. cbv zeta. rewrite Elev.
  rewrite subscript_in, Nat2Z.id, Hrow by lia.
  rewrite (subscript_get_in tree m x ltac:(lia) Hx).
  assert (forall (h' : nat) row', out !! h' = Some row' -> h' <> h ->
            forall a' : nat,
              row' !! a' = if coord h' (Z.of_nat a') <? m + 1
                           then tree !! Z.to_nat (coord h' (Z.of_nat a'))
                           else None) as Hother.
  { intros h' row' Hrow' Hne a'. rewrite (Hrows h' row' Hrow' a').
    destruct (Z.ltb_spec (coord h' (Z.of_nat a')) m),
      (Z.ltb_spec (coord h' (Z.of_nat a')) (m + 1)); try reflexivity; try lia.
    assert (coord h' (Z.of_nat a') = coord h (Z.of_nat a)) as E by lia.
    apply coord_inj in E. lia. }
  assert (forall a' : nat,
            (row ++ [x]) !! a' = if coord h (Z.of_nat a') <? m + 1
                                 then tree !! Z.to_nat (coord h (Z.of_nat a'))
                                 else None) as Hthis.
  { intros a'. destruct (Nat.lt_total a' a) as [Hlt | [-> | Hgt]].
    - rewrite lookup_app_l by lia. rewrite (Hrows h row Hrow a').
      destruct (Z.ltb_spec (coord h (Z.of_nat a')) m),
        (Z.ltb_spec (coord h (Z.of_nat a')) (m + 1));
        try reflexivity; unfold coord in *; nia.
    - rewrite list_lookup_middle by lia. rewrite <- Em.
      destruct (Z.ltb_spec m (m + 1)); [now rewrite Hx | lia].
    - rewrite lookup_ge_None_2 by (rewrite length_app; simpl; lia).
      destruct (Z.ltb_spec (coord h (Z.of_nat a')) (m + 1));
        [unfold coord in *; nia | reflexivity]. }
  destruct (Nat.eq_dec h K) as [->|HneK].
  - (* the first node of a new height *)
    assert (m = pow2 K) as Emk.
    { pose proof (coord_pos K (Z.of_nat a)). lia. }
    rewrite (subscript_get_last _ (row ++ [x])).
    2:{ replace (<[K := row ++ [x]]> out)
          with (take K out ++ [row ++ [x]]).
        - apply last_snoc.
        - rewrite <- (take_drop_middle out K row Hrow) at 2.
          rewrite insert_app_r_alt by (rewrite length_take; lia).
          rewrite length_take, drop_ge by lia.
          replace (K - K `min` length out)%nat with 0%nat by lia.
          reflexivity. }
    destruct (row ++ [x]) as [|y rest] eqn:Erow;
      [now destruct row|]. rewrite <- Erow in *.
    eexists. split; [reflexivity|]. split.
    + exists (S K). rewrite length_app, length_insert. simpl.
      rewrite pow2_S, Nat.sub_0_r. split; [lia|]. split; [lia|]. right. lia.
    + intros h' row' Hrow' a'.
      destruct (Nat.lt_ge_cases h' (S K)) as [Hlt|Hge].
      * rewrite lookup_app_l in Hrow' by (rewrite length_insert; lia).
        destruct (Nat.eq_dec h' K) as [->|Hne].
        -- rewrite list_lookup_insert_eq in Hrow' by lia.
           injection Hrow' as <-. apply Hthis.
        -- rewrite list_lookup_insert_ne in Hrow' by lia.
           now apply Hother.
      * rewrite lookup_app_r in Hrow' by (rewrite length_insert; lia).
        rewrite length_insert in Hrow'.
        destruct (h' - length out)%nat as [|d] eqn:Ed; [|discriminate].
        injection Hrow' as <-. simpl.
        destruct (Z.ltb_spec (coord h' (Z.of_nat a')) (m + 1)) as [Hlt|];
          [|reflexivity].
        pose proof (coord_pos h' (Z.of_nat a') ltac:(lia)).
        pose proof (pow2_le_mono (S K) h' ltac:(lia)).
        rewrite pow2_S in *. lia.
  - (* a node of a height that has its row *)
    assert (m < pow2 K) as HltK.
    { destruct (Z.eq_dec m (pow2 K)) as [E|]; [|lia].
      assert (coord h (Z.of_nat a) = coord K 0) as E'
        by (rewrite <- Em, E; unfold coord; lia).
      apply coord_inj in E'. lia. }
    destruct (lookup_lt_is_Some_2 out K ltac:(lia)) as [top Htop].
    assert (top = []) as ->.
    { specialize (Hrows K top Htop 0%nat).
      destruct (Z.ltb_spec (coord K (Z.of_nat 0)) m) as [Hlt|].
      - pose proof (coord_pos K (Z.of_nat 0)). lia.
      - now destruct top. }
    rewrite (subscript_get_last _ []).
    2:{ replace (<[h := row ++ [x]]> out)
          with (take K (<[h := row ++ [x]]> out) ++ [[]]).
        - apply last_snoc.
        - rewrite <- (take_drop_middle (<[h := row ++ [x]]> out) K [])
            at 2 by (rewrite list_lookup_insert_ne by lia; exact Htop).
          now rewrite drop_ge by (rewrite length_insert; lia). }
    eexists. split; [reflexivity|]. split.
    + exists K. rewrite length_insert. split; [lia|]. split; [lia|].
      destruct HK; [now left | right; lia].
    + intros h' row' Hrow' a'.
      destruct (Nat.eq_dec h' h) as [->|Hne].
      * rewrite list_lookup_insert_eq in Hrow' by lia.
        injection Hrow' as <-. apply Hthis.
      * rewrite list_lookup_insert_ne in Hrow' by lia. now apply Hother.
Qed.

(** The loop over the coordinates [m .. len(tree) - 1]. *)
Lemma format_loop_spec (tree : slots) (count : nat) m (out : rows) :
  format_inv tree m out -> 1 <= m ->
  m + Z.of_nat count = Z.of_nat (length tree) ->
  exists out', format_loop tree out (range m (Z.of_nat (length tree)))
               = Ok out' /\
               format_inv tree (Z.of_nat (length tree)) out'.
Proof.
  revert m out. induction count as [|count IH]; intros m out Hinv Hm Hc.
  - rewrite range_nil by lia. exists out. split; [reflexivity|].
    now replace (Z.of_nat (length tree)) with m by lia.
  - rewrite range_cons by lia.
    destruct (format_step_spec tree m out Hinv ltac:(lia))
      as (out1 & E1 & Hinv1).
    destruct (IH (m + 1) out1 Hinv1 ltac:(lia) ltac:(lia))
      as (out2 & E2 & Hinv2).
    exists out2. simpl. now rewrite E1, E2.
Qed.

Lemma format_inv_start (tree : slots) : format_inv tree 1 [[]].
Proof.
  split.
  - exists O. simpl. unfold pow2. simpl. split; [reflexivity|].
    split; [lia | now left].
  - intros [|h] row; [|discriminate]. intros [= <-] a.
    destruct (Z.ltb_spec (coord 0 (Z.of_nat a)) 1) as [Hlt|]; [|reflexivity].
    rewrite coord_0 in Hlt. lia.
Qed.

(** What [_format] returns, for every buffer. *)
Lemma format_spec (tree : slots) :
  exists out, format tree = Ok out /\
    (forall h a : nat,
       out !! h ≫= (.!! a) = tree !! Z.to_nat (coord h (Z.of_nat a))) /\
    (forall h row, out !! h = Some row -> row <> []).
Proof.
  assert (exists m out1,
            format_loop tree [[]] (range 1 (Z.of_nat (length tree))) = Ok out1
            /\ format_inv tree m out1 /\ Z.of_nat (length tree) <= m /\
            (m = 1 \/ m = Z.of_nat (length tree)))
    as (m & out1 & E & Hinv & Hm).
  { destruct (Z.le_gt_cases (Z.of_nat (length tree)) 1) as [Hle|Hgt].
    - exists 1, [[]]. rewrite range_nil by lia.
      split; [reflexivity|]. split; [apply format_inv_start | lia].
    - destruct (format_loop_spec tree (length tree - 1) 1 [[]]
                  (format_inv_start tree) ltac:(lia) ltac:(lia))
        as (out1 & E & Hinv).
      exists (Z.of_nat (length tree)), out1. auto with lia. }
  destruct Hinv as ((K & HlenK & HmK & HK) & Hrows).
  unfold format. rewrite E.
  destruct (last out1) as [top|] eqn:Elast;
    [|apply last_None in Elast; subst out1; discriminate].
  apply last_Some in Elast as [out ->].
  rewrite length_app in HlenK. simpl in HlenK.
  assert (length out = K) as HK' by lia.
  exists out. split.
  { destruct (out ++ [top]) eqn:Eo; [now destruct out|].
    now rewrite <- Eo, removelast_last. }
  split.
  - intros h a. pose proof (pow2_pos h).
    pose proof (coord_pos h (Z.of_nat a) ltac:(lia)) as Hpos.
    destruct (out !! h) as [row|] eqn:Erow; simpl.
    + rewrite (Hrows h row) by (now apply lookup_app_l_Some).
      destruct (Z.ltb_spec (coord h (Z.of_nat a)) m); [reflexivity|].
      symmetry. apply lookup_ge_None. lia.
    + symmetry. apply lookup_ge_None. apply lookup_ge_None in Erow.
      pose proof (pow2_le_mono K h ltac:(lia)). lia.
  - intros h row Hrow ->. apply lookup_lt_Some in Hrow as Hlt.
    specialize (Hrows h [] (lookup_app_l_Some _ _ _ _ Hrow) 0%nat).
    pose proof (pow2_le_mono h (K - 1) ltac:(lia)).
    assert (coord h (Z.of_nat 0) = pow2 h) as Ec by (unfold coord; simpl; lia).
    rewrite Ec in Hrows.
    destruct HK as [->|HK]; [lia|].
    destruct (Z.ltb_spec (pow2 h) m); [|lia].
    symmetry in Hrows. apply lookup_ge_None in Hrows.
    pose proof (pow2_pos h). lia.
Qed.

(** X16: [_format] returns for every buffer; row [h] of the result lists
    the slots at the odd multiples of [2^h] in increasing order, that is
    [out[h][a]] is [tree[2^h * (2a + 1)]], slot 0 is in no row and no row
    is empty. *)
Theorem format_rows (tree : slots) :
  exists out, format tree = Ok out /\
    (forall h a : nat,
       out !! h ≫= (.!! a) = tree !! Z.to_nat (coord h (Z.of_nat a))) /\
    (forall h row, out !! h = Some row -> row <> []).
Proof. apply format_spec. Qed.

Section Entries.

Variable func : T -> T -> T.
Context `{!OnNone func}.


End Entries.

End FormatProofs.

(** ** [__setitem__] on any buffer *)

Section SetitemAnywhere.

Context {T : Type}.
Variable func : T -> T -> T.
Context `{!OnNone func}.
Abbreviation slots := (list (option T)).

Lemma setitem_loop_outcomes i (t : slots) :
  (fun rt : outcome (Z * Z) * slots =>
     (exists s, fst rt = Ok s) \/ raises_for_sure rt)
    (budget (fun fuel => while fuel setitem_cond (setitem_body func)
                           (coord 0 i, 1)) t).
Proof.
  unfold budget.
  apply (while_rule (climb_inv (length t))
           (fun rt : outcome (Z * Z) * slots =>
              (exists s, fst rt = Ok s) \/ raises_for_sure rt))
    with (n := length t); [| exists O, i; repeat split; lia | lia].
  generalize (length t) as len0. clear t.
  intros len0 n s t (h & a & -> & Hlen & ->).
  eexists. split; [reflexivity|].
  destruct (_ <? _); [|left; eauto].
  unfold setitem_body. rewrite left_coord, right_coord, parent_coord.
  unfold bind at 1.
  destruct (list_getitem_cases (coord h (2 * (a / 2))) t) as [[x ->] | ->];
    [|right; now left].
  unfold bind at 1.
  destruct (list_getitem_cases (coord h (2 * (a / 2) + 1)) t)
    as [[y ->] | ->]; [|right; now left].
  unfold bind at 1.
  destruct (call_cases func x y t) as [[w ->] | ->]; [|right; now right].
  unfold bind, ret.
  destruct (list_setitem_cases (coord (S h) (a / 2)) (Some w) t)
    as [(t' & -> & Hlen' & Hin) | ->]; [|right; now left].
  pose proof (coord_abs (S h) (a / 2)). pose proof (pow2_gt (S h)).
  exists (length t' - S h)%nat. split; [lia|].
  exists (S h), (a / 2). rewrite shiftl_pow2. repeat split; lia.
Qed.

(** X18: on any buffer at all and for every subscript, [set(i, v)]
    ends, and it returns or raises the out-of-range error or the error
    of [func] on an absent operand, nothing else. *)
Theorem setitem_outcomes (t : slots) i v :
  fst (setitem func i v t) = Ok tt \/
  fst (setitem func i v t) = Raise OutOfRange \/
  fst (setitem func i v t) = Raise AbsentOperand.
Proof.
  destruct (setitem func i v t) as [r t1] eqn:E. simpl. revert E.
  unfold setitem. rewrite leaf_coord. unfold bind at 1.
  destruct (list_setitem_cases (coord 0 i) (Some v) t)
    as [(t' & -> & _) | ->]; [|intros [= <- _]; right; now left].
  unfold bind, ret. pose proof (setitem_loop_outcomes i t') as H.
  unfold raises_for_sure in H. simpl in H.
  destruct (budget _ t') as [[s|e] t'']; simpl in *;
    intros [= <- _]; [now left|].
  destruct H as [[s Hs] | [H | H]]; [discriminate Hs | |];
    injection H as ->; auto.
Qed.

End SetitemAnywhere.

(** ** The further properties at concrete inputs *)

Lemma init_then_query_at :
  exists x, query (@app Z) 0 2 (snd (init (@app Z) [[1]; [2]; [3]] []))
            = (Ok x, snd (init (@app Z) [[1]; [2]; [3]] [])) /\
            fold1 (@app Z) (slice [[1]; [2]; [3]] 0 2) = Some x.
Proof.
  apply (init_then_query (@app Z) [[1]; [2]; [3]] 0 2 words_app_assoc).
  - lia.
  - simpl. lia.
Defined.

Lemma setitem_then_getitem_at :
  let t' := snd (setitem Z.add 2 15 scenario_seven) in
  fst (len t') = fst (len scenario_seven) /\
  getitem 2 t' = (Ok (Some 15), t') /\
  forall k, 0 <= k < size scenario_seven -> k <> 2 ->
    fst (getitem k t') = fst (getitem k scenario_seven).
Proof.
  apply (setitem_then_getitem Z.add scenario_seven 2 15).
  - apply reach_append, reach_init.
  - change (size scenario_seven) with 7. lia.
Defined.

Lemma setitem_keeps_other_queries_at :
  fst (query Z.add 3 6 (snd (setitem Z.add 2 15 scenario_six)))
  = fst (query Z.add 3 6 scenario_six).
Proof.
  apply (setitem_keeps_other_queries Z.add scenario_six 2 15 3 6 Z_add_assoc
           (reach_init Z.add [1; 2; 3; 4; 5; 6]));
    change (size scenario_six) with 6; lia.
Defined.


Lemma append_keeps_old_at :
  let t' := snd (append Z.add 100 after_failed_set) in
  (forall k, 0 <= k < size after_failed_set ->
     fst (getitem k t') = fst (getitem k after_failed_set)) /\
  (forall c, 0 < c -> c + lowbit c <= Z.of_nat (length after_failed_set) ->
     t' !! Z.to_nat c = after_failed_set !! Z.to_nat c) /\
  (Assoc (=) Z.add -> forall a b, 0 <= a < b -> b <= size after_failed_set ->
     fst (query Z.add a b t') = fst (query Z.add a b after_failed_set)).
Proof.
  apply (append_keeps_old Z.add after_failed_set 100).
  apply reach_setitem, reach_init.
Defined.

Lemma buffer_layout_at :
  Z.of_nat (length built_five) = 2 * size built_five /\
  (forall x, built_five !! 0%nat = Some x -> x = None) /\
  (forall i, 0 <= i < size built_five ->
     exists x, built_five !! Z.to_nat (2 * i + 1) = Some (Some x)).
Proof.
  apply (buffer_layout Z.add built_five (reach_init Z.add [1; 2; 3; 4; 5])).
Defined.





Lemma setitem_negative_raises_at :
  fst (setitem Z.add (-1) 9 built_five) = Raise OutOfRange \/
  fst (setitem Z.add (-1) 9 built_five) = Raise AbsentOperand.
Proof. apply (setitem_negative_raises Z.add built_five (-1) 9). lia. Defined.

